(** * pi-render-md: the rendering transform pipeline

    A shallow embedding of the extension's pure transforms (outer-fence
    unwrapping, code-block background injection, the code-fence border
    wrapper, heading and list-item rendering, print-mode post-processing)
    and of its configuration state (patch options, revision counter,
    per-instance flags), followed by the properties proved about them.

    JavaScript strings are sequences of UTF-16 code units; they are
    modelled as lists of code units ([N]). *)

From Stdlib Require Import String Ascii NArith ZArith QArith Lia Bool Arith List.
Import ListNotations.
Close Scope Q_scope.


(* ================================================================== *)
(** ** JavaScript strings *)
(* ================================================================== *)

Module Js.

Abbreviation str := (list N) (only parsing).

(** An ASCII literal as a sequence of code units. *)
Definition lit (s : string) : str :=
  List.map N_of_ascii (list_ascii_of_string s).

Definition ESC : N := 27%N.

(** [WhiteSpace] and [LineTerminator] code points of ECMAScript: the set
    removed by [String.prototype.trim] / [trimEnd] and matched by the
    class escape [\s]. *)
Definition is_ws (c : N) : bool :=
  ((c =? 9) || (c =? 10) || (c =? 11) || (c =? 12) || (c =? 13) ||
   (c =? 32) || (c =? 160) || (c =? 5760) ||
   ((8192 <=? c) && (c <=? 8202)) ||
   (c =? 8232) || (c =? 8233) || (c =? 8239) || (c =? 8287) ||
   (c =? 12288) || (c =? 65279))%N.

Fixpoint trimStart (s : str) : str :=
  match s with
  | c :: s' => if is_ws c then trimStart s' else s
  | [] => []
  end.

Definition trimEnd (s : str) : str := rev (trimStart (rev s)).

Definition trim (s : str) : str := trimEnd (trimStart s).

(** [s.startsWith(p)] *)
Fixpoint startsWith (p s : str) : bool :=
  match p, s with
  | [], _ => true
  | _ :: _, [] => false
  | a :: p', b :: s' => (a =? b)%N && startsWith p' s'
  end.

(** [s.slice(n)] for a non-negative [n]. *)
Definition slice_from (n : nat) (s : str) : str := skipn n s.

(** [s.repeat(n)] *)
Fixpoint repeat_str (s : str) (n : nat) : str :=
  match n with
  | O => []
  | S n' => s ++ repeat_str s n'
  end.

(** [lines.join(sep)] *)
Fixpoint join (sep : str) (l : list str) : str :=
  match l with
  | [] => []
  | [x] => x
  | x :: l' => x ++ sep ++ join sep l'
  end.

(** [a === b] on strings *)
Fixpoint str_eqb (a b : str) : bool :=
  match a, b with
  | [], [] => true
  | x :: a', y :: b' => (x =? y)%N && str_eqb a' b'
  | _, _ => false
  end.

(** JavaScript truthiness of a string: the empty string is falsy. *)
Definition truthy (s : str) : bool :=
  match s with [] => false | _ :: _ => true end.

End Js.
Import Js.

(* ================================================================== *)
(** ** A backtracking matcher for the regular expressions of the source *)
(* ================================================================== *)

(** The fragment of ECMAScript patterns that the source uses: single
    code-unit classes, sequence, alternation, greedy [?] and [*] and lazy
    [*?] over a class, capture groups and the anchors [^] and [$]
    (without the [m] flag).  The matcher follows the backtracking
    semantics of the language specification: every construct is given the
    continuation that matches the rest of the pattern, and alternatives
    are tried in priority order. *)
Module Regex.

Inductive regex : Type :=
| RChar (c : N -> bool)
| RSeq (a b : regex)
| RAlt (a b : regex)
| ROpt (c : N -> bool)
| RStar (c : N -> bool)
| RStarLazy (c : N -> bool)
| RGroup (n : nat) (a : regex)
| REps
| RBol
| REol.

(** Matcher state: the index of the next code unit, the rest of the
    input from there, and the captures recorded so far. *)
Record mstate : Type := MState {
  idx : nat;
  rest : str;
  caps : list (nat * str)
}.

Definition mcont := mstate -> option mstate.

Fixpoint star_greedy (c : N -> bool) (s : str) (i : nat)
    (cs : list (nat * str)) (k : mcont) : option mstate :=
  match s with
  | x :: s' =>
      if c x then
        match star_greedy c s' (S i) cs k with
        | Some r => Some r
        | None => k (MState i s cs)
        end
      else k (MState i s cs)
  | [] => k (MState i [] cs)
  end.

Fixpoint star_lazy (c : N -> bool) (s : str) (i : nat)
    (cs : list (nat * str)) (k : mcont) : option mstate :=
  match k (MState i s cs) with
  | Some r => Some r
  | None =>
      match s with
      | x :: s' => if c x then star_lazy c s' (S i) cs k else None
      | [] => None
      end
  end.

Definition one (c : N -> bool) (st : mstate) (k : mcont) : option mstate :=
  match rest st with
  | x :: s' => if c x then k (MState (S (idx st)) s' (caps st)) else None
  | [] => None
  end.

Fixpoint rmatch (r : regex) (st : mstate) (k : mcont) : option mstate :=
  match r with
  | RChar c => one c st k
  | RSeq a b => rmatch a st (fun st' => rmatch b st' k)
  | RAlt a b =>
      match rmatch a st k with
      | Some r => Some r
      | None => rmatch b st k
      end
  | ROpt c =>
      match one c st k with
      | Some r => Some r
      | None => k st
      end
  | RStar c => star_greedy c (rest st) (idx st) (caps st) k
  | RStarLazy c => star_lazy c (rest st) (idx st) (caps st) k
  | RGroup n a =>
      rmatch a st (fun st' =>
        k (MState (idx st') (rest st')
             ((n, firstn (idx st' - idx st) (rest st)) :: caps st')))
  | REps => k st
  | RBol => if Nat.eqb (idx st) 0 then k st else None
  | REol => match rest st with [] => k st | _ :: _ => None end
  end.

(** [RegExp.prototype.exec] for a pattern without the [g] and [y] flags:
    the match is attempted at every start index from 0 upwards. *)
Fixpoint exec_from (r : regex) (i : nat) (s : str) : option mstate :=
  match rmatch r (MState i s []) (fun st => Some st) with
  | Some m => Some m
  | None =>
      match s with
      | _ :: s' => exec_from r (S i) s'
      | [] => None
      end
  end.

Definition exec (r : regex) (s : str) : option mstate := exec_from r 0 s.

Fixpoint capture (n : nat) (cs : list (nat * str)) : option str :=
  match cs with
  | [] => None
  | (m, v) :: cs' => if Nat.eqb m n then Some v else capture n cs'
  end.

(** [Canonicalize] under the [i] flag without the [u] flag maps a code
    unit to its upper case, except that a code unit above 127 is never
    mapped to one below 128.  Every literal of the source pattern is
    ASCII, so only the ASCII part of the mapping decides a comparison:
    code units above 127 are left as they are. *)
Definition canonicalize (c : N) : N :=
  if ((97 <=? c) && (c <=? 122))%N then (c - 32)%N else c.

Definition ci (a : N) : N -> bool :=
  fun c => (canonicalize c =? canonicalize a)%N.

Definition any : N -> bool := fun _ => true.

(** A literal under the [i] flag. *)
Fixpoint rlit (l : str) : regex :=
  match l with
  | [] => REps
  | a :: l' => RSeq (RChar (ci a)) (rlit l')
  end.

End Regex.
Import Regex.

(* ================================================================== *)
(** ** Fence unwrapper *)
(* ================================================================== *)

Definition CR : N := 13%N.
Definition LF : N := 10%N.
Definition BT : N := 96%N.

Definition bt3 : str := [BT; BT; BT].

(** The part of the pattern after the language word:
    [\s*\r?\n([\s\S]*?)\r?\n```\s*$] *)
Definition fence_closer : regex :=
  RSeq (ROpt (ci CR))
    (RSeq (RChar (ci LF)) (RSeq (rlit bt3) (RSeq (RStar is_ws) REol))).

Definition fence_body : regex :=
  RSeq (RGroup 2 (RStarLazy any)) fence_closer.

Definition fence_after_lang : regex :=
  RSeq (RStar is_ws) (RSeq (ROpt (ci CR)) (RSeq (RChar (ci LF)) fence_body)).

(** [/^```\s*(markdown|md)\s*\r?\n([\s\S]*?)\r?\n```\s*$/i] *)
Definition fence_re : regex :=
  RSeq RBol
    (RSeq (rlit bt3)
      (RSeq (RStar is_ws)
        (RSeq (RGroup 1 (RAlt (rlit (lit "markdown")) (rlit (lit "md"))))
              fence_after_lang))).

Definition stripOuterMarkdownFence (text : str) : str :=
  let trimmed := trim text in
  match exec fence_re trimmed with
  | None => text
  | Some m =>
      match capture 2 (caps m) with
      | Some inner => inner
      | None => []
      end
  end.

Definition nl : str := [LF].

(* ================================================================== *)
(** ** String replacement *)
(* ================================================================== *)

Module Replace.

Definition DOLLAR : N := 36%N.

(** [GetSubstitution] for a string pattern (no captures, no named
    groups): [$$] is a dollar sign, [$&] the matched text, [$`] the text
    before the match and [$'] the text after it; every other use of [$]
    stays as written. *)
Fixpoint getSubstitution (matched before after repl : str) : str :=
  match repl with
  | [] => []
  | c :: r1 =>
      if (c =? DOLLAR)%N then
        match r1 with
        | [] => [c]
        | d :: r2 =>
            if (d =? DOLLAR)%N then DOLLAR :: getSubstitution matched before after r2
            else if (d =? 38)%N then matched ++ getSubstitution matched before after r2
            else if (d =? 96)%N then before ++ getSubstitution matched before after r2
            else if (d =? 39)%N then after ++ getSubstitution matched before after r2
            else c :: getSubstitution matched before after r1
        end
      else c :: getSubstitution matched before after r1
  end.

(** [s.replaceAll(pat, repl)] with a string pattern: the occurrences of
    [pat] are found from left to right, each search resuming after the
    previous occurrence ([skip] counts the code units of an occurrence
    still to be passed over; [before_rev] is the text already scanned,
    reversed).  For the empty pattern every position is an occurrence. *)
Fixpoint replaceAll_from (pat repl : str) (before_rev : str) (skip : nat)
    (s : str) : str :=
  match s with
  | [] =>
      match pat with
      | [] => getSubstitution pat (rev before_rev) [] repl
      | _ :: _ => []
      end
  | c :: s' =>
      match skip with
      | S k => replaceAll_from pat repl (c :: before_rev) k s'
      | O =>
          if startsWith pat s then
            getSubstitution pat (rev before_rev) (skipn (length pat) s) repl ++
            match pat with
            | [] => c :: replaceAll_from pat repl (c :: before_rev) 0 s'
            | _ :: _ =>
                replaceAll_from pat repl (c :: before_rev) (length pat - 1) s'
            end
          else c :: replaceAll_from pat repl (c :: before_rev) 0 s'
      end
  end.

Definition replaceAll (pat repl s : str) : str :=
  replaceAll_from pat repl [] 0 s.

End Replace.
Import Replace.

(* ================================================================== *)
(** ** Options, patch state, theme *)
(* ================================================================== *)

Record TuiPatchOptions : Type := {
  enabled : bool;
  unwrapOuterMarkdownFence : bool;
  hideCodeFences : bool;
  showCodeFenceLanguageLabel : bool;
  stripHeadingPrefixes : bool;
  codeBlockBgKey : option str;
  codeBlockBgAnsi : option str;
  codeBlockIndent : str
}.

Definition defaults : TuiPatchOptions := {|
  enabled := true;
  unwrapOuterMarkdownFence := true;
  hideCodeFences := true;
  showCodeFenceLanguageLabel := false;
  stripHeadingPrefixes := true;
  codeBlockBgKey := Some (lit "toolPendingBg");
  codeBlockBgAnsi := None;
  codeBlockIndent := lit "    "
|}.

(** The revision is a JavaScript number.  It starts at 0 and is only
    ever incremented, so it is an integer between 0 and 2^53; at 2^53 the
    increment is absorbed by rounding. *)
Definition js_incr (r : Z) : Z :=
  if (r <? 2 ^ 53)%Z then (r + 1)%Z else r.

Record PatchState : Type := {
  revision : Z;
  options : TuiPatchOptions
}.

(** [getPatchState] when no state exists yet. *)
Definition initialPatchState : PatchState :=
  {| revision := 0; options := defaults |}.

Record MarkdownTheme : Type := {
  heading : str -> str;
  bold : str -> str;
  underline : str -> str;
  codeBlock : str -> str;
  codeBlockBorder : str -> str;
  highlightCode : option (str -> option str -> list str);
  themeCodeBlockIndent : option str
}.

Record ThemeOriginals : Type := {
  orig_codeBlock : str -> str;
  orig_codeBlockBorder : str -> str;
  orig_highlightCode : option (str -> option str -> list str);
  orig_codeBlockIndent : option str
}.

(* ================================================================== *)
(** ** Theme transform adapter *)
(* ================================================================== *)

(** [ESC[0m] and [ESC[49m] *)
Definition RESET_ALL : str := ESC :: lit "[0m".
Definition RESET_BG : str := ESC :: lit "[49m".

(** The value of [options.codeBlockBgAnsi] when it is truthy. *)
Definition bgAnsi (o : TuiPatchOptions) : option str :=
  match codeBlockBgAnsi o with
  | Some bg => if truthy bg then Some bg else None
  | None => None
  end.

Definition applyCodeBg (o : TuiPatchOptions) (s : str) : str :=
  match bgAnsi o with
  | None => s
  | Some bg =>
      let stable :=
        replaceAll RESET_BG bg (replaceAll RESET_ALL (RESET_ALL ++ bg) s) in
      bg ++ stable
  end.

(** [options.codeBlockBgAnsi ? options.codeBlockBgAnsi : ""] *)
Definition bgOrEmpty (o : TuiPatchOptions) : str :=
  match bgAnsi o with
  | Some bg => bg
  | None => []
  end.

Definition LANGLE : N := 8249%N.
Definition RANGLE : N := 8250%N.

(** The replacement of [theme.codeBlockBorder]; [originalBorder] is the
    captured original and [themeIndent] the value of
    [theme.codeBlockIndent] when the wrapper is called. *)
Definition codeBlockBorder_wrapper (o : TuiPatchOptions)
    (originalBorder : str -> str) (themeIndent : option str) (t : str) : str :=
  if negb (enabled o) || negb (hideCodeFences o) then
    applyCodeBg o (originalBorder t)
  else if negb (startsWith bt3 t) then applyCodeBg o (originalBorder t)
  else
    let lang := trim (slice_from 3 t) in
    if negb (truthy lang) then bgOrEmpty o
    else if negb (showCodeFenceLanguageLabel o) then bgOrEmpty o
    else
      let indent :=
        match themeIndent with Some i => i | None => lit "  " end in
      let label := originalBorder ([LANGLE] ++ lang ++ [RANGLE]) in
      applyCodeBg o (indent ++ label).

Definition codeBlock_wrapper (o : TuiPatchOptions)
    (originalCodeBlock : str -> str) (t : str) : str :=
  applyCodeBg o (originalCodeBlock t).

Definition highlightCode_wrapper (o : TuiPatchOptions)
    (originalHighlight : str -> option str -> list str)
    (code : str) (lang : option str) : list str :=
  List.map (applyCodeBg o) (originalHighlight code lang).

(** The indent written to [theme.codeBlockIndent] on every render. *)
Definition patchedIndent (o : TuiPatchOptions) : str :=
  let baseIndent := codeBlockIndent o in
  match bgAnsi o with
  | Some bg => if truthy baseIndent then bg ++ baseIndent else baseIndent
  | None => baseIndent
  end.

(* ================================================================== *)
(** ** Renderer instances *)
(* ================================================================== *)

(** A [Markdown] component with the fields the patch reads and writes.
    The last three fields are counters added for the proofs: the number
    of [invalidate] calls, of [stripOuterMarkdownFence] runs and of
    theme-function re-wrappings on this instance. *)
Record Instance : Type := {
  text : str;
  paddingX : option Z;
  theme : option MarkdownTheme;
  revisionApplied : option Z;
  unwrapped : bool;
  themePatched : bool;
  themeOriginals : option ThemeOriginals;
  contentWidth : option Z;
  invalidations : nat;
  unwrapRuns : nat;
  themeWraps : nat
}.

Definition set_text (t : str) (i : Instance) : Instance :=
  {| text := t; paddingX := paddingX i; theme := theme i;
     revisionApplied := revisionApplied i; unwrapped := unwrapped i;
     themePatched := themePatched i; themeOriginals := themeOriginals i;
     contentWidth := contentWidth i; invalidations := invalidations i;
     unwrapRuns := unwrapRuns i; themeWraps := themeWraps i |}.

Definition set_theme (t : option MarkdownTheme) (i : Instance) : Instance :=
  {| text := text i; paddingX := paddingX i; theme := t;
     revisionApplied := revisionApplied i; unwrapped := unwrapped i;
     themePatched := themePatched i; themeOriginals := themeOriginals i;
     contentWidth := contentWidth i; invalidations := invalidations i;
     unwrapRuns := unwrapRuns i; themeWraps := themeWraps i |}.

Definition set_revisionApplied (r : option Z) (i : Instance) : Instance :=
  {| text := text i; paddingX := paddingX i; theme := theme i;
     revisionApplied := r; unwrapped := unwrapped i;
     themePatched := themePatched i; themeOriginals := themeOriginals i;
     contentWidth := contentWidth i; invalidations := invalidations i;
     unwrapRuns := unwrapRuns i; themeWraps := themeWraps i |}.

Definition set_unwrapped (b : bool) (i : Instance) : Instance :=
  {| text := text i; paddingX := paddingX i; theme := theme i;
     revisionApplied := revisionApplied i; unwrapped := b;
     themePatched := themePatched i; themeOriginals := themeOriginals i;
     contentWidth := contentWidth i; invalidations := invalidations i;
     unwrapRuns := unwrapRuns i; themeWraps := themeWraps i |}.

Definition set_themePatched (b : bool) (i : Instance) : Instance :=
  {| text := text i; paddingX := paddingX i; theme := theme i;
     revisionApplied := revisionApplied i; unwrapped := unwrapped i;
     themePatched := b; themeOriginals := themeOriginals i;
     contentWidth := contentWidth i; invalidations := invalidations i;
     unwrapRuns := unwrapRuns i; themeWraps := themeWraps i |}.

Definition set_themeOriginals (o : option ThemeOriginals) (i : Instance)
    : Instance :=
  {| text := text i; paddingX := paddingX i; theme := theme i;
     revisionApplied := revisionApplied i; unwrapped := unwrapped i;
     themePatched := themePatched i; themeOriginals := o;
     contentWidth := contentWidth i; invalidations := invalidations i;
     unwrapRuns := unwrapRuns i; themeWraps := themeWraps i |}.

Definition set_contentWidth (w : option Z) (i : Instance) : Instance :=
  {| text := text i; paddingX := paddingX i; theme := theme i;
     revisionApplied := revisionApplied i; unwrapped := unwrapped i;
     themePatched := themePatched i; themeOriginals := themeOriginals i;
     contentWidth := w; invalidations := invalidations i;
     unwrapRuns := unwrapRuns i; themeWraps := themeWraps i |}.

(** [instance.invalidate()] drops the cached render output. *)
Definition invalidate (i : Instance) : Instance :=
  {| text := text i; paddingX := paddingX i; theme := theme i;
     revisionApplied := revisionApplied i; unwrapped := unwrapped i;
     themePatched := themePatched i; themeOriginals := themeOriginals i;
     contentWidth := contentWidth i; invalidations := S (invalidations i);
     unwrapRuns := unwrapRuns i; themeWraps := themeWraps i |}.

Definition count_unwrap (i : Instance) : Instance :=
  {| text := text i; paddingX := paddingX i; theme := theme i;
     revisionApplied := revisionApplied i; unwrapped := unwrapped i;
     themePatched := themePatched i; themeOriginals := themeOriginals i;
     contentWidth := contentWidth i; invalidations := invalidations i;
     unwrapRuns := S (unwrapRuns i); themeWraps := themeWraps i |}.

Definition count_wrap (i : Instance) : Instance :=
  {| text := text i; paddingX := paddingX i; theme := theme i;
     revisionApplied := revisionApplied i; unwrapped := unwrapped i;
     themePatched := themePatched i; themeOriginals := themeOriginals i;
     contentWidth := contentWidth i; invalidations := invalidations i;
     unwrapRuns := unwrapRuns i; themeWraps := S (themeWraps i) |}.

Definition opt_Z_eqb (a : option Z) (b : Z) : bool :=
  match a with
  | Some x => (x =? b)%Z
  | None => false
  end.

(** First block of [patchMarkdownInstance]: a changed revision resets
    the two flags. *)
Definition syncRevision (st : PatchState) (i : Instance) : Instance :=
  if negb (opt_Z_eqb (revisionApplied i) (revision st)) then
    invalidate
      (set_themePatched false
        (set_unwrapped false
          (set_revisionApplied (Some (revision st)) i)))
  else i.

(** Second block: unwrap the outer fence once per instance. *)
Definition unwrapOnce (st : PatchState) (i : Instance) : Instance :=
  if unwrapOuterMarkdownFence (options st) && negb (unwrapped i) then
    let i1 := count_unwrap (set_unwrapped true i) in
    let originalText := text i1 in
    let unwrappedText := stripOuterMarkdownFence originalText in
    if negb (str_eqb unwrappedText originalText) then
      invalidate (set_text unwrappedText i1)
    else i1
  else i.

Definition captureOriginals (th : MarkdownTheme) : ThemeOriginals :=
  {| orig_codeBlock := codeBlock th;
     orig_codeBlockBorder := codeBlockBorder th;
     orig_highlightCode := highlightCode th;
     orig_codeBlockIndent := themeCodeBlockIndent th |}.

Definition withIndent (ind : option str) (th : MarkdownTheme) : MarkdownTheme :=
  {| heading := heading th; bold := bold th; underline := underline th;
     codeBlock := codeBlock th; codeBlockBorder := codeBlockBorder th;
     highlightCode := highlightCode th; themeCodeBlockIndent := ind |}.

(** The theme after its three functions are restored from the originals
    and wrapped again. *)
Definition wrapTheme (o : TuiPatchOptions) (og : ThemeOriginals)
    (th : MarkdownTheme) : MarkdownTheme :=
  {| heading := heading th; bold := bold th; underline := underline th;
     codeBlock := codeBlock_wrapper o (orig_codeBlock og);
     codeBlockBorder :=
       codeBlockBorder_wrapper o (orig_codeBlockBorder og)
         (themeCodeBlockIndent th);
     highlightCode :=
       match orig_highlightCode og with
       | Some h => Some (highlightCode_wrapper o h)
       | None => None
       end;
     themeCodeBlockIndent := themeCodeBlockIndent th |}.

(** Third block: theme patching. *)
Definition patchTheme (st : PatchState) (i : Instance) : Instance :=
  match theme i with
  | None => i
  | Some th =>
      let og :=
        match themeOriginals i with
        | Some og => og
        | None => captureOriginals th
        end in
      let i1 := set_themeOriginals (Some og) i in
      let th1 := withIndent (Some (patchedIndent (options st))) th in
      if themePatched i1 then set_theme (Some th1) i1
      else
        invalidate
          (count_wrap
            (set_theme (Some (wrapTheme (options st) og th1))
              (set_themePatched true i1)))
  end.

Definition patchMarkdownInstance (i : Instance) (st : PatchState) : Instance :=
  if negb (enabled (options st)) then i
  else patchTheme st (unwrapOnce st (syncRevision st i)).

(** [applyTuiMarkdownPatchOnce]: the state change (the prototype methods
    it installs are the [patched_*] functions below). *)
Definition applyTuiMarkdownPatchOnce (st : PatchState) : PatchState :=
  {| revision := js_incr (revision st); options := options st |}.

(** The patched [render] up to its call of the original [render]. *)
Definition patched_render_prepare (st : PatchState) (i : Instance)
    (width : Z) : Instance :=
  let px := match paddingX i with Some p => p | None => 0%Z end in
  let i1 := set_contentWidth (Some (Z.max 1 (width - px * 2))) i in
  patchMarkdownInstance i1 st.

(** The component's own [setText] (not part of this repository): it
    stores the text and drops the render cache. *)
Definition original_setText (i : Instance) (t : str) : Instance :=
  invalidate (set_text t i).

Definition patched_setText (st : PatchState) (i : Instance) (t : str)
    : Instance :=
  let o := options st in
  let nextText :=
    if enabled o && unwrapOuterMarkdownFence o
    then stripOuterMarkdownFence t else t in
  original_setText (set_unwrapped false i) nextText.

(* ================================================================== *)
(** ** Tokens, heading and list-item rendering *)
(* ================================================================== *)

(** A token of the external tokenizer, with the fields the patch reads:
    [type], [depth], [text] and [tokens] (absent fields are [None]). *)
#[warnings="-register-all"] Inductive Token : Type :=
| Tok (type : string) (depth : Z) (ttext : option str)
      (children : option (list Token)).

Definition tok_type (t : Token) : string :=
  match t with Tok ty _ _ _ => ty end.
Definition tok_depth (t : Token) : Z :=
  match t with Tok _ d _ _ => d end.
Definition tok_text (t : Token) : option str :=
  match t with Tok _ _ x _ => x end.
Definition tok_tokens (t : Token) : option (list Token) :=
  match t with Tok _ _ _ c => c end.

(** [x || []] and [x || ""] *)
Definition tokens_or_empty (c : option (list Token)) : list Token :=
  match c with Some l => l | None => [] end.
Definition text_or_empty (x : option str) : str :=
  match x with Some s => s | None => [] end.

Definition opt_string_eqb (a : option string) (b : string) : bool :=
  match a with
  | Some x => String.eqb x b
  | None => false
  end.

Section Rendering.

(** The methods of the component that the patch calls but does not
    define: the inline renderer, the list renderer and the original
    [renderToken] and [renderListItem]. *)
Variable renderInlineTokens : list Token -> str.
Variable renderList : Token -> Z -> list str.
Variable original_renderToken : Token -> Z -> option string -> list str.
Variable original_renderListItem : list Token -> Z -> list str.

Definition heading_indent (headingLevel : Z) : str :=
  repeat_str (lit "  ") (Z.to_nat (Z.max 0 (headingLevel - 3))).

Definition styledHeading (th : MarkdownTheme) (headingLevel : Z)
    (headingText : str) : str :=
  if (headingLevel =? 1)%Z then
    heading th (bold th (underline th headingText))
  else if (headingLevel =? 2)%Z then heading th (bold th headingText)
  else heading th (bold th (heading_indent headingLevel ++ headingText)).

(** The patched [renderToken]. *)
Definition patched_renderToken (o : TuiPatchOptions) (th : MarkdownTheme)
    (token : Token) (width : Z) (nextTokenType : option string) : list str :=
  if negb (enabled o) || negb (stripHeadingPrefixes o)
     || negb (String.eqb (tok_type token) "heading")
  then original_renderToken token width nextTokenType
  else
    let lines : list str := [] in
    let headingLevel := tok_depth token in
    let headingText := renderInlineTokens (tokens_or_empty (tok_tokens token)) in
    let lines := lines ++ [styledHeading th headingLevel headingText] in
    if negb (opt_string_eqb nextTokenType "space") then lines ++ [[]]
    else lines.

(** The [renderToken] method that [renderListItem] calls on the
    instance. *)
Variable this_renderToken : Token -> Z -> option string -> list str.

Definition blockWidthOf (fullWidth parentDepth : Z) : Z :=
  let continuationPrefix := (2 * parentDepth + 2)%Z in
  Z.max 20 (fullWidth - continuationPrefix).

(** One turn of the loop of [renderListItem]: the lines pushed for the
    token at index [i]. *)
Definition listItem_push (tokens : list Token) (parentDepth blockWidth : Z)
    (i : nat) (token : Token) (lines : list str) : list str :=
  let nextType := option_map tok_type (nth_error tokens (i + 1)) in
  if String.eqb (tok_type token) "list" then
    lines ++ renderList token (parentDepth + 1)%Z
  else if String.eqb (tok_type token) "text" then
    let text :=
      match tok_tokens token with
      | Some (c :: cs) => renderInlineTokens (c :: cs)
      | _ => text_or_empty (tok_text token)
      end in
    lines ++ [text]
  else if String.eqb (tok_type token) "paragraph" then
    lines ++ [renderInlineTokens (tokens_or_empty (tok_tokens token))]
  else lines ++ this_renderToken token blockWidth nextType.

(** The [for] loop, with [n] turns left. *)
Fixpoint listItem_loop (tokens : list Token) (parentDepth blockWidth : Z)
    (n i : nat) (lines : list str) : list str :=
  match n with
  | O => lines
  | S n' =>
      match nth_error tokens i with
      | None => lines
      | Some token =>
          listItem_loop tokens parentDepth blockWidth n' (S i)
            (listItem_push tokens parentDepth blockWidth i token lines)
      end
  end.

(** The patched [renderListItem]; [cw] is the content width stored on
    the instance by the patched [render]. *)
Definition patched_renderListItem (o : TuiPatchOptions) (cw : option Z)
    (tokens : list Token) (parentDepth : Z) : list str :=
  if negb (enabled o) then original_renderListItem tokens parentDepth
  else
    let fullWidth := match cw with Some w => w | None => 80%Z end in
    let blockWidth := blockWidthOf fullWidth parentDepth in
    listItem_loop tokens parentDepth blockWidth (length tokens) 0 [].

End Rendering.

(* ================================================================== *)
(** ** Print-mode renderer *)
(* ================================================================== *)

Definition last_is_empty (lines : list str) : bool :=
  match rev lines with
  | [] :: _ => true
  | _ => false
  end.

(** The [while] loop that pops trailing empty lines, with [n] turns
    left. *)
Fixpoint pop_blank (n : nat) (lines : list str) : list str :=
  match n with
  | O => lines
  | S n' =>
      if (0 <? length lines)%nat && last_is_empty lines
      then pop_blank n' (removelast lines)
      else lines
  end.

(** [renderMarkdownToTerminal]; [md_render] stands for building the
    component over the theme and calling its [render]. *)
Definition renderMarkdownToTerminal
    (md_render : str -> Z -> MarkdownTheme -> list str)
    (markdown : str) (width : Z) (th : MarkdownTheme) : str :=
  let lines := List.map trimEnd (md_render markdown width th) in
  let lines := pop_blank (length lines) lines in
  join nl lines.

(* ================================================================== *)
(** ** Configuration values and the live-edit command *)
(* ================================================================== *)

(** A JavaScript number: a finite value, or one of NaN and the two
    infinities (none of which is finite). *)
Inductive JsNumber : Type :=
| Finite (q : Q)
| NotFinite.

Inductive JsValue : Type :=
| VUndefined
| VBoolean (b : bool)
| VNumber (n : JsNumber)
| VString (s : str)
| VObject.

Definition is_digit (c : N) : bool := ((48 <=? c) && (c <=? 57))%N.

(** Value of the longest prefix of decimal digits, and whether there is
    such a digit. *)
Fixpoint digits_value (acc : Z) (seen : bool) (s : str) : Z * bool :=
  match s with
  | c :: s' =>
      if is_digit c
      then digits_value (10 * acc + Z.of_N (c - 48))%Z true s'
      else (acc, seen)
  | [] => (acc, seen)
  end.

(** Magnitudes from this bound on round to an infinity. *)
Definition double_overflow : Z := (2 ^ 1024 - 2 ^ 970)%Z.

(** [Number.parseInt(s, 10)].  A finite result is kept as the exact
    integer read; the rounding to a double of a result above 2^53 is not
    modelled. *)
Definition parseInt10 (s : str) : JsNumber :=
  let s1 := trimStart s in
  let '(neg, s2) :=
    match s1 with
    | c :: s' =>
        if (c =? 45)%N then (true, s')
        else if (c =? 43)%N then (false, s')
        else (false, s1)
    | [] => (false, s1)
    end in
  let '(v, seen) := digits_value 0 false s2 in
  if negb seen then NotFinite
  else if (double_overflow <=? v)%Z then NotFinite
  else Finite (inject_Z (if neg then - v else v)).

(** [Math.trunc] on a finite number. *)
Definition trunc (q : Q) : Z := Z.quot (Qnum q) (Zpos (Qden q)).

Definition toInt (value : JsValue) : option Z :=
  match value with
  | VNumber (Finite q) => Some (trunc q)
  | VNumber NotFinite => None
  | VString s =>
      match parseInt10 s with
      | Finite q => Some (trunc q)
      | NotFinite => None
      end
  | _ => None
  end.

Definition clampIndent (n : Z) : Z := Z.max 0 (Z.min 8 n).

Definition spaces (n : Z) : str := repeat_str (lit " ") (Z.to_nat n).

Definition parseIndentSpaces (value : JsValue) (defaultSpaces : Z) : str :=
  let n := toInt value in
  let sp :=
    match n with
    | None => defaultSpaces
    | Some n => clampIndent n
    end in
  spaces sp.

(** [toLowerCase] on ASCII letters.  The words compared below are ASCII
    and no other code unit lowers to one of their letters. *)
Definition lower (c : N) : N :=
  if ((65 <=? c) && (c <=? 90))%N then (c + 32)%N else c.

Definition toLowerCase (s : str) : str := List.map lower s.

Definition one_of (s : str) (l : list string) : bool :=
  existsb (fun w => str_eqb s (lit w)) l.

Definition parseOnOff (value : JsValue) (defaultValue : bool) : bool :=
  match value with
  | VBoolean b => b
  | VString s =>
      let v := toLowerCase (trim s) in
      if one_of v ["1"; "true"; "on"; "yes"; "y"]%string then true
      else if one_of v ["0"; "false"; "off"; "no"; "n"]%string then false
      else defaultValue
  | _ => defaultValue
  end.

Definition normalizeBgKey (value : JsValue) : option str :=
  match value with
  | VString s =>
      let v := trim s in
      if negb (truthy v) then None
      else
        if one_of (toLowerCase v) ["off"; "none"; "0"; "false"]%string
        then None
        else Some v
  | _ => None
  end.

Definition set_options (o : TuiPatchOptions) (st : PatchState) : PatchState :=
  {| revision := revision st; options := o |}.

Definition with_indent (ind : str) (o : TuiPatchOptions) : TuiPatchOptions :=
  {| enabled := enabled o;
     unwrapOuterMarkdownFence := unwrapOuterMarkdownFence o;
     hideCodeFences := hideCodeFences o;
     showCodeFenceLanguageLabel := showCodeFenceLanguageLabel o;
     stripHeadingPrefixes := stripHeadingPrefixes o;
     codeBlockBgKey := codeBlockBgKey o;
     codeBlockBgAnsi := codeBlockBgAnsi o;
     codeBlockIndent := ind |}.

Definition with_label (b : bool) (o : TuiPatchOptions) : TuiPatchOptions :=
  {| enabled := enabled o;
     unwrapOuterMarkdownFence := unwrapOuterMarkdownFence o;
     hideCodeFences := hideCodeFences o;
     showCodeFenceLanguageLabel := b;
     stripHeadingPrefixes := stripHeadingPrefixes o;
     codeBlockBgKey := codeBlockBgKey o;
     codeBlockBgAnsi := codeBlockBgAnsi o;
     codeBlockIndent := codeBlockIndent o |}.

Definition with_hideFences (b : bool) (o : TuiPatchOptions) : TuiPatchOptions :=
  {| enabled := enabled o;
     unwrapOuterMarkdownFence := unwrapOuterMarkdownFence o;
     hideCodeFences := b;
     showCodeFenceLanguageLabel := showCodeFenceLanguageLabel o;
     stripHeadingPrefixes := stripHeadingPrefixes o;
     codeBlockBgKey := codeBlockBgKey o;
     codeBlockBgAnsi := codeBlockBgAnsi o;
     codeBlockIndent := codeBlockIndent o |}.

Definition with_headings (b : bool) (o : TuiPatchOptions) : TuiPatchOptions :=
  {| enabled := enabled o;
     unwrapOuterMarkdownFence := unwrapOuterMarkdownFence o;
     hideCodeFences := hideCodeFences o;
     showCodeFenceLanguageLabel := showCodeFenceLanguageLabel o;
     stripHeadingPrefixes := b;
     codeBlockBgKey := codeBlockBgKey o;
     codeBlockBgAnsi := codeBlockBgAnsi o;
     codeBlockIndent := codeBlockIndent o |}.

Definition with_unfence (b : bool) (o : TuiPatchOptions) : TuiPatchOptions :=
  {| enabled := enabled o;
     unwrapOuterMarkdownFence := b;
     hideCodeFences := hideCodeFences o;
     showCodeFenceLanguageLabel := showCodeFenceLanguageLabel o;
     stripHeadingPrefixes := stripHeadingPrefixes o;
     codeBlockBgKey := codeBlockBgKey o;
     codeBlockBgAnsi := codeBlockBgAnsi o;
     codeBlockIndent := codeBlockIndent o |}.

Definition with_bg (key ansi : option str) (o : TuiPatchOptions)
    : TuiPatchOptions :=
  {| enabled := enabled o;
     unwrapOuterMarkdownFence := unwrapOuterMarkdownFence o;
     hideCodeFences := hideCodeFences o;
     showCodeFenceLanguageLabel := showCodeFenceLanguageLabel o;
     stripHeadingPrefixes := stripHeadingPrefixes o;
     codeBlockBgKey := key;
     codeBlockBgAnsi := ansi;
     codeBlockIndent := codeBlockIndent o |}.

(** What a run of the command handler leaves behind: the patch state,
    the number of settings snapshots persisted and redraws requested
    (one each per commit), and the levels of the notifications shown. *)
Inductive Level : Type := Info | Warning.

Record Outcome : Type := {
  out_state : PatchState;
  out_commits : nat;
  out_notes : list Level
}.

(** [commit]: bump the revision, persist the settings, refresh the UI. *)
Definition commit (r : Outcome) : Outcome :=
  {| out_state :=
       {| revision := js_incr (revision (out_state r));
          options := options (out_state r) |};
     out_commits := S (out_commits r);
     out_notes := out_notes r |}.

Definition notify (l : Level) (r : Outcome) : Outcome :=
  {| out_state := out_state r;
     out_commits := out_commits r;
     out_notes := out_notes r ++ [l] |}.

Definition update (f : TuiPatchOptions -> TuiPatchOptions) (r : Outcome)
    : Outcome :=
  {| out_state := set_options (f (options (out_state r))) (out_state r);
     out_commits := out_commits r;
     out_notes := out_notes r |}.

(** [args.trim().split(/\s+/).filter(Boolean)]: the maximal runs of
    non-whitespace code units ([cur] is the run being read, reversed). *)
Fixpoint words_from (cur : str) (s : str) : list str :=
  match s with
  | [] => match cur with [] => [] | _ :: _ => [rev cur] end
  | c :: s' =>
      if is_ws c then
        match cur with
        | [] => words_from [] s'
        | _ :: _ => rev cur :: words_from [] s'
        end
      else words_from (c :: cur) s'
  end.

Definition words (s : str) : list str := words_from [] s.

(** [recomputeBgAnsi]; [getBgAnsi] is the theme lookup, [None] when it
    throws. *)
Definition recomputeBgAnsi (getBgAnsi : str -> option str)
    (o : TuiPatchOptions) : TuiPatchOptions :=
  match codeBlockBgKey o with
  | None => with_bg None None o
  | Some k =>
      if negb (truthy k) then with_bg (Some k) None o
      else
        match getBgAnsi k with
        | Some a => with_bg (Some k) (Some a) o
        | None => with_bg None None o
        end
  end.

(** [renderMdCommandHandler].  Opening the settings screen changes
    nothing by itself; each change made there is a [settingsChange]. *)
Definition renderMdCommandHandler (getBgAnsi : str -> option str)
    (hasUI : bool) (args : str) (st : PatchState) : Outcome :=
  let r0 := {| out_state := st; out_commits := 0; out_notes := [] |} in
  if negb hasUI then notify Info r0
  else
    let r := {| out_state := applyTuiMarkdownPatchOnce st;
                out_commits := 0; out_notes := [] |} in
    let parts := words (trim args) in
    let cmd := nth_error parts 0 in
    let value := nth_error parts 1 in
    match cmd with
    | None => r
    | Some cmd =>
        if one_of cmd ["ui"; "menu"]%string then r
        else if one_of cmd ["status"]%string then notify Info r
        else if one_of cmd ["label"]%string then
          match value with
          | None => notify Info r
          | Some v =>
              commit (notify Info
                (update (fun o =>
                   with_label
                     (parseOnOff (VString v) (showCodeFenceLanguageLabel o)) o)
                   r))
          end
        else if one_of cmd ["hide-fences"]%string then
          match value with
          | None => notify Info r
          | Some v =>
              commit (notify Info
                (update (fun o =>
                   with_hideFences (parseOnOff (VString v) (hideCodeFences o)) o)
                   r))
          end
        else if one_of cmd ["bg"]%string then
          match value with
          | None => notify Info r
          | Some v =>
              commit (notify Info
                (update (fun o =>
                   recomputeBgAnsi getBgAnsi
                     (with_bg (normalizeBgKey (VString v)) (codeBlockBgAnsi o) o))
                   r))
          end
        else if one_of cmd ["indent"]%string then
          match value with
          | None => notify Info r
          | Some v =>
              match toInt (VString v) with
              | None => notify Warning r
              | Some n =>
                  let sp := clampIndent n in
                  commit (notify Info (update (with_indent (spaces sp)) r))
              end
          end
        else if one_of cmd ["headings"]%string then
          match value with
          | None => notify Info r
          | Some v =>
              commit (notify Info
                (update (fun o =>
                   with_headings
                     (parseOnOff (VString v) (stripHeadingPrefixes o)) o)
                   r))
          end
        else if one_of cmd ["unfence"]%string then
          match value with
          | None => notify Info r
          | Some v =>
              commit (notify Info
                (update (fun o =>
                   with_unfence
                     (parseOnOff (VString v) (unwrapOuterMarkdownFence o)) o)
                   r))
          end
        else notify Info r
    end.

(** The callback of the settings screen for the item [id]. *)
Definition settingsChange (getBgAnsi : str -> option str)
    (id newValue : str) (st : PatchState) : Outcome :=
  let r := {| out_state := st; out_commits := 0; out_notes := [] |} in
  let on := str_eqb newValue (lit "on") in
  if one_of id ["unfence"]%string then commit (update (with_unfence on) r)
  else if one_of id ["hide-fences"]%string then
    commit (update (with_hideFences on) r)
  else if one_of id ["code-label"]%string then commit (update (with_label on) r)
  else if one_of id ["headings"]%string then commit (update (with_headings on) r)
  else if one_of id ["code-bg"]%string then
    commit (update (fun o =>
      recomputeBgAnsi getBgAnsi
        (with_bg (normalizeBgKey (VString newValue)) (codeBlockBgAnsi o) o)) r)
  else if one_of id ["code-indent"]%string then
    let n := match toInt (VString newValue) with Some n => n | None => 0%Z end in
    commit (update (with_indent (spaces (clampIndent n))) r)
  else r.

(** The [session_start] handler, for the options [o] that it resolves
    from the flags and the persisted settings (that resolution is not
    modelled): the options are stored, and the patch is applied when
    they enable it. *)
Definition sessionStart (o : TuiPatchOptions) (st : PatchState) : PatchState :=
  let st1 := set_options o st in
  if enabled o then applyTuiMarkdownPatchOnce st1 else st1.

(** The events that reach the patch state. *)
Inductive Event : Type :=
| EvSessionStart (o : TuiPatchOptions)
| EvCommand (hasUI : bool) (args : str)
| EvSettingsChange (id newValue : str).

Definition step (getBgAnsi : str -> option str) (e : Event) (st : PatchState)
    : PatchState :=
  match e with
  | EvSessionStart o => sessionStart o st
  | EvCommand hasUI args =>
      out_state (renderMdCommandHandler getBgAnsi hasUI args st)
  | EvSettingsChange id v => out_state (settingsChange getBgAnsi id v st)
  end.

Definition run (getBgAnsi : str -> option str) (es : list Event)
    (st : PatchState) : PatchState :=
  fold_left (fun s e => step getBgAnsi e s) es st.

(* ================================================================== *)
(** ** Notions used to state the properties *)
(* ================================================================== *)

(** Number of leading code units of [s] in the class [c]. *)
Fixpoint span (c : N -> bool) (s : str) : nat :=
  match s with
  | x :: s' => if c x then S (span c s') else O
  | [] => O
  end.

(** [s] without the literal [l] at its front, compared under the [i]
    flag. *)
Fixpoint strip_ci (l s : str) : option str :=
  match l with
  | [] => Some s
  | a :: l' =>
      match s with
      | x :: s' => if ci a x then strip_ci l' s' else None
      | [] => None
      end
  end.

(** The language word at the front of [s]: its length and what follows. *)
Definition strip_lang (s : str) : option (nat * str) :=
  match strip_ci (lit "markdown") s with
  | Some s' => Some (8, s')
  | None =>
      match strip_ci (lit "md") s with
      | Some s' => Some (2, s')
      | None => None
      end
  end.

(** A line break ([\n] or [\r\n]) at the front of [s]. *)
Definition lb_strip (s : str) : option (nat * str) :=
  match s with
  | x :: s1 =>
      if (x =? LF)%N then Some (1, s1)
      else if (x =? CR)%N then
        match s1 with
        | y :: s2 => if (y =? LF)%N then Some (2, s2) else None
        | [] => None
        end
      else None
  | [] => None
  end.

(** [s] is a closing fence: a line break, three backticks, whitespace. *)
Definition closerb (s : str) : bool :=
  match lb_strip s with
  | Some (_, c) =>
      match strip_ci bt3 c with
      | Some w => forallb is_ws w
      | None => false
      end
  | None => false
  end.

Definition all_ws (s : str) : Prop := Forall (fun c => is_ws c = true) s.

Definition ci_equal (a b : str) : Prop :=
  List.map canonicalize a = List.map canonicalize b.

Definition is_lang (w : str) : Prop :=
  ci_equal w (lit "markdown") \/ ci_equal w (lit "md").

Definition is_lb (l : str) : Prop := l = [LF] \/ l = [CR; LF].

(** The outer-fence pattern as the pattern of the source has it: three
    backticks, optional whitespace, the language word, optional
    whitespace, a line break, the inner content, a line break, three
    backticks, optional whitespace. *)
Definition fence_shape (t inner : str) : Prop :=
  exists ws1 lang ws2 lb1 lb2 ws3,
    t = bt3 ++ ws1 ++ lang ++ ws2 ++ lb1 ++ inner ++ lb2 ++ bt3 ++ ws3 /\
    all_ws ws1 /\ is_lang lang /\ all_ws ws2 /\ is_lb lb1 /\ is_lb lb2 /\
    all_ws ws3.

(** The outer-fence pattern as the specification words it: the line
    break follows the language word at once. *)
Definition worded_shape (t inner : str) : Prop :=
  exists ws1 lang lb1 lb2 ws3,
    t = bt3 ++ ws1 ++ lang ++ lb1 ++ inner ++ lb2 ++ bt3 ++ ws3 /\
    all_ws ws1 /\ is_lang lang /\ is_lb lb1 /\ is_lb lb2 /\ all_ws ws3.

(** The part of the pattern after the language word. *)
Definition tail_shape (t2 inner : str) : Prop :=
  exists ws2 lb1 lb2 ws3,
    t2 = ws2 ++ lb1 ++ inner ++ lb2 ++ bt3 ++ ws3 /\
    all_ws ws2 /\ is_lb lb1 /\ is_lb lb2 /\ all_ws ws3.

(** The last code unit of [t], if any, is not whitespace. *)
Definition ends_clean (t : str) : Prop :=
  match rev t with
  | [] => True
  | c :: _ => is_ws c = false
  end.

(** State reached from index [i] of [s] after [j] more code units. *)
Definition after (i : nat) (s : str) (cs : list (nat * str)) (j : nat) : mstate :=
  MState (i + j) (skipn j s) cs.

(** A code unit that is a parameter byte of a control sequence
    ([0] to [9], [:], [;], [<], [=], [>], [?]). *)
Definition is_param (c : N) : bool := ((48 <=? c) && (c <=? 63))%N.

(** [bg] is a Select Graphic Rendition control sequence:
    [ESC], [[], parameter bytes, [m]. *)
Definition sgr (bg : str) : Prop :=
  exists ps,
    bg = ESC :: 91%N :: ps ++ [109%N] /\
    Forall (fun c => is_param c = true) ps.

(** [p] occurs in [s]. *)
Definition occurs (p s : str) : Prop := exists a b, s = a ++ p ++ b.

(** Whether [p] occurs in [s]. *)
Fixpoint occursb (p s : str) : bool :=
  match s with
  | [] => startsWith p []
  | _ :: s' => startsWith p s || occursb p s'
  end.

(** Replacement of a non-empty pattern by a fixed text. *)
Fixpoint rep (pat repl : str) (skip : nat) (s : str) : str :=
  match s with
  | [] => []
  | c :: s' =>
      match skip with
      | S k => rep pat repl k s'
      | O =>
          if startsWith pat s then repl ++ rep pat repl (length pat - 1) s'
          else c :: rep pat repl 0 s'
      end
  end.

(** The rewriting of a line in the words of the specification, as one
    pass from left to right: a full reset is kept and followed by the
    background, a background reset is replaced by the background, every
    other code unit is copied. *)
Fixpoint rewrite_from (bg : str) (skip : nat) (s : str) : str :=
  match s with
  | [] => []
  | c :: s' =>
      match skip with
      | S k => rewrite_from bg k s'
      | O =>
          if startsWith RESET_ALL s then
            RESET_ALL ++ bg ++ rewrite_from bg 3 s'
          else if startsWith RESET_BG s then bg ++ rewrite_from bg 4 s'
          else c :: rewrite_from bg 0 s'
      end
  end.

Definition rewrite_resets (bg s : str) : str := rewrite_from bg 0 s.

(** [Q] holds of every suffix of [s]. *)
Definition every_suffix (Q : str -> Prop) (s : str) : Prop :=
  forall a b, s = a ++ b -> Q b.

(** A full reset at the front of [x] is followed by [bg]. *)
Definition reset_followed (bg x : str) : Prop :=
  startsWith RESET_ALL x = true -> startsWith (RESET_ALL ++ bg) x = true.

(** No background reset at the front of [x]. *)
Definition no_bg_reset (x : str) : Prop := startsWith RESET_BG x = false.

(** An introducer used in examples: [ESC[48;5;236m]. *)
Definition bg236 : str := ESC :: lit "[48;5;236m".

Definition options_bg (bg : str) : TuiPatchOptions :=
  with_bg (Some (lit "toolPendingBg")) (Some bg) defaults.

(** The indent the wrapper reads from the theme. *)
Definition activeIndent (themeIndent : option str) : str :=
  match themeIndent with Some i => i | None => lit "  " end.

(** No literal hash sign. *)
Definition HASH : N := 35%N.
Definition hash_free (s : str) : Prop := ~ In HASH s.
Definition keeps_hash_free (f : str -> str) : Prop :=
  forall x, hash_free x -> hash_free (f x).

(** The lines of a text: none for the empty text, else the pieces
    between line breaks. *)
Fixpoint pieces (s : str) : list str :=
  match s with
  | [] => [[]]
  | c :: s' =>
      if (c =? LF)%N then [] :: pieces s'
      else
        match pieces s' with
        | l :: ls => (c :: l) :: ls
        | [] => [[c]]
        end
  end.

Definition lines_of (s : str) : list str :=
  match s with
  | [] => []
  | _ :: _ => pieces s
  end.

Definition single_line (l : str) : Prop := ~ In LF l.

(** The identity theme of [createPlainMarkdownTheme], with fences
    hidden. *)
Definition plainTheme : MarkdownTheme :=
  {| heading := fun t => t; bold := fun t => t; underline := fun t => t;
     codeBlock := fun t => t;
     codeBlockBorder := fun t => if startsWith bt3 t then [] else t;
     highlightCode := None;
     themeCodeBlockIndent := None |}.

(** A fresh component over [txt]. *)
Definition freshInstance (txt : str) (th : option MarkdownTheme) : Instance :=
  {| text := txt; paddingX := None; theme := th; revisionApplied := None;
     unwrapped := false; themePatched := false; themeOriginals := None;
     contentWidth := None; invalidations := 0; unwrapRuns := 0;
     themeWraps := 0 |}.

(** What a render leaves settled on an instance: the revision is
    applied, the text is unwrapped if unwrapping is on, and the theme, if
    there is one, is patched. *)
Definition settled (st : PatchState) (i : Instance) : Prop :=
  revisionApplied i = Some (revision st) /\
  (unwrapOuterMarkdownFence (options st) = true -> unwrapped i = true) /\
  (theme i <> None -> themePatched i = true).

(** A text wrapped in an outer fence with the language word [lang]. *)
Definition fenced (lang body : str) : str :=
  bt3 ++ lang ++ LF :: body ++ LF :: bt3.

(** [body] does not begin with whitespace. *)
Definition head_clean (body : str) : Prop :=
  match body with
  | [] => True
  | x :: _ => is_ws x = false
  end.

(** [body] does not end with a carriage return. *)
Definition no_final_cr (body : str) : Prop :=
  match rev body with
  | [] => True
  | x :: _ => x <> CR
  end.

(** The lines that one turn of the loop of [renderListItem] adds for the
    token at index [i]. *)
Definition item_lines (renderInlineTokens : list Token -> str)
    (renderList : Token -> Z -> list str)
    (this_renderToken : Token -> Z -> option string -> list str)
    (tokens : list Token) (parentDepth blockWidth : Z) (i : nat) : list str :=
  match nth_error tokens i with
  | Some tok =>
      listItem_push renderInlineTokens renderList this_renderToken tokens
        parentDepth blockWidth i tok []
  | None => []
  end.

(* ================================================================== *)
(** ** The shared patch state across reloads *)
(* ================================================================== *)

(** An [options] object as [getPatchState] may find it on the global
    object: written by an older version of the extension, it may lack
    fields.  A field that is present holds a value of its declared type;
    for the two optional fields that value may be [undefined]. *)
Record PartialOptions : Type := {
  p_enabled : option bool;
  p_unwrapOuterMarkdownFence : option bool;
  p_hideCodeFences : option bool;
  p_showCodeFenceLanguageLabel : option bool;
  p_stripHeadingPrefixes : option bool;
  p_codeBlockBgKey : option (option str);
  p_codeBlockBgAnsi : option (option str);
  p_codeBlockIndent : option str
}.

Definition or_default {A : Type} (x : option A) (d : A) : A :=
  match x with Some v => v | None => d end.

(** [{ ...defaults, ...(existingState.options ?? {}) }] *)
Definition backfillOptions (p : option PartialOptions) : TuiPatchOptions :=
  match p with
  | None => defaults
  | Some p =>
      {| enabled := or_default (p_enabled p) (enabled defaults);
         unwrapOuterMarkdownFence :=
           or_default (p_unwrapOuterMarkdownFence p)
             (unwrapOuterMarkdownFence defaults);
         hideCodeFences :=
           or_default (p_hideCodeFences p) (hideCodeFences defaults);
         showCodeFenceLanguageLabel :=
           or_default (p_showCodeFenceLanguageLabel p)
             (showCodeFenceLanguageLabel defaults);
         stripHeadingPrefixes :=
           or_default (p_stripHeadingPrefixes p) (stripHeadingPrefixes defaults);
         codeBlockBgKey :=
           or_default (p_codeBlockBgKey p) (codeBlockBgKey defaults);
         codeBlockBgAnsi :=
           or_default (p_codeBlockBgAnsi p) (codeBlockBgAnsi defaults);
         codeBlockIndent :=
           or_default (p_codeBlockIndent p) (codeBlockIndent defaults) |}
  end.

(** A complete options object, seen as one that may lack fields. *)
Definition allFields (o : TuiPatchOptions) : PartialOptions :=
  {| p_enabled := Some (enabled o);
     p_unwrapOuterMarkdownFence := Some (unwrapOuterMarkdownFence o);
     p_hideCodeFences := Some (hideCodeFences o);
     p_showCodeFenceLanguageLabel := Some (showCodeFenceLanguageLabel o);
     p_stripHeadingPrefixes := Some (stripHeadingPrefixes o);
     p_codeBlockBgKey := Some (codeBlockBgKey o);
     p_codeBlockBgAnsi := Some (codeBlockBgAnsi o);
     p_codeBlockIndent := Some (codeBlockIndent o) |}.

Section PatchStateStore.

(** The methods found on the prototype of the component (which is not
    part of this repository). *)
Variable Method : Type.

(** The four methods of the prototype that the patch replaces. *)
Record Methods : Type := {
  m_render : Method;
  m_setText : Method;
  m_renderToken : Method;
  m_renderListItem : Method
}.

(** The [originals] object of a stored state; each field may be
    missing. *)
Record StoredOriginals : Type := {
  so_render : option Method;
  so_setText : option Method;
  so_renderToken : option Method;
  so_renderListItem : option Method
}.

(** The state object as it may be found on the global object. *)
Record StoredState : Type := {
  s_revision : option Z;
  s_options : option PartialOptions;
  s_originals : option StoredOriginals
}.

(** The state object that [getPatchState] returns. *)
Record SharedState : Type := {
  sh_state : PatchState;
  sh_originals : Methods
}.

(** What [getPatchState] reads and writes: the two global keys (the
    current one and the one of the package's former name) and the
    prototype.  After a call both keys hold the returned object. *)
Record Global : Type := {
  slot : option StoredState;
  old_slot : option StoredState;
  proto : Methods
}.

Definition backfillOriginals (p : Methods) (o : option StoredOriginals)
    : Methods :=
  match o with
  | None => p
  | Some o =>
      {| m_render := or_default (so_render o) (m_render p);
         m_setText := or_default (so_setText o) (m_setText p);
         m_renderToken := or_default (so_renderToken o) (m_renderToken p);
         m_renderListItem :=
           or_default (so_renderListItem o) (m_renderListItem p) |}
  end.

(** The returned object as the two keys hold it. *)
Definition stored (s : SharedState) : StoredState :=
  {| s_revision := Some (revision (sh_state s));
     s_options := Some (allFields (options (sh_state s)));
     s_originals :=
       Some {| so_render := Some (m_render (sh_originals s));
               so_setText := Some (m_setText (sh_originals s));
               so_renderToken := Some (m_renderToken (sh_originals s));
               so_renderListItem := Some (m_renderListItem (sh_originals s)) |}
  |}.

Definition getPatchState (g : Global) : SharedState * Global :=
  let existingState :=
    match slot g with
    | Some s => Some s
    | None => old_slot g
    end in
  let state :=
    match existingState with
    | Some s =>
        {| sh_state :=
             {| revision := or_default (s_revision s) 0%Z;
                options := backfillOptions (s_options s) |};
           sh_originals := backfillOriginals (proto g) (s_originals s) |}
    | None =>
        {| sh_state := {| revision := 0; options := defaults |};
           sh_originals := proto g |}
    end in
  (state,
   {| slot := Some (stored state); old_slot := Some (stored state);
      proto := proto g |}).

(** The prototype after methods were replaced on it. *)
Definition set_proto (p : Methods) (g : Global) : Global :=
  {| slot := slot g; old_slot := old_slot g; proto := p |}.

End PatchStateStore.

Arguments m_render {Method}.
Arguments m_setText {Method}.
Arguments m_renderToken {Method}.
Arguments m_renderListItem {Method}.
Arguments so_render {Method}.
Arguments so_setText {Method}.
Arguments so_renderToken {Method}.
Arguments so_renderListItem {Method}.
Arguments s_revision {Method}.
Arguments s_options {Method}.
Arguments s_originals {Method}.
Arguments sh_state {Method}.
Arguments sh_originals {Method}.
Arguments slot {Method}.
Arguments old_slot {Method}.
Arguments proto {Method}.
Arguments backfillOriginals {Method}.
Arguments stored {Method}.
Arguments getPatchState {Method}.
Arguments set_proto {Method}.

(* ================================================================== *)
(** ** Command-line mode, messages *)
(* ================================================================== *)

Inductive CliMode : Type := ModeText | ModeJson | ModeRpc.

(** [mode === "text" || mode === "json" || mode === "rpc"] *)
Definition mode_of (mode : str) : option CliMode :=
  if str_eqb mode (lit "text") then Some ModeText
  else if str_eqb mode (lit "json") then Some ModeJson
  else if str_eqb mode (lit "rpc") then Some ModeRpc
  else None.

(** [getCliModeFromArgv]: the recursion is on the arguments from index
    [i] on, so that the head is [argv[i]] and the next one, if there is
    one, [argv[i + 1]]. *)
Fixpoint getCliModeFromArgv (argv : list str) : option CliMode :=
  match argv with
  | [] => None
  | a :: rest =>
      if str_eqb a (lit "--mode") then
        match rest with
        | mode :: _ =>
            match mode_of mode with
            | Some m => Some m
            | None => getCliModeFromArgv rest
            end
        | [] => getCliModeFromArgv rest
        end
      else getCliModeFromArgv rest
  end.

(** A content block of a message: its [type] and, for a text block, its
    [text].  The other fields of a block are neither read nor written. *)
Record Block : Type := {
  btype : string;
  btext : str
}.

Record Message : Type := {
  role : string;
  timestamp : Z;
  content : list Block
}.

Definition is_assistant (m : Message) : bool := String.eqb (role m) "assistant".
Definition is_text (c : Block) : bool := String.eqb (btype c) "text".

(** The loop of [findLastAssistantMessage], with [n = i + 1] for the
    index [i] it is about to read; the result is the index found. *)
Fixpoint findLast_from (messages : list Message) (n : nat) : option nat :=
  match n with
  | O => None
  | S i =>
      match nth_error messages i with
      | Some msg => if is_assistant msg then Some i else findLast_from messages i
      | None => findLast_from messages i
      end
  end.

Definition findLastAssistantIndex (messages : list Message) : option nat :=
  findLast_from messages (length messages).

Definition findLastAssistantMessage (messages : list Message) : option Message :=
  match findLastAssistantIndex messages with
  | Some i => nth_error messages i
  | None => None
  end.

Definition extractAssistantText (msg : Message) : str :=
  join nl (List.map btext (List.filter is_text (content msg))).

Definition hasToolCalls (msg : Message) : bool :=
  existsb (fun c => String.eqb (btype c) "toolCall") (content msg).

(** The loop that overwrites the text of the first text block; the
    boolean tells whether there was one. *)
Fixpoint replaceFirstText (t : str) (blocks : list Block) : list Block * bool :=
  match blocks with
  | [] => ([], false)
  | b :: bs =>
      if is_text b then ({| btype := btype b; btext := t |} :: bs, true)
      else
        let '(bs', replaced) := replaceFirstText t bs in
        (b :: bs', replaced)
  end.

Definition with_content (c : list Block) (m : Message) : Message :=
  {| role := role m; timestamp := timestamp m; content := c |}.

(** The array with the element at index [i] replaced. *)
Fixpoint set_nth {A : Type} (i : nat) (x : A) (l : list A) : list A :=
  match l, i with
  | [], _ => []
  | _ :: l', O => x :: l'
  | y :: l', S i' => y :: set_nth i' x l'
  end.

(** A [Map] from timestamps to texts, in insertion order. *)
Definition TextMap : Type := list (Z * str).

Fixpoint map_get (k : Z) (m : TextMap) : option str :=
  match m with
  | [] => None
  | (k', v) :: m' => if (k' =? k)%Z then Some v else map_get k m'
  end.

Fixpoint map_set (k : Z) (v : str) (m : TextMap) : TextMap :=
  match m with
  | [] => [(k, v)]
  | (k', v') :: m' =>
      if (k' =? k)%Z then (k, v) :: m' else (k', v') :: map_set k v m'
  end.

(* ================================================================== *)
(** ** Print mode: themes and the [agent_end] and [context] handlers *)
(* ================================================================== *)

(** [createPlainMarkdownTheme]; [hide] is [options?.hideCodeFences]. *)
Definition createPlainMarkdownTheme (hide : option bool) : MarkdownTheme :=
  let hideCodeFences := or_default hide true in
  {| heading := fun t => t; bold := fun t => t; underline := fun t => t;
     codeBlock := fun t => t;
     codeBlockBorder :=
       fun t => if hideCodeFences && startsWith bt3 t then [] else t;
     highlightCode := Some (fun code _ => pieces code);
     themeCodeBlockIndent := None |}.

(** [createAnsiMarkdownTheme]; [base] is the theme of the host. *)
Definition createAnsiMarkdownTheme (base : MarkdownTheme) (hide : option bool)
    : MarkdownTheme :=
  let hideCodeFences := or_default hide true in
  {| heading := heading base; bold := bold base; underline := underline base;
     codeBlock := codeBlock base;
     codeBlockBorder :=
       fun t =>
         if hideCodeFences && startsWith bt3 t then []
         else codeBlockBorder base t;
     highlightCode := highlightCode base;
     themeCodeBlockIndent := themeCodeBlockIndent base |}.

(** [v === true] *)
Definition is_true (v : JsValue) : bool :=
  match v with VBoolean true => true | _ => false end.

(** What the [agent_end] handler reads from its surroundings. *)
Record PrintEnv : Type := {
  env_hasUI : bool;
  env_argv : list str;
  flag_commonmark : JsValue;
  flag_no_commonmark : JsValue;
  flag_commonmark_width : JsValue;
  flag_commonmark_style : JsValue;
  stdout_columns : option Z;
  stdout_isTTY : option bool
}.

Definition resolveWidth (env : PrintEnv) : Z :=
  let widthOverride :=
    match flag_commonmark_width env with
    | VString s =>
        if negb (str_eqb s (lit "auto")) then toInt (VString s) else None
    | _ => None
    end in
  Z.max 20
    (match widthOverride with
     | Some w => w
     | None => or_default (stdout_columns env) 80%Z
     end).

Definition wantsAnsi (env : PrintEnv) : bool :=
  let tty := or_default (stdout_isTTY env) false in
  match flag_commonmark_style env with
  | VString s =>
      if str_eqb s (lit "ansi") then true
      else if str_eqb s (lit "plain") then false
      else tty
  | _ => tty
  end.

Definition printTheme (base : MarkdownTheme) (env : PrintEnv) : MarkdownTheme :=
  if wantsAnsi env then createAnsiMarkdownTheme base (Some true)
  else createPlainMarkdownTheme (Some true).

(** The [agent_end] handler, on the messages of the event and the map of
    original texts. *)
Definition agentEnd (md_render : str -> Z -> MarkdownTheme -> list str)
    (base : MarkdownTheme) (env : PrintEnv)
    (messages : list Message) (originals : TextMap)
    : list Message * TextMap :=
  if env_hasUI env then (messages, originals)
  else
    let cliMode := getCliModeFromArgv (env_argv env) in
    match cliMode with
    | Some ModeJson => (messages, originals)
    | Some ModeRpc => (messages, originals)
    | _ =>
        if negb (is_true (flag_commonmark env)) then (messages, originals)
        else if is_true (flag_no_commonmark env) then (messages, originals)
        else
          match findLastAssistantIndex messages with
          | None => (messages, originals)
          | Some i =>
              match nth_error messages i with
              | None => (messages, originals)
              | Some assistant =>
                  if hasToolCalls assistant then (messages, originals)
                  else
                    let original := extractAssistantText assistant in
                    if negb (truthy (trim original)) then (messages, originals)
                    else
                      let width := resolveWidth env in
                      let th := printTheme base env in
                      let rendered :=
                        renderMarkdownToTerminal md_render original width th in
                      let originals' :=
                        map_set (timestamp assistant) original originals in
                      let '(blocks, replaced) :=
                        replaceFirstText rendered (content assistant) in
                      let blocks :=
                        if replaced then blocks
                        else blocks ++ [{| btype := "text"; btext := rendered |}] in
                      (set_nth i (with_content blocks assistant) messages,
                       originals')
              end
          end
    end.

(** One turn of the loop of the [context] handler. *)
Definition restoreMessage (originals : TextMap) (msg : Message) : Message :=
  if negb (is_assistant msg) then msg
  else
    match map_get (timestamp msg) originals with
    | None => msg
    | Some original =>
        if negb (truthy original) then msg
        else with_content (fst (replaceFirstText original (content msg))) msg
    end.

(** The [context] handler: [None] when it returns nothing, else the
    messages it returns. *)
Definition contextHandler (originals : TextMap) (messages : list Message)
    : option (list Message) :=
  if (length originals =? 0)%nat then None
  else Some (List.map (restoreMessage originals) messages).

(* ================================================================== *)
(** ** Persisted settings and the [session_start] handler *)
(* ================================================================== *)

(** The [tui] object of a settings snapshot; an absent field is
    [VUndefined]. *)
Record PersistedTui : Type := {
  pt_unwrapOuterMarkdownFence : JsValue;
  pt_hideCodeFences : JsValue;
  pt_showCodeFenceLanguageLabel : JsValue;
  pt_stripHeadingPrefixes : JsValue;
  pt_codeBlockBgKey : JsValue;
  pt_codeIndentSpaces : JsValue
}.

(** The [data] of a session entry: a falsy value, a truthy value that is
    not an object, or an object, of which only [tui] is read ([None]
    when that is absent or not an object). *)
Inductive EntryData : Type :=
| DFalsy
| DPrimitive
| DRecord (tui : option PersistedTui).

(** An entry of the session branch. *)
Record Entry : Type := {
  entry_type : string;
  customType : string;
  data : EntryData
}.

Definition SETTINGS_ENTRY_TYPE : string := "render-md:settings".
Definition LEGACY_SETTINGS_ENTRY_TYPE : string := "commonmark-renderer:settings".

(** One turn of the loop of [readPersistedSettings]; a [None] entry is a
    falsy element of the branch. *)
Definition readEntry (latest : EntryData) (entry : option Entry) : EntryData :=
  match entry with
  | None => latest
  | Some e =>
      if negb (String.eqb (entry_type e) "custom") then latest
      else if negb (String.eqb (customType e) SETTINGS_ENTRY_TYPE)
              && negb (String.eqb (customType e) LEGACY_SETTINGS_ENTRY_TYPE)
      then latest
      else data e
  end.

(** [readPersistedSettings]: the [tui] field of the object found, if an
    object is found. *)
Definition readPersistedSettings (branch : list (option Entry))
    : option (option PersistedTui) :=
  match fold_left readEntry branch DFalsy with
  | DRecord t => Some t
  | _ => None
  end.

Definition js_number (n : Z) : JsValue := VNumber (Finite (inject_Z n)).

(** The snapshot that [persistTuiSettings] builds. *)
Definition persistedTui (o : TuiPatchOptions) : PersistedTui :=
  {| pt_unwrapOuterMarkdownFence := VBoolean (unwrapOuterMarkdownFence o);
     pt_hideCodeFences := VBoolean (hideCodeFences o);
     pt_showCodeFenceLanguageLabel := VBoolean (showCodeFenceLanguageLabel o);
     pt_stripHeadingPrefixes := VBoolean (stripHeadingPrefixes o);
     pt_codeBlockBgKey :=
       VString (match codeBlockBgKey o with Some k => k | None => lit "off" end);
     pt_codeIndentSpaces := js_number (Z.of_nat (length (codeBlockIndent o))) |}.

(** [persistTuiSettings]: the host appends a custom entry of the given
    type, holding the snapshot, to the session branch. *)
Definition persistTuiSettings (o : TuiPatchOptions) (branch : list (option Entry))
    : list (option Entry) :=
  branch ++
  [Some {| entry_type := "custom"; customType := SETTINGS_ENTRY_TYPE;
           data := DRecord (Some (persistedTui o)) |}].

(** The flags read by the [session_start] handler. *)
Record TuiFlags : Type := {
  flag_tui : JsValue;
  flag_no_tui : JsValue;
  flag_unfence : JsValue;
  flag_hide_fences : JsValue;
  flag_code_label : JsValue;
  flag_strip_heading_prefix : JsValue;
  flag_code_indent : JsValue;
  flag_code_bg : JsValue
}.

(** The base configuration from the flags; the background introducer is
    not touched at this point. *)
Definition flagOptions (flags : TuiFlags) (hasUI : bool) (o : TuiPatchOptions)
    : TuiPatchOptions :=
  let tuiEnabled := is_true (flag_tui flags) && negb (is_true (flag_no_tui flags)) in
  {| enabled := tuiEnabled && hasUI;
     unwrapOuterMarkdownFence := parseOnOff (flag_unfence flags) true;
     hideCodeFences := parseOnOff (flag_hide_fences flags) true;
     showCodeFenceLanguageLabel := parseOnOff (flag_code_label flags) false;
     stripHeadingPrefixes := parseOnOff (flag_strip_heading_prefix flags) true;
     codeBlockBgKey := normalizeBgKey (flag_code_bg flags);
     codeBlockBgAnsi := codeBlockBgAnsi o;
     codeBlockIndent := parseIndentSpaces (flag_code_indent flags) 4 |}.

(** The persisted overrides, field by field. *)
Definition applyPersisted (p : PersistedTui) (o : TuiPatchOptions)
    : TuiPatchOptions :=
  let o :=
    match pt_unwrapOuterMarkdownFence p with
    | VBoolean b => with_unfence b o
    | _ => o
    end in
  let o :=
    match pt_hideCodeFences p with
    | VBoolean b => with_hideFences b o
    | _ => o
    end in
  let o :=
    match pt_showCodeFenceLanguageLabel p with
    | VBoolean b => with_label b o
    | _ => o
    end in
  let o :=
    match pt_stripHeadingPrefixes p with
    | VBoolean b => with_headings b o
    | _ => o
    end in
  let o :=
    match pt_codeBlockBgKey p with
    | VString s => with_bg (normalizeBgKey (VString s)) (codeBlockBgAnsi o) o
    | _ => o
    end in
  match pt_codeIndentSpaces p with
  | VNumber (Finite q) => with_indent (spaces (clampIndent (trunc q))) o
  | _ => o
  end.

(** The derivation of the background introducer at session start;
    [getBgAnsi] is the theme lookup, [None] when it throws. *)
Definition deriveBgAnsi (getBgAnsi : str -> option str) (o : TuiPatchOptions)
    : TuiPatchOptions :=
  let o1 := with_bg (codeBlockBgKey o) None o in
  match codeBlockBgKey o1 with
  | Some k =>
      if enabled o1 && truthy k then
        match getBgAnsi k with
        | Some a => with_bg (Some k) (Some a) o1
        | None => with_bg None None o1
        end
      else o1
  | None => o1
  end.

(** The options that the [session_start] handler resolves. *)
Definition resolveOptions (getBgAnsi : str -> option str) (flags : TuiFlags)
    (hasUI : bool) (branch : list (option Entry)) (o : TuiPatchOptions)
    : TuiPatchOptions :=
  let o1 := flagOptions flags hasUI o in
  let o2 :=
    match readPersistedSettings branch with
    | Some (Some p) => applyPersisted p o1
    | _ => o1
    end in
  deriveBgAnsi getBgAnsi o2.

(** The [session_start] handler. *)
Definition sessionStartHandler (getBgAnsi : str -> option str)
    (flags : TuiFlags) (hasUI : bool) (branch : list (option Entry))
    (st : PatchState) : PatchState :=
  sessionStart (resolveOptions getBgAnsi flags hasUI branch (options st)) st.

(** What reaches the patch state in a session, with the surroundings of
    each handler call.  Every call reads the theme of the UI anew, so
    every action carries the theme lookup of its own call ([None] when
    the lookup throws): the theme may differ from one call to the
    next. *)
Inductive Action : Type :=
| ActSessionStart (getBgAnsi : str -> option str) (flags : TuiFlags)
    (hasUI : bool) (branch : list (option Entry))
| ActCommand (getBgAnsi : str -> option str) (hasUI : bool) (args : str)
| ActSettingsChange (getBgAnsi : str -> option str) (id newValue : str).

(** The theme lookup that an action's handler call reads. *)
Definition lookup_of (a : Action) : str -> option str :=
  match a with
  | ActSessionStart g _ _ _ => g
  | ActCommand g _ _ => g
  | ActSettingsChange g _ _ => g
  end.

Definition perform (a : Action) (st : PatchState) : PatchState :=
  match a with
  | ActSessionStart getBgAnsi flags hasUI branch =>
      sessionStartHandler getBgAnsi flags hasUI branch st
  | ActCommand getBgAnsi hasUI args =>
      out_state (renderMdCommandHandler getBgAnsi hasUI args st)
  | ActSettingsChange getBgAnsi id v =>
      out_state (settingsChange getBgAnsi id v st)
  end.

Definition performAll (acts : list Action) (st : PatchState) : PatchState :=
  fold_left (fun s a => perform a s) acts st.

(* ================================================================== *)
(** ** Further notions used to state the properties *)
(* ================================================================== *)

(** The options a session can hold: the indent is zero to eight spaces,
    the background key is one that [normalizeBgKey] keeps, and the
    background introducer, when set, is what the theme gives for the
    key. *)
Definition indent_ok (o : TuiPatchOptions) : Prop :=
  exists n, (0 <= n <= 8)%Z /\ codeBlockIndent o = spaces n.

Definition key_ok (o : TuiPatchOptions) : Prop :=
  forall k, codeBlockBgKey o = Some k -> normalizeBgKey (VString k) = Some k.

Definition ansi_ok (getBgAnsi : str -> option str) (o : TuiPatchOptions) : Prop :=
  forall a, codeBlockBgAnsi o = Some a ->
    exists k, codeBlockBgKey o = Some k /\ getBgAnsi k = Some a.

(** The background introducer, when set, is what one of the theme
    lookups in [P] gave for the current key. *)
Definition ansi_by (P : (str -> option str) -> Prop) (o : TuiPatchOptions)
    : Prop :=
  forall a, codeBlockBgAnsi o = Some a ->
    exists k g, codeBlockBgKey o = Some k /\ P g /\ g k = Some a.

Definition options_ok (P : (str -> option str) -> Prop) (o : TuiPatchOptions)
    : Prop :=
  indent_ok o /\ key_ok o /\ ansi_by P o.









(** The text blocks of a message. *)
Definition textBlocks (m : Message) : list Block :=
  List.filter is_text (content m).

(** The message at index [i] is the last assistant message. *)
Definition last_assistant_at (messages : list Message) (i : nat) (m : Message)
    : Prop :=
  nth_error messages i = Some m /\ is_assistant m = true /\
  forall j m', i < j -> nth_error messages j = Some m' ->
    is_assistant m' = false.

(** No other assistant message carries the timestamp of the one at
    index [i]. *)
Definition timestamp_unique (messages : list Message) (i : nat) (m : Message)
    : Prop :=
  forall j m', j <> i -> nth_error messages j = Some m' ->
    is_assistant m' = true -> timestamp m' <> timestamp m.

(** The conditions under which the [agent_end] handler acts. *)
Definition print_active (env : PrintEnv) : bool :=
  negb (env_hasUI env) &&
  match getCliModeFromArgv (env_argv env) with
  | Some ModeJson | Some ModeRpc => false
  | _ => true
  end &&
  is_true (flag_commonmark env) && negb (is_true (flag_no_commonmark env)).

(** A print-mode run used in examples: a renderer that gives two lines,
    the second one blank, and a conversation whose last message is an
    assistant reply with one text block. *)
Definition example_render : str -> Z -> MarkdownTheme -> list str :=
  fun _ _ _ => [lit "Hi"; []].

Definition example_env : PrintEnv :=
  {| env_hasUI := false; env_argv := [lit "pi"; lit "-p"];
     flag_commonmark := VBoolean true; flag_no_commonmark := VBoolean false;
     flag_commonmark_width := VString (lit "10");
     flag_commonmark_style := VString (lit "plain");
     stdout_columns := None; stdout_isTTY := None |}.

Definition example_reply : Message :=
  {| role := "assistant"; timestamp := 2;
     content := [{| btype := "thinking"; btext := [] |};
                 {| btype := "text"; btext := lit "# Hi" |}] |}.

Definition example_messages : list Message :=
  [{| role := "user"; timestamp := 1; content := [] |};
   {| role := "assistant"; timestamp := 1;
      content := [{| btype := "text"; btext := lit "old" |}] |};
   example_reply].

(** A settings entry of the session branch, of the current or of the
    former type. *)
Definition settings_entry (entry : option Entry) : bool :=
  match entry with
  | None => false
  | Some e =>
      String.eqb (entry_type e) "custom" &&
      (String.eqb (customType e) SETTINGS_ENTRY_TYPE ||
       String.eqb (customType e) LEGACY_SETTINGS_ENTRY_TYPE)
  end.

(** The changes that a command or the settings screen can make to the
    options: a switch set to a value, the indent set to a clamped
    number of spaces, or the background key set from a text and its
    introducer derived again. *)
Inductive Change : Type :=
| SetUnfence (b : bool)
| SetHideFences (b : bool)
| SetLabel (b : bool)
| SetHeadings (b : bool)
| SetIndent (n : Z)
| SetBg (v : str).

Definition applyChange (getBgAnsi : str -> option str) (c : Change)
    (o : TuiPatchOptions) : TuiPatchOptions :=
  match c with
  | SetUnfence b => with_unfence b o
  | SetHideFences b => with_hideFences b o
  | SetLabel b => with_label b o
  | SetHeadings b => with_headings b o
  | SetIndent n => with_indent (spaces (clampIndent n)) o
  | SetBg v =>
      recomputeBgAnsi getBgAnsi
        (with_bg (normalizeBgKey (VString v)) (codeBlockBgAnsi o) o)
  end.

(** Patch states used in examples: the initial one with the patch
    applied once, and the same after one more revision. *)
Definition example_state1 : PatchState :=
  applyTuiMarkdownPatchOnce initialPatchState.

Definition example_state2 : PatchState :=
  applyTuiMarkdownPatchOnce example_state1.

(** A prototype and a global object used in examples: the method names
    stand for the methods, and the state was stored under the former
    key by a version that knew fewer options. *)
Definition example_proto : Methods string :=
  {| m_render := "render"%string; m_setText := "setText"%string;
     m_renderToken := "renderToken"%string;
     m_renderListItem := "renderListItem"%string |}.

Definition example_global : Global string :=
  {| slot := None;
     old_slot :=
       Some {| s_revision := Some 7%Z;
               s_options :=
                 Some {| p_enabled := Some true;
                         p_unwrapOuterMarkdownFence := Some false;
                         p_hideCodeFences := None;
                         p_showCodeFenceLanguageLabel := None;
                         p_stripHeadingPrefixes := None;
                         p_codeBlockBgKey := Some None;
                         p_codeBlockBgAnsi := None;
                         p_codeBlockIndent := None |};
               s_originals :=
                 Some {| so_render := Some "render"%string;
                         so_setText := None;
                         so_renderToken := None;
                         so_renderListItem := None |} |};
     proto := example_proto |}.

(** The flags at their registered defaults, and the patch state of a
    session started with them and without a UI. *)
Definition default_flags : TuiFlags :=
  {| flag_tui := VBoolean true; flag_no_tui := VBoolean false;
     flag_unfence := VString (lit "on");
     flag_hide_fences := VString (lit "on");
     flag_code_label := VString (lit "off");
     flag_strip_heading_prefix := VString (lit "on");
     flag_code_indent := VString (lit "4");
     flag_code_bg := VString (lit "toolPendingBg") |}.

Definition headless_state : PatchState :=
  sessionStartHandler (fun _ => None) default_flags false [] initialPatchState.

(** The store and the messages that the [agent_end] handler leaves
    behind on [example_messages]. *)
Definition example_store : TextMap := [(2%Z, lit "# Hi")].

Definition example_rendered : list Message :=
  [{| role := "user"; timestamp := 1; content := [] |};
   {| role := "assistant"; timestamp := 1;
      content := [{| btype := "text"; btext := lit "old" |}] |};
   {| role := "assistant"; timestamp := 2;
      content := [{| btype := "thinking"; btext := [] |};
                  {| btype := "text"; btext := lit "Hi" |}] |}].

(* ================================================================== *)
(** * Properties *)
(* ================================================================== *)

(** ** The matcher *)

Lemma exec_from_bol r s : forall i, exec_from (RSeq RBol r) (S i) s = None.
Proof.
  induction s as [|x s IH]; intros i; simpl; auto.
Qed.

Lemma exec_bol r s :
  exec (RSeq RBol r) s = rmatch r (MState 0 s []) (fun st => Some st).
Proof.
  unfold exec. destruct s as [|x s]; simpl.
  - destruct (rmatch r _ _); reflexivity.
  - destruct (rmatch r _ _); [reflexivity|apply exec_from_bol].
Qed.

Lemma rlit_spec l : forall i s cs k,
  rmatch (rlit l) (MState i s cs) k =
  match strip_ci l s with
  | Some s' => k (MState (i + length l) s' cs)
  | None => None
  end.
Proof.
  induction l as [|a l IH]; intros i s cs k; simpl.
  - now rewrite Nat.add_0_r.
  - unfold one; simpl. destruct s as [|x s]; [reflexivity|].
    destruct (ci a x); [|reflexivity].
    rewrite IH. now rewrite Nat.add_succ_r.
Qed.

Lemma skipn_span_lt c : forall s j,
  j < span c s -> exists x s', skipn j s = x :: s' /\ c x = true.
Proof.
  induction s as [|x s IH]; intros j Hj; simpl in *; [lia|].
  destruct (c x) eqn:Hc; [|lia].
  destruct j as [|j]; simpl.
  - eauto.
  - apply IH. lia.
Qed.

Lemma span_le_length c s : span c s <= length s.
Proof.
  induction s as [|x s IH]; simpl; [lia|]. destruct (c x); lia.
Qed.

Lemma span_any s : span any s = length s.
Proof. induction s; simpl; auto. Qed.

Lemma star_greedy_none c k cs : forall s i,
  star_greedy c s i cs k = None ->
  forall j, j <= span c s -> k (after i s cs j) = None.
Proof.
  unfold after.
  induction s as [|x s IH]; intros i H j Hj; simpl in *.
  - assert (j = 0) by lia. subst. now rewrite Nat.add_0_r.
  - destruct (c x) eqn:Hc.
    + destruct (star_greedy c s (S i) cs k) eqn:Hg; [discriminate|].
      destruct j as [|j]; simpl.
      * now rewrite Nat.add_0_r.
      * rewrite Nat.add_succ_r. apply (IH (S i) Hg j). lia.
    + assert (j = 0) by lia. subst. now rewrite Nat.add_0_r.
Qed.

Lemma star_greedy_some c k cs r : forall s i,
  star_greedy c s i cs k = Some r ->
  exists j, j <= span c s /\ k (after i s cs j) = Some r /\
    forall j', j < j' -> j' <= span c s -> k (after i s cs j') = None.
Proof.
  unfold after.
  induction s as [|x s IH]; intros i H; simpl in *.
  - exists 0. rewrite Nat.add_0_r. repeat split; auto. intros; lia.
  - destruct (c x) eqn:Hc.
    + destruct (star_greedy c s (S i) cs k) eqn:Hg.
      * inversion H; subst. destruct (IH (S i) Hg) as (j & Hj & Hk & Hmax).
        exists (S j). rewrite Nat.add_succ_r. simpl.
        repeat split; auto; [lia|].
        intros j' H1 H2. destruct j' as [|j']; [lia|].
        rewrite Nat.add_succ_r. simpl. apply Hmax; lia.
      * exists 0. rewrite Nat.add_0_r. simpl. repeat split; auto; [lia|].
        intros j' H1 H2. destruct j' as [|j']; [lia|].
        rewrite Nat.add_succ_r. simpl.
        apply (star_greedy_none c k cs s (S i) Hg j'). lia.
    + exists 0. rewrite Nat.add_0_r. simpl. repeat split; auto. intros; lia.
Qed.

Lemma star_greedy_last c k cs : forall s i,
  (forall j, j < span c s -> k (after i s cs j) = None) ->
  star_greedy c s i cs k = k (after i s cs (span c s)).
Proof.
  intros s i H.
  destruct (star_greedy c s i cs k) eqn:Hg.
  - destruct (star_greedy_some _ _ _ _ _ _ Hg) as (j & Hj & Hk & _).
    destruct (Nat.eq_dec j (span c s)) as [->|Hne]; [now rewrite Hk|].
    rewrite H in Hk by lia. discriminate.
  - symmetry. apply (star_greedy_none _ _ _ _ _ Hg). lia.
Qed.

Lemma star_lazy_none c k cs : forall s i,
  star_lazy c s i cs k = None ->
  forall j, j <= span c s -> k (after i s cs j) = None.
Proof.
  unfold after.
  induction s as [|x s IH]; intros i H j Hj; simpl in *.
  - assert (j = 0) by lia. subst. rewrite Nat.add_0_r. simpl.
    destruct (k (MState i [] cs)); [discriminate|reflexivity].
  - destruct (k (MState i (x :: s) cs)) eqn:Hk; [discriminate|].
    destruct j as [|j]; simpl; [now rewrite Nat.add_0_r|].
    destruct (c x) eqn:Hc; [|lia].
    rewrite Nat.add_succ_r. apply (IH (S i) H j). lia.
Qed.

Lemma star_lazy_some c k cs r : forall s i,
  star_lazy c s i cs k = Some r ->
  exists j, j <= span c s /\ k (after i s cs j) = Some r /\
    forall j', j' < j -> k (after i s cs j') = None.
Proof.
  unfold after.
  induction s as [|x s IH]; intros i H; simpl in *.
  - destruct (k (MState i [] cs)) eqn:Hk; [|discriminate].
    exists 0. rewrite Nat.add_0_r. simpl. split; [lia|]. split.
    + now rewrite Hk.
    + intros; lia.
  - destruct (k (MState i (x :: s) cs)) eqn:Hk.
    + exists 0. rewrite Nat.add_0_r. simpl. split; [lia|]. split.
      * now rewrite Hk.
      * intros; lia.
    + destruct (c x) eqn:Hc; [|discriminate].
      destruct (IH (S i) H) as (j & Hj & Hkj & Hmin).
      exists (S j). rewrite Nat.add_succ_r. simpl.
      split; [lia|]. split; [exact Hkj|].
      intros j' Hlt. destruct j' as [|j']; simpl.
      * now rewrite Nat.add_0_r.
      * rewrite Nat.add_succ_r. apply Hmin. lia.
Qed.

(** ** Code units: whitespace and case folding *)

Lemma ci_nonletter a x :
  (a < 65)%N \/ (90 < a < 97)%N ->
  ci a x = (x =? a)%N.
Proof.
  intros Ha. unfold ci, canonicalize.
  destruct ((97 <=? a) && (a <=? 122))%N eqn:Ea.
  - apply andb_true_iff in Ea. destruct Ea as [E1 E2].
    apply N.leb_le in E1, E2. lia.
  - destruct ((97 <=? x) && (x <=? 122))%N eqn:Ex.
    + apply andb_true_iff in Ex. destruct Ex as [E1 E2].
      apply N.leb_le in E1, E2.
      destruct (N.eqb_spec (x - 32) a), (N.eqb_spec x a); try reflexivity; lia.
    + reflexivity.
Qed.

Lemma ci_CR x : ci CR x = (x =? CR)%N.
Proof. apply ci_nonletter. unfold CR. lia. Qed.

Lemma ci_LF x : ci LF x = (x =? LF)%N.
Proof. apply ci_nonletter. unfold LF. lia. Qed.

Lemma ci_BT x : ci BT x = (x =? BT)%N.
Proof. apply ci_nonletter. unfold BT. lia. Qed.

Lemma ws_range x : is_ws x = true -> (x < 65 \/ 122 < x)%N.
Proof.
  unfold is_ws. intros H.
  rewrite ?orb_true_iff, ?andb_true_iff, ?N.eqb_eq, ?N.leb_le in H. lia.
Qed.

Lemma ci_letter_not_ws a x :
  (97 <= a <= 122)%N -> is_ws x = true -> ci a x = false.
Proof.
  intros Ha Hx. apply ws_range in Hx. unfold ci, canonicalize.
  destruct ((97 <=? a) && (a <=? 122))%N eqn:Ea.
  - destruct ((97 <=? x) && (x <=? 122))%N eqn:Ex.
    + apply andb_true_iff in Ex. destruct Ex as [E1 E2].
      apply N.leb_le in E1, E2. lia.
    + apply N.eqb_neq. lia.
  - apply andb_false_iff in Ea.
    destruct Ea as [E|E]; apply N.leb_gt in E; lia.
Qed.

Lemma ci_refl_equal a x : ci a x = true <-> canonicalize x = canonicalize a.
Proof. unfold ci. apply N.eqb_eq. Qed.

(** ** Literals *)

Lemma strip_ci_app l : forall w r,
  ci_equal w l -> strip_ci l (w ++ r) = Some r.
Proof.
  unfold ci_equal.
  induction l as [|a l IH]; intros w r H; destruct w as [|x w];
    simpl in *; try discriminate; auto.
  inversion H as [[H1 H2]].
  assert (E : ci a x = true) by (apply ci_refl_equal; exact H1).
  rewrite E. now apply IH.
Qed.

Lemma strip_ci_inv l : forall s r,
  strip_ci l s = Some r ->
  exists w, s = w ++ r /\ ci_equal w l /\ length w = length l.
Proof.
  unfold ci_equal.
  induction l as [|a l IH]; intros s r H; simpl in *.
  - inversion H; subst. exists []. auto.
  - destruct s as [|x s]; [discriminate|].
    destruct (ci a x) eqn:E; [|discriminate].
    destruct (IH _ _ H) as (w & -> & Hw & Hl).
    exists (x :: w). simpl. apply ci_refl_equal in E.
    rewrite E, Hw, Hl. auto.
Qed.

Lemma strip_ci_bt3 c w : strip_ci bt3 c = Some w <-> c = bt3 ++ w.
Proof.
  unfold bt3. simpl. split.
  - destruct c as [|x1 [|x2 [|x3 c]]]; try discriminate;
      rewrite ?ci_BT;
      repeat match goal with
      | |- context [(?x =? BT)%N] => destruct (N.eqb_spec x BT); try discriminate
      end; try discriminate.
    intros H; inversion H; subst. reflexivity.
  - intros ->. rewrite !ci_BT, !N.eqb_refl. reflexivity.
Qed.

Lemma strip_lang_ws x s : is_ws x = true -> strip_lang (x :: s) = None.
Proof.
  intros H. unfold strip_lang. simpl.
  rewrite (ci_letter_not_ws 109 x) by (auto; lia). reflexivity.
Qed.

Lemma is_lang_length w : is_lang w -> length w = 8 \/ length w = 2.
Proof.
  intros [H|H]; unfold ci_equal in H;
    apply (f_equal (@length N)) in H; rewrite !length_map in H; simpl in H; auto.
Qed.

Lemma strip_lang_iff s n r :
  strip_lang s = Some (n, r) <->
  exists w, is_lang w /\ s = w ++ r /\ n = length w.
Proof.
  unfold strip_lang. split.
  - destruct (strip_ci (lit "markdown") s) as [s'|] eqn:E1.
    + intros H; inversion H; subst.
      destruct (strip_ci_inv _ _ _ E1) as (w & -> & Hw & Hl).
      exists w. split; [left; exact Hw|]. split; auto.
    + destruct (strip_ci (lit "md") s) as [s'|] eqn:E2; [|discriminate].
      intros H; inversion H; subst.
      destruct (strip_ci_inv _ _ _ E2) as (w & -> & Hw & Hl).
      exists w. split; [right; exact Hw|]. split; auto.
  - intros (w & [Hw|Hw] & -> & ->).
    + rewrite (strip_ci_app _ w r Hw).
      apply (f_equal (@length N)) in Hw. rewrite !length_map in Hw.
      rewrite Hw. reflexivity.
    + assert (E : strip_ci (lit "markdown") (w ++ r) = None).
      { unfold ci_equal in Hw.
        destruct w as [|a [|b [|c w]]]; simpl in Hw; try discriminate.
        inversion Hw as [[Ha Hb]]. simpl.
        destruct (ci _ a); [|reflexivity].
        assert (Eb : ci 97 b = false).
        { unfold ci. rewrite Hb. reflexivity. }
        change (N_of_ascii "a") with 97%N. rewrite Eb. reflexivity. }
      rewrite E, (strip_ci_app _ w r Hw).
      apply (f_equal (@length N)) in Hw. rewrite !length_map in Hw.
      rewrite Hw. reflexivity.
Qed.

(** ** The stages of the fence pattern *)

Lemma lb_stage R i s cs k :
  rmatch (RSeq (ROpt (ci CR)) (RSeq (RChar (ci LF)) R)) (MState i s cs) k =
  match lb_strip s with
  | Some (n, c) => rmatch R (MState (i + n) c cs) k
  | None => None
  end.
Proof.
  simpl. unfold one; simpl. destruct s as [|x s]; [reflexivity|].
  rewrite ci_CR, ci_LF. unfold lb_strip.
  destruct (N.eqb_spec x LF) as [->|Hx].
  - change (LF =? CR)%N with false. now rewrite Nat.add_1_r.
  - destruct (N.eqb_spec x CR) as [->|Hc]; [|reflexivity].
    simpl. destruct s as [|y s2]; [reflexivity|].
    rewrite ci_LF. destruct (N.eqb_spec y LF) as [->|Hy]; [|reflexivity].
    replace (i + 2) with (S (S i)) by lia.
    destruct (rmatch R _ k); reflexivity.
Qed.

Lemma lb_strip_iff s n c :
  lb_strip s = Some (n, c) <->
  exists lb, is_lb lb /\ s = lb ++ c /\ n = length lb.
Proof.
  unfold lb_strip, is_lb. split.
  - destruct s as [|x s]; [discriminate|].
    destruct (N.eqb_spec x LF) as [->|Hx].
    + intros H; inversion H; subst. exists [LF]. auto.
    + destruct (N.eqb_spec x CR) as [->|Hc]; [|discriminate].
      destruct s as [|y s2]; [discriminate|].
      destruct (N.eqb_spec y LF) as [->|Hy]; [|discriminate].
      intros H; inversion H; subst. exists [CR; LF]. auto.
  - intros (lb & [->| ->] & -> & ->); reflexivity.
Qed.

Lemma lb_strip_skipn t j n c :
  lb_strip (skipn j t) = Some (n, c) ->
  c = skipn (j + n) t /\ 1 <= n <= 2 /\ j + n + length c = length t.
Proof.
  intros H. apply lb_strip_iff in H. destruct H as (lb & Hlb & Hs & ->).
  assert (Hlen : length (skipn j t) = length lb + length c)
    by (rewrite Hs; apply length_app).
  rewrite length_skipn in Hlen.
  assert (Hn : 1 <= length lb <= 2) by (destruct Hlb as [->| ->]; simpl; lia).
  split; [|lia].
  rewrite Nat.add_comm, <- skipn_skipn, Hs.
  rewrite skipn_app, Nat.sub_diag, skipn_all. reflexivity.
Qed.

Lemma star_eol w : forall i cs,
  option_map caps
    (star_greedy is_ws w i cs (fun st => rmatch REol st (fun st' => Some st')))
  = if forallb is_ws w then Some cs else None.
Proof.
  induction w as [|x w IH]; intros i cs; simpl; [reflexivity|].
  destruct (is_ws x); simpl; [|reflexivity].
  specialize (IH (S i) cs).
  destruct (star_greedy is_ws w (S i) cs _); simpl in *.
  - rewrite <- IH. reflexivity.
  - exact IH.
Qed.

Lemma closer_spec i s cs :
  option_map caps (rmatch fence_closer (MState i s cs) (fun st => Some st))
  = if closerb s then Some cs else None.
Proof.
  unfold fence_closer. rewrite lb_stage. unfold closerb.
  destruct (lb_strip s) as [[n c]|]; [|reflexivity].
  change (rmatch (RSeq (rlit bt3) (RSeq (RStar is_ws) REol))
            (MState (i + n) c cs) (fun st => Some st))
    with (rmatch (rlit bt3) (MState (i + n) c cs)
            (fun st' => rmatch (RSeq (RStar is_ws) REol) st' (fun st => Some st))).
  rewrite rlit_spec.
  destruct (strip_ci bt3 c) as [w|]; [|reflexivity].
  simpl. apply star_eol.
Qed.

Lemma closerb_iff x :
  closerb x = true <->
  exists lb2 ws3, x = lb2 ++ bt3 ++ ws3 /\ is_lb lb2 /\ all_ws ws3.
Proof.
  unfold closerb, all_ws. split.
  - destruct (lb_strip x) as [[n c]|] eqn:E; [|discriminate].
    apply lb_strip_iff in E. destruct E as (lb & Hlb & -> & _).
    destruct (strip_ci bt3 c) as [w|] eqn:E2; [|discriminate].
    apply strip_ci_bt3 in E2. subst c. intros H.
    exists lb, w. repeat split; auto.
    apply Forall_forall. rewrite forallb_forall in H. exact H.
  - intros (lb & w & -> & Hlb & Hw).
    assert (E : lb_strip (lb ++ bt3 ++ w) = Some (length lb, bt3 ++ w)).
    { apply lb_strip_iff. exists lb. auto. }
    rewrite E.
    assert (E2 : strip_ci bt3 (bt3 ++ w) = Some w) by now apply strip_ci_bt3.
    rewrite E2. apply forallb_forall. now apply Forall_forall.
Qed.

(** The body group is lazy: it stops at the first closing fence. *)
Lemma body_some i c cs r :
  rmatch fence_body (MState i c cs) (fun st => Some st) = Some r ->
  exists j, j <= length c /\ closerb (skipn j c) = true /\
    caps r = (2, firstn j c) :: cs /\
    forall j', j' < j -> closerb (skipn j' c) = false.
Proof.
  unfold fence_body. simpl. intros H.
  apply star_lazy_some in H. destruct H as (j & Hj & Hk & Hmin).
  rewrite span_any in Hj. exists j. split; [exact Hj|].
  unfold after in *. simpl in *.
  assert (Hc := closer_spec (i + j) (skipn j c)
                  ((2, firstn (i + j - i) c) :: cs)).
  unfold fence_closer in Hc. simpl in Hc. rewrite Hk in Hc. simpl in Hc.
  replace (i + j - i) with j in Hc by lia.
  destruct (closerb (skipn j c)) eqn:E; [|discriminate].
  split; [reflexivity|]. split; [now inversion Hc|].
  intros j' Hlt. specialize (Hmin j' Hlt). simpl in Hmin.
  assert (Hc' := closer_spec (i + j') (skipn j' c)
                  ((2, firstn (i + j' - i) c) :: cs)).
  unfold fence_closer in Hc'. simpl in Hc'. rewrite Hmin in Hc'. simpl in Hc'.
  destruct (closerb (skipn j' c)); [discriminate|reflexivity].
Qed.

Lemma body_none i c cs :
  rmatch fence_body (MState i c cs) (fun st => Some st) = None ->
  forall j, j <= length c -> closerb (skipn j c) = false.
Proof.
  unfold fence_body. simpl. intros H j Hj.
  assert (Hk := star_lazy_none _ _ _ _ _ H j).
  rewrite span_any in Hk. specialize (Hk Hj). unfold after in Hk. simpl in Hk.
  assert (Hc := closer_spec (i + j) (skipn j c)
                  ((2, firstn (i + j - i) c) :: cs)).
  unfold fence_closer in Hc. simpl in Hc. rewrite Hk in Hc. simpl in Hc.
  destruct (closerb (skipn j c)); [discriminate|reflexivity].
Qed.

Lemma after_lang_unfold i t2 cs :
  rmatch fence_after_lang (MState i t2 cs) (fun st => Some st) =
  star_greedy is_ws t2 i cs
    (fun st' =>
       rmatch (RSeq (ROpt (ci CR)) (RSeq (RChar (ci LF)) fence_body)) st'
         (fun st => Some st)).
Proof. reflexivity. Qed.

(** The whitespace after the language word is greedy: the last line
    break of the run that lets the rest match is the one taken. *)
Lemma tail_some i t2 cs r :
  rmatch fence_after_lang (MState i t2 cs) (fun st => Some st) = Some r ->
  exists j n c j3,
    j <= span is_ws t2 /\ lb_strip (skipn j t2) = Some (n, c) /\
    j3 <= length c /\ closerb (skipn j3 c) = true /\
    caps r = (2, firstn j3 c) :: cs /\
    (forall j', j' < j3 -> closerb (skipn j' c) = false) /\
    (forall j' n' c' j3', j < j' -> j' <= span is_ws t2 ->
       lb_strip (skipn j' t2) = Some (n', c') -> j3' <= length c' ->
       closerb (skipn j3' c') = false).
Proof.
  rewrite after_lang_unfold. intros H.
  apply star_greedy_some in H. destruct H as (j & Hj & Hk & Hmax).
  unfold after in Hk. rewrite lb_stage in Hk.
  destruct (lb_strip (skipn j t2)) as [[n c]|] eqn:E; [|discriminate].
  destruct (body_some _ _ _ _ Hk) as (j3 & H3 & Hc & Hcaps & Hmin).
  exists j, n, c, j3. repeat split; auto.
  intros j' n' c' j3' H1 H2 E' H3'.
  specialize (Hmax j' H1 H2). unfold after in Hmax.
  rewrite lb_stage, E' in Hmax.
  exact (body_none _ _ _ Hmax j3' H3').
Qed.

Lemma tail_none i t2 cs :
  rmatch fence_after_lang (MState i t2 cs) (fun st => Some st) = None ->
  forall j n c j3, j <= span is_ws t2 ->
    lb_strip (skipn j t2) = Some (n, c) -> j3 <= length c ->
    closerb (skipn j3 c) = false.
Proof.
  rewrite after_lang_unfold. intros H j n c j3 Hj E H3.
  assert (Hk := star_greedy_none _ _ _ _ _ H j Hj). unfold after in Hk.
  rewrite lb_stage, E in Hk.
  exact (body_none _ _ _ Hk j3 H3).
Qed.

Lemma group_alt_unfold n a b R st k :
  rmatch (RSeq (RGroup n (RAlt a b)) R) st k =
  let K := fun st' =>
    rmatch R (MState (idx st') (rest st')
                ((n, firstn (idx st' - idx st) (rest st)) :: caps st')) k in
  match rmatch a st K with
  | Some r => Some r
  | None => rmatch b st K
  end.
Proof. reflexivity. Qed.

Lemma strip_markdown_not_md s s0 :
  strip_ci (lit "markdown") s = Some s0 -> strip_ci (lit "md") s = None.
Proof.
  destruct s as [|a [|b s]]; simpl; try discriminate.
  - destruct (ci _ a); discriminate.
  - destruct (ci _ a); [|discriminate].
    change (N_of_ascii "a") with 97%N. change (N_of_ascii "d") with 100%N.
    destruct (ci 97 b) eqn:E; [|discriminate]. intros _.
    apply ci_refl_equal in E. unfold ci. rewrite E. reflexivity.
Qed.

Lemma lang_stage R i s cs k :
  rmatch (RSeq (RGroup 1 (RAlt (rlit (lit "markdown")) (rlit (lit "md")))) R)
    (MState i s cs) k =
  match strip_lang s with
  | Some (n, s') => rmatch R (MState (i + n) s' ((1, firstn n s) :: cs)) k
  | None => None
  end.
Proof.
  rewrite group_alt_unfold. cbv zeta. rewrite !rlit_spec. unfold strip_lang.
  destruct (strip_ci (lit "markdown") s) as [s0|] eqn:E1.
  - rewrite (strip_markdown_not_md _ _ E1). simpl idx. simpl rest. simpl caps.
    change (length (lit "markdown")) with 8.
    replace (i + 8 - i) with 8 by lia.
    destruct (rmatch R _ k); reflexivity.
  - destruct (strip_ci (lit "md") s) as [s0|] eqn:E2; [|reflexivity].
    simpl idx. simpl rest. simpl caps.
    change (length (lit "md")) with 2.
    replace (i + 2 - i) with 2 by lia. reflexivity.
Qed.

(** The whole pattern, stage by stage. *)
Lemma exec_fence t :
  exec fence_re t =
  match strip_ci bt3 t with
  | None => None
  | Some t1 =>
      let s := skipn (span is_ws t1) t1 in
      match strip_lang s with
      | None => None
      | Some (n, t2) =>
          rmatch fence_after_lang
            (MState (0 + 3 + span is_ws t1 + n) t2 [(1, firstn n s)])
            (fun st => Some st)
      end
  end.
Proof.
  unfold fence_re. rewrite exec_bol.
  change (rmatch (RSeq (rlit bt3) ?R) ?st ?k)
    with (rmatch (rlit bt3) st (fun st' => rmatch R st' k)).
  rewrite rlit_spec. destruct (strip_ci bt3 t) as [t1|]; [|reflexivity].
  change (length bt3) with 3.
  change (rmatch (RSeq (RStar is_ws) ?R) (MState ?i ?s ?cs) ?k)
    with (star_greedy is_ws s i cs (fun st' => rmatch R st' k)).
  rewrite star_greedy_last.
  - unfold after. rewrite lang_stage. reflexivity.
  - intros j Hj. unfold after. rewrite lang_stage.
    destruct (skipn_span_lt _ _ _ Hj) as (x & s' & -> & Hx).
    now rewrite strip_lang_ws.
Qed.

(** ** From positions to the shape of the text and back *)

Lemma span_app_ws w r : all_ws w -> length w <= span is_ws (w ++ r).
Proof.
  unfold all_ws. induction 1 as [|x w Hx Hw IH]; simpl; [lia|].
  rewrite Hx. lia.
Qed.

Lemma span_app_exact w x r :
  all_ws w -> is_ws x = false -> span is_ws (w ++ x :: r) = length w.
Proof.
  unfold all_ws. induction 1 as [|y w Hy Hw IH]; intros Hx; simpl.
  - now rewrite Hx.
  - rewrite Hy. now rewrite IH.
Qed.

Lemma firstn_span c : forall s j,
  j <= span c s -> Forall (fun x => c x = true) (firstn j s).
Proof.
  induction s as [|x s IH]; intros j Hj; simpl in *.
  - rewrite firstn_nil. constructor.
  - destruct j as [|j]; simpl; [constructor|].
    destruct (c x) eqn:Hc; [|lia].
    constructor; auto. apply IH. lia.
Qed.

Lemma is_lang_head w : is_lang w -> exists x w', w = x :: w' /\ is_ws x = false.
Proof.
  intros H.
  assert (Hm : exists x w', w = x :: w' /\ ci 109 x = true).
  { destruct H as [H|H]; unfold ci_equal in H;
      (destruct w as [|x w']; [discriminate|]);
      simpl in H; inversion H as [[Hx Hr]];
      exists x, w'; split; auto; now apply ci_refl_equal. }
  destruct Hm as (x & w' & -> & Hx). exists x, w'. split; auto.
  destruct (is_ws x) eqn:E; auto.
  rewrite (ci_letter_not_ws 109 x) in Hx by (auto; lia). discriminate.
Qed.

Lemma header_iff t inner :
  fence_shape t inner <->
  exists t1 n t2,
    strip_ci bt3 t = Some t1 /\
    strip_lang (skipn (span is_ws t1) t1) = Some (n, t2) /\
    tail_shape t2 inner.
Proof.
  split.
  - intros (ws1 & lang & ws2 & lb1 & lb2 & ws3 & -> & H1 & Hl & H2 & Hb1 & Hb2 & H3).
    set (t2 := ws2 ++ lb1 ++ inner ++ lb2 ++ bt3 ++ ws3).
    exists (ws1 ++ lang ++ t2), (length lang), t2. split; [|split].
    + now apply strip_ci_bt3.
    + destruct (is_lang_head _ Hl) as (x & w' & E & Hx).
      assert (Hs : span is_ws (ws1 ++ lang ++ t2) = length ws1).
      { rewrite E. simpl. now apply span_app_exact. }
      rewrite Hs, skipn_app, Nat.sub_diag, skipn_all. simpl.
      apply strip_lang_iff. exists lang. auto.
    + exists ws2, lb1, lb2, ws3. auto.
  - intros (t1 & n & t2 & E1 & E2 & (ws2 & lb1 & lb2 & ws3 & -> & H2 & Hb1 & Hb2 & H3)).
    apply strip_ci_bt3 in E1. apply strip_lang_iff in E2.
    destruct E2 as (lang & Hl & Hs & _).
    exists (firstn (span is_ws t1) t1), lang, ws2, lb1, lb2, ws3.
    repeat split; auto.
    + rewrite E1. f_equal.
      rewrite <- (firstn_skipn (span is_ws t1) t1) at 1. now rewrite Hs.
    + apply firstn_span. lia.
Qed.

Lemma tail_shape_iff t2 inner :
  tail_shape t2 inner <->
  exists j n c j3,
    j <= span is_ws t2 /\ lb_strip (skipn j t2) = Some (n, c) /\
    j3 <= length c /\ closerb (skipn j3 c) = true /\ inner = firstn j3 c.
Proof.
  split.
  - intros (ws2 & lb1 & lb2 & ws3 & -> & H2 & Hb1 & Hb2 & H3).
    set (c := inner ++ lb2 ++ bt3 ++ ws3).
    exists (length ws2), (length lb1), c, (length inner).
    split; [now apply span_app_ws|]. split; [|split; [|split]].
    + rewrite skipn_app, Nat.sub_diag, skipn_all. simpl.
      apply lb_strip_iff. exists lb1. auto.
    + unfold c. rewrite length_app. lia.
    + unfold c. rewrite skipn_app, Nat.sub_diag, skipn_all. simpl.
      apply closerb_iff. exists lb2, ws3. auto.
    + unfold c. rewrite firstn_app, Nat.sub_diag, firstn_all. simpl.
      now rewrite app_nil_r.
  - intros (j & n & c & j3 & Hj & E & H3 & Hc & ->).
    apply lb_strip_iff in E. destruct E as (lb1 & Hb1 & Hs & _).
    apply closerb_iff in Hc. destruct Hc as (lb2 & ws3 & Hx & Hb2 & Hw3).
    exists (firstn j t2), lb1, lb2, ws3. repeat split; auto.
    + rewrite <- Hx, firstn_skipn, <- Hs, firstn_skipn. reflexivity.
    + now apply firstn_span.
Qed.

(** ** Trimmed text *)

Lemma trimStart_head s :
  match trimStart s with [] => True | c :: _ => is_ws c = false end.
Proof.
  induction s as [|x s IH]; simpl; auto.
  destruct (is_ws x) eqn:E; auto.
Qed.

Lemma trimEnd_ends_clean s : ends_clean (trimEnd s).
Proof.
  unfold ends_clean, trimEnd. rewrite rev_involutive. apply trimStart_head.
Qed.

Lemma trim_ends_clean s : ends_clean (trim s).
Proof. apply trimEnd_ends_clean. Qed.

Lemma ends_clean_suffix a b : ends_clean (a ++ b) -> ends_clean b.
Proof.
  unfold ends_clean. rewrite rev_app_distr.
  destruct (rev b) as [|x rb]; simpl; auto.
Qed.

Lemma ends_clean_ws w : ends_clean w -> all_ws w -> w = [].
Proof.
  unfold ends_clean, all_ws. intros H Hw.
  destruct (rev w) as [|x rw] eqn:E.
  - apply (f_equal (@rev N)) in E. now rewrite rev_involutive in E.
  - assert (Hin : In x w) by (apply in_rev; rewrite E; now left).
    rewrite Forall_forall in Hw. rewrite (Hw x Hin) in H. discriminate.
Qed.

Lemma closer_len t pre x :
  ends_clean t -> t = pre ++ x -> closerb x = true ->
  length x = 4 \/ length x = 5.
Proof.
  intros Ht -> Hx. apply closerb_iff in Hx.
  destruct Hx as (lb & ws3 & -> & Hlb & Hw).
  assert (E : ws3 = []).
  { apply ends_clean_ws; auto.
    apply (ends_clean_suffix (pre ++ lb ++ bt3)).
    now rewrite <- !app_assoc. }
  subst ws3. destruct Hlb as [->| ->]; simpl; auto.
Qed.

(** The match found has the shortest inner content of all ways to read
    the text after the language word as whitespace, line break, content
    and closing fence. *)
Lemma tail_min t2 j n c j3 jD nD cD j3D :
  ends_clean t2 ->
  lb_strip (skipn j t2) = Some (n, c) ->
  j3 <= length c -> closerb (skipn j3 c) = true ->
  (forall j', j' < j3 -> closerb (skipn j' c) = false) ->
  (forall j' n' c' j3', j < j' -> j' <= span is_ws t2 ->
     lb_strip (skipn j' t2) = Some (n', c') -> j3' <= length c' ->
     closerb (skipn j3' c') = false) ->
  jD <= span is_ws t2 ->
  lb_strip (skipn jD t2) = Some (nD, cD) ->
  j3D <= length cD -> closerb (skipn j3D cD) = true ->
  j3 <= j3D.
Proof.
  intros Hclean R1 R2 R3 R4 R5 D1 D2 D3 D4.
  assert (HjD : jD <= j).
  { destruct (le_lt_dec jD j) as [|Hlt]; auto.
    rewrite (R5 jD nD cD j3D Hlt D1 D2 D3) in D4. discriminate. }
  destruct (lb_strip_skipn _ _ _ _ R1) as (Ec & Hn & HL).
  destruct (lb_strip_skipn _ _ _ _ D2) as (EcD & HnD & HLD).
  assert (Ha : length (skipn j3 c) = 4 \/ length (skipn j3 c) = 5).
  { apply (closer_len t2 (firstn (j + n) t2 ++ firstn j3 c)); auto.
    rewrite <- app_assoc, firstn_skipn, Ec, firstn_skipn. reflexivity. }
  assert (Hb : length (skipn j3D cD) = 4 \/ length (skipn j3D cD) = 5).
  { apply (closer_len t2 (firstn (jD + nD) t2 ++ firstn j3D cD)); auto.
    rewrite <- app_assoc, firstn_skipn, EcD, firstn_skipn. reflexivity. }
  rewrite length_skipn in Ha, Hb.
  destruct (Nat.eq_dec (jD + nD) (j + n)) as [Heq|Hne].
  - assert (Hcc : cD = c) by (rewrite Ec, EcD, Heq; reflexivity).
    destruct (le_lt_dec j3 j3D) as [|Hlt]; auto.
    rewrite Hcc, (R4 j3D Hlt) in D4. discriminate.
  - destruct (Nat.eq_dec jD j) as [->|Hj].
    + rewrite R1 in D2. inversion D2; subst. lia.
    + lia.
Qed.

Lemma worded_header t inner :
  worded_shape t inner ->
  exists t1 n t2,
    strip_ci bt3 t = Some t1 /\
    strip_lang (skipn (span is_ws t1) t1) = Some (n, t2) /\
    exists m c, lb_strip t2 = Some (m, c).
Proof.
  intros (ws1 & lang & lb1 & lb2 & ws3 & -> & H1 & Hl & Hb1 & Hb2 & H3).
  set (t2 := lb1 ++ inner ++ lb2 ++ bt3 ++ ws3).
  exists (ws1 ++ lang ++ t2), (length lang), t2. split; [|split].
  - now apply strip_ci_bt3.
  - destruct (is_lang_head _ Hl) as (x & w' & E & Hx).
    assert (Hs : span is_ws (ws1 ++ lang ++ t2) = length ws1).
    { rewrite E. simpl. now apply span_app_exact. }
    rewrite Hs, skipn_app, Nat.sub_diag, skipn_all. simpl.
    apply strip_lang_iff. exists lang. auto.
  - exists (length lb1), (inner ++ lb2 ++ bt3 ++ ws3).
    apply lb_strip_iff. exists lb1. auto.
Qed.

(** The result of the unwrapper, by cases: a match, found at the
    greedy position [j] of the header whitespace and the lazy position
    [j3] of the closing fence, or no match at all. *)
Lemma strip_analysis text :
  (exists t1 n t2 j m c j3,
     strip_ci bt3 (trim text) = Some t1 /\
     strip_lang (skipn (span is_ws t1) t1) = Some (n, t2) /\
     ends_clean t2 /\
     j <= span is_ws t2 /\ lb_strip (skipn j t2) = Some (m, c) /\
     j3 <= length c /\ closerb (skipn j3 c) = true /\
     (forall j', j' < j3 -> closerb (skipn j' c) = false) /\
     (forall j' n' c' j3', j < j' -> j' <= span is_ws t2 ->
        lb_strip (skipn j' t2) = Some (n', c') -> j3' <= length c' ->
        closerb (skipn j3' c') = false) /\
     stripOuterMarkdownFence text = firstn j3 c) \/
  ((forall inner, ~ fence_shape (trim text) inner) /\
   stripOuterMarkdownFence text = text).
Proof.
  unfold stripOuterMarkdownFence. cbv zeta.
  assert (Hclean := trim_ends_clean text).
  set (t := trim text) in *.
  rewrite exec_fence.
  destruct (strip_ci bt3 t) as [t1|] eqn:E1.
  2:{ right. split; [|reflexivity].
      intros inner H. apply header_iff in H.
      destruct H as (t1 & n & t2 & E & _). congruence. }
  cbv zeta.
  destruct (strip_lang (skipn (span is_ws t1) t1)) as [[n t2]|] eqn:E2.
  2:{ right. split; [|reflexivity].
      intros inner H. apply header_iff in H.
      destruct H as (t1' & n & t2 & E & E' & _). congruence. }
  assert (Hclean2 : ends_clean t2).
  { apply strip_ci_bt3 in E1. apply strip_lang_iff in E2.
    destruct E2 as (w & _ & Hs & _).
    apply (ends_clean_suffix (bt3 ++ firstn (span is_ws t1) t1 ++ w)).
    rewrite <- !app_assoc, <- Hs, firstn_skipn, <- E1. exact Hclean. }
  destruct (rmatch fence_after_lang _ _) as [r|] eqn:Er.
  - destruct (tail_some _ _ _ _ Er)
      as (j & m & c & j3 & Hj & Elb & H3 & Hc & Hcaps & Hmin & Hmax).
    left. exists t1, n, t2, j, m, c, j3.
    rewrite Hcaps. simpl capture. repeat split; auto.
  - right. split; [|reflexivity].
    intros inner H.
    apply header_iff in H. destruct H as (t1' & n' & t2' & F1 & F2 & Ht).
    assert (t1' = t1) by congruence. subst t1'.
    assert (t2' = t2) by congruence. subst t2'.
    apply tail_shape_iff in Ht.
    destruct Ht as (jD & nD & cD & j3D & D1 & D2 & D3 & D4 & _).
    rewrite (tail_none _ _ _ Er jD nD cD j3D D1 D2 D3) in D4. discriminate.
Qed.

Lemma matched_shape t t1 n t2 j m c j3 :
  strip_ci bt3 t = Some t1 ->
  strip_lang (skipn (span is_ws t1) t1) = Some (n, t2) ->
  j <= span is_ws t2 -> lb_strip (skipn j t2) = Some (m, c) ->
  j3 <= length c -> closerb (skipn j3 c) = true ->
  fence_shape t (firstn j3 c).
Proof.
  intros E1 E2 Hj Elb H3 Hc.
  apply header_iff. exists t1, n, t2. repeat split; auto.
  apply tail_shape_iff. exists j, m, c, j3. auto.
Qed.

(** ** C1: the fence unwrapper *)

(** C1 (as amended).  Let [t] be the trimmed input.  If [t] can be read
    as three backticks, optional whitespace, [markdown] or [md] in any
    letter case, optional whitespace, a line break, an inner content, a
    line break, three backticks and optional whitespace, then
    [stripOuterMarkdownFence] returns such an inner content, and the
    shortest one; if [t] cannot be read that way, the input is returned
    unchanged. *)
Theorem stripOuterMarkdownFence_spec (text : str) :
  (forall inner, fence_shape (trim text) inner ->
     fence_shape (trim text) (stripOuterMarkdownFence text) /\
     length (stripOuterMarkdownFence text) <= length inner) /\
  ((forall inner, ~ fence_shape (trim text) inner) ->
     stripOuterMarkdownFence text = text).
Proof.
  destruct (strip_analysis text)
    as [(t1 & n & t2 & j & m & c & j3 & E1 & E2 & Hclean & Hj & Elb & H3 &
         Hc & Hmin & Hmax & ->)|(Hno & ->)].
  - assert (Hshape := matched_shape _ _ _ _ _ _ _ _ E1 E2 Hj Elb H3 Hc).
    split.
    + intros inner H. split; [exact Hshape|].
      apply header_iff in H. destruct H as (t1' & n' & t2' & F1 & F2 & Ht).
      assert (t1' = t1) by congruence. subst t1'.
      assert (t2' = t2) by congruence. subst t2'.
      apply tail_shape_iff in Ht.
      destruct Ht as (jD & nD & cD & j3D & D1 & D2 & D3 & D4 & ->).
      rewrite !length_firstn, !Nat.min_l by lia.
      exact (tail_min t2 j m c j3 jD nD cD j3D
               Hclean Elb H3 Hc Hmin Hmax D1 D2 D3 D4).
    + intros Hno. exfalso. exact (Hno _ Hshape).
  - split; [|reflexivity].
    intros inner H. exfalso. exact (Hno _ H).
Qed.

Lemma stripOuterMarkdownFence_spec_witness :
  (fence_shape (trim (lit "```md " ++ nl ++ lit "x" ++ nl ++ bt3)) (lit "x") /\
   length (stripOuterMarkdownFence (lit "```md " ++ nl ++ lit "x" ++ nl ++ bt3))
     <= length (lit "x")) /\
  ((forall inner, ~ fence_shape (trim (lit "plain text")) inner) /\
   stripOuterMarkdownFence (lit "plain text") = lit "plain text").
Proof.
  assert (H1 : fence_shape (trim (lit "```md " ++ nl ++ lit "x" ++ nl ++ bt3))
                 (lit "x")).
  { exists [], (lit "md"), (lit " "), [LF], [LF], [].
    repeat split; try reflexivity.
    - constructor.
    - right. reflexivity.
    - repeat constructor.
    - left. reflexivity.
    - left. reflexivity.
    - constructor. }
  assert (H2 : forall inner, ~ fence_shape (trim (lit "plain text")) inner).
  { intros inner H. apply header_iff in H.
    destruct H as (t1 & n & t2 & E & _). vm_compute in E. discriminate. }
  split.
  - split; [exact H1|].
    exact (proj2 (proj1 (stripOuterMarkdownFence_spec _) _ H1)).
  - split; [exact H2|].
    exact (proj2 (stripOuterMarkdownFence_spec _) H2).
Defined.

(** C1 as worded fails: with a space between the language word and the
    line break the text does not have the worded shape, and it is
    unwrapped all the same. *)
Lemma stripOuterMarkdownFence_worded_counterexample :
  (forall inner,
     ~ worded_shape (trim (lit "```md " ++ nl ++ lit "x" ++ nl ++ bt3)) inner) /\
  stripOuterMarkdownFence (lit "```md " ++ nl ++ lit "x" ++ nl ++ bt3)
    <> lit "```md " ++ nl ++ lit "x" ++ nl ++ bt3.
Proof.
  split.
  - intros inner H. apply worded_header in H.
    destruct H as (t1 & n & t2 & E1 & E2 & m & c & E3).
    vm_compute in E1. inversion E1; subst t1.
    vm_compute in E2. inversion E2; subst n t2.
    vm_compute in E3. discriminate.
  - vm_compute. discriminate.
Qed.

Example strip_simple :
  stripOuterMarkdownFence (lit "```markdown" ++ nl ++ lit "# Title" ++ nl ++ bt3)
  = lit "# Title".
Proof. reflexivity. Qed.

Example strip_trailing_space_after_lang :
  stripOuterMarkdownFence (lit "```md " ++ nl ++ lit "x" ++ nl ++ bt3) = lit "x".
Proof. reflexivity. Qed.

Example strip_no_body_line :
  stripOuterMarkdownFence (lit "```md" ++ nl ++ bt3) = lit "```md" ++ nl ++ bt3.
Proof. reflexivity. Qed.

Example strip_empty_body :
  stripOuterMarkdownFence (lit "```md" ++ nl ++ nl ++ bt3) = [].
Proof. reflexivity. Qed.

Example strip_blank_lines_and_cr :
  stripOuterMarkdownFence
    (lit "  ```MarkDown" ++ nl ++ nl ++ nl ++ lit "foo" ++ [CR; LF] ++ bt3 ++ lit "  " ++ nl)
  = lit "foo".
Proof. reflexivity. Qed.

Example strip_not_entire :
  stripOuterMarkdownFence (lit "x```md" ++ nl ++ lit "foo" ++ nl ++ bt3)
  = lit "x```md" ++ nl ++ lit "foo" ++ nl ++ bt3.
Proof. reflexivity. Qed.

Example strip_once :
  stripOuterMarkdownFence
    (lit "```markdown" ++ nl ++ lit "```md" ++ nl ++ lit "hi" ++ nl ++ bt3 ++ nl ++ bt3)
  = lit "```md" ++ nl ++ lit "hi" ++ nl ++ bt3.
Proof. reflexivity. Qed.

(** ** String replacement *)

Lemma startsWith_iff p : forall s,
  startsWith p s = true <-> exists r, s = p ++ r.
Proof.
  induction p as [|a p IH]; intros s; simpl.
  - split; eauto.
  - destruct s as [|b s].
    + split; [discriminate|]. intros (r & H). discriminate.
    + rewrite andb_true_iff, N.eqb_eq, IH. split.
      * intros (-> & r & ->). eauto.
      * intros (r & H). inversion H; subst. eauto.
Qed.

Lemma startsWith_cons a p c s :
  startsWith (a :: p) (c :: s) = ((a =? c)%N && startsWith p s).
Proof. reflexivity. Qed.

Lemma startsWith_app p r : startsWith p (p ++ r) = true.
Proof. apply startsWith_iff. eauto. Qed.

Lemma getSubstitution_plain m b a repl :
  Forall (fun c => c <> DOLLAR) repl -> getSubstitution m b a repl = repl.
Proof.
  induction 1 as [|c r Hc Hr IH]; simpl; [reflexivity|].
  destruct (N.eqb_spec c DOLLAR); [contradiction|]. now rewrite IH.
Qed.

Lemma replaceAll_from_plain pat repl :
  pat <> [] -> Forall (fun c => c <> DOLLAR) repl ->
  forall s before skip,
    replaceAll_from pat repl before skip s = rep pat repl skip s.
Proof.
  intros Hp Hr. induction s as [|c s IH]; intros before skip; simpl.
  - destruct pat; [contradiction|reflexivity].
  - destruct skip as [|k]; [|apply IH].
    destruct (startsWith pat (c :: s)).
    + rewrite getSubstitution_plain by exact Hr.
      destruct pat; [contradiction|]. now rewrite IH.
    + now rewrite IH.
Qed.

Lemma replaceAll_plain pat repl s :
  pat <> [] -> Forall (fun c => c <> DOLLAR) repl ->
  replaceAll pat repl s = rep pat repl 0 s.
Proof. intros. unfold replaceAll. now apply replaceAll_from_plain. Qed.

Lemma rep_skip pat repl : forall s k,
  rep pat repl k s = rep pat repl 0 (skipn k s).
Proof.
  induction s as [|c s IH]; intros k; destruct k as [|k]; simpl; auto.
Qed.

Lemma rewrite_from_skip bg : forall s k,
  rewrite_from bg k s = rewrite_from bg 0 (skipn k s).
Proof.
  induction s as [|c s IH]; intros k; destruct k as [|k]; simpl; auto.
Qed.

Lemma rep_match pat repl r :
  pat <> [] ->
  rep pat repl 0 (pat ++ r) = repl ++ rep pat repl 0 r.
Proof.
  intros Hp. destruct pat as [|a p]; [contradiction|].
  change ((a :: p) ++ r) with (a :: (p ++ r)).
  cbn [rep]. change (a :: p ++ r) with ((a :: p) ++ r).
  rewrite startsWith_app. f_equal.
  rewrite rep_skip.
  replace (length (a :: p) - 1) with (length p) by (simpl; lia).
  now rewrite skipn_app, Nat.sub_diag, skipn_all.
Qed.

Lemma rep_nomatch pat repl c s :
  startsWith pat (c :: s) = false ->
  rep pat repl 0 (c :: s) = c :: rep pat repl 0 s.
Proof. intros H. cbn [rep]. now rewrite H. Qed.

(** *** Patterns that begin with the only [ESC] they contain *)

Section EscLed.

Variable ptl : str.
Variable repl : str.

Lemma rep_other c s :
  c <> ESC -> rep (ESC :: ptl) repl 0 (c :: s) = c :: rep (ESC :: ptl) repl 0 s.
Proof.
  intros Hc. apply rep_nomatch. rewrite startsWith_cons.
  destruct (N.eqb_spec ESC c); [congruence|reflexivity].
Qed.

Lemma rep_others w s :
  Forall (fun c => c <> ESC) w ->
  rep (ESC :: ptl) repl 0 (w ++ s) = w ++ rep (ESC :: ptl) repl 0 s.
Proof.
  induction 1 as [|c w Hc Hw IH]; [reflexivity|].
  change ((c :: w) ++ s) with (c :: (w ++ s)).
  rewrite rep_other by exact Hc. now rewrite IH.
Qed.

(** Text without [ESC] at the front of the output was at the front of
    the input. *)
Lemma rep_front w : forall s,
  Forall (fun c => c <> ESC) w ->
  (exists r, repl = ESC :: r) ->
  startsWith w (rep (ESC :: ptl) repl 0 s) = true -> startsWith w s = true.
Proof.
  intros s Hw (r & Hr). revert s.
  induction Hw as [|a w Ha Hw IH]; intros s H; [reflexivity|].
  destruct s as [|c s]; [simpl in H; discriminate|].
  cbn [rep] in H. destruct (startsWith (ESC :: ptl) (c :: s)).
  - rewrite Hr in H. cbn [app] in H. rewrite startsWith_cons in H.
    destruct (N.eqb_spec a ESC); [contradiction|discriminate].
  - rewrite startsWith_cons in *. apply andb_true_iff in H.
    destruct H as [H1 H2]. rewrite H1. cbn [andb]. now apply IH.
Qed.

End EscLed.

(** *** The two reset sequences and the background introducer *)

Lemma RESET_ALL_eq : RESET_ALL = ESC :: [91; 48; 109]%N.
Proof. reflexivity. Qed.

Lemma RESET_BG_eq : RESET_BG = ESC :: [91; 52; 57; 109]%N.
Proof. reflexivity. Qed.

Lemma reset_all_tail : Forall (fun c => c <> ESC) [91; 48; 109]%N.
Proof. repeat constructor; discriminate. Qed.

Lemma reset_bg_tail : Forall (fun c => c <> ESC) [91; 52; 57; 109]%N.
Proof. repeat constructor; discriminate. Qed.

Lemma param_facts c :
  is_param c = true -> c <> ESC /\ c <> DOLLAR /\ c <> 109%N.
Proof.
  unfold is_param, ESC, DOLLAR. rewrite andb_true_iff, !N.leb_le. lia.
Qed.

Lemma sgr_tail bg :
  sgr bg -> exists w, bg = ESC :: w /\ Forall (fun c => c <> ESC) w.
Proof.
  intros (ps & -> & Hps). exists (91%N :: ps ++ [109%N]). split; auto.
  constructor; [discriminate|]. apply Forall_app. split.
  - eapply Forall_impl; [|exact Hps]. intros c Hc. now apply param_facts.
  - repeat constructor. discriminate.
Qed.

Lemma sgr_no_dollar bg : sgr bg -> Forall (fun c => c <> DOLLAR) bg.
Proof.
  intros (ps & -> & Hps). constructor; [discriminate|].
  constructor; [discriminate|]. apply Forall_app. split.
  - eapply Forall_impl; [|exact Hps]. intros c Hc. now apply param_facts.
  - repeat constructor. discriminate.
Qed.

Lemma sgr_starts_reset_all bg y :
  sgr bg -> startsWith RESET_ALL (bg ++ y) = true -> bg = RESET_ALL.
Proof.
  intros (ps & -> & Hps) H. apply startsWith_iff in H. destruct H as (r & H).
  rewrite RESET_ALL_eq in *. unfold ESC in *.
  destruct ps as [|a [|b ps]]; simpl in H; inversion H; subst.
  - reflexivity.
  - inversion Hps as [|? ? _ Hb]; subst. inversion Hb as [|? ? Hc _]; subst.
    apply param_facts in Hc. destruct Hc as (_ & _ & Hc). congruence.
Qed.

Lemma sgr_starts_reset_bg bg y :
  sgr bg -> startsWith RESET_BG (bg ++ y) = true -> bg = RESET_BG.
Proof.
  intros (ps & -> & Hps) H. apply startsWith_iff in H. destruct H as (r & H).
  rewrite RESET_BG_eq in *. unfold ESC in *.
  destruct ps as [|a [|b [|c ps]]]; simpl in H; inversion H; subst.
  - reflexivity.
  - inversion Hps as [|? ? _ Hb]; subst. inversion Hb as [|? ? _ Hc]; subst.
    inversion Hc as [|? ? Hd _]; subst.
    apply param_facts in Hd. destruct Hd as (_ & _ & Hd). congruence.
Qed.

Lemma rep_bg_over_all repl z :
  rep RESET_BG repl 0 (RESET_ALL ++ z) = RESET_ALL ++ rep RESET_BG repl 0 z.
Proof.
  rewrite RESET_ALL_eq, RESET_BG_eq.
  change ((ESC :: [91; 48; 109]%N) ++ z) with (ESC :: ([91; 48; 109]%N ++ z)).
  rewrite rep_nomatch by reflexivity.
  rewrite (rep_others _ repl _ _ reset_all_tail). reflexivity.
Qed.

Lemma rep_all_over_bg repl z :
  rep RESET_ALL repl 0 (RESET_BG ++ z) = RESET_BG ++ rep RESET_ALL repl 0 z.
Proof.
  rewrite RESET_ALL_eq, RESET_BG_eq.
  change ((ESC :: [91; 52; 57; 109]%N) ++ z)
    with (ESC :: ([91; 52; 57; 109]%N ++ z)).
  rewrite rep_nomatch by reflexivity.
  rewrite (rep_others _ repl _ _ reset_bg_tail). reflexivity.
Qed.

Lemma rep_bg_over_sgr bg z :
  sgr bg -> rep RESET_BG bg 0 (bg ++ z) = bg ++ rep RESET_BG bg 0 z.
Proof.
  intros Hs. destruct (startsWith RESET_BG (bg ++ z)) eqn:E.
  - apply sgr_starts_reset_bg in E; [|exact Hs]. rewrite E at 2.
    rewrite rep_match by discriminate. reflexivity.
  - destruct (sgr_tail _ Hs) as (w & -> & Hw).
    change ((ESC :: w) ++ z) with (ESC :: (w ++ z)) in *.
    rewrite rep_nomatch by exact E. rewrite RESET_BG_eq.
    rewrite (rep_others _ _ _ _ Hw). reflexivity.
Qed.

Lemma rewrite_all bg r :
  rewrite_from bg 0 (RESET_ALL ++ r) = RESET_ALL ++ bg ++ rewrite_from bg 0 r.
Proof.
  rewrite RESET_ALL_eq.
  change ((ESC :: [91; 48; 109]%N) ++ r) with (ESC :: 91%N :: 48%N :: 109%N :: r).
  reflexivity.
Qed.

Lemma rewrite_bg bg r :
  rewrite_from bg 0 (RESET_BG ++ r) = bg ++ rewrite_from bg 0 r.
Proof.
  rewrite RESET_BG_eq.
  change ((ESC :: [91; 52; 57; 109]%N) ++ r)
    with (ESC :: 91%N :: 52%N :: 57%N :: 109%N :: r).
  reflexivity.
Qed.

Lemma rewrite_other bg c s :
  startsWith RESET_ALL (c :: s) = false ->
  startsWith RESET_BG (c :: s) = false ->
  rewrite_from bg 0 (c :: s) = c :: rewrite_from bg 0 s.
Proof. intros H1 H2. cbn [rewrite_from]. now rewrite H1, H2. Qed.

(** Induction along the cases of the one-pass rewriting. *)
Lemma rewrite_cases (P : str -> Prop) :
  P [] ->
  (forall r, P r -> P (RESET_ALL ++ r)) ->
  (forall r, P r -> P (RESET_BG ++ r)) ->
  (forall c s, startsWith RESET_ALL (c :: s) = false ->
     startsWith RESET_BG (c :: s) = false -> P s -> P (c :: s)) ->
  forall s, P s.
Proof.
  intros Hnil Hall Hbg Hother.
  assert (H : forall n s, length s <= n -> P s).
  { induction n as [|n IH]; intros s Hlen.
    - destruct s; [exact Hnil|simpl in Hlen; lia].
    - destruct s as [|c s]; [exact Hnil|].
      destruct (startsWith RESET_ALL (c :: s)) eqn:E1.
      + apply startsWith_iff in E1. destruct E1 as (r & Er).
        rewrite Er in *.
        apply Hall, IH. rewrite length_app in Hlen. simpl in Hlen. lia.
      + destruct (startsWith RESET_BG (c :: s)) eqn:E2.
        * apply startsWith_iff in E2. destruct E2 as (r & Er).
          rewrite Er in *.
          apply Hbg, IH. rewrite length_app in Hlen. simpl in Hlen. lia.
        * apply Hother; auto. apply IH. simpl in Hlen. lia. }
  intros s. apply (H (length s)). lia.
Qed.

(** The two replacements of the source amount to the one pass of the
    specification. *)
Lemma fusion bg :
  sgr bg ->
  forall s,
    rep RESET_BG bg 0 (rep RESET_ALL (RESET_ALL ++ bg) 0 s) = rewrite_from bg 0 s.
Proof.
  intros Hs. apply rewrite_cases.
  - reflexivity.
  - intros r IH.
    rewrite rep_match by discriminate.
    rewrite <- app_assoc, rep_bg_over_all, rep_bg_over_sgr by exact Hs.
    rewrite IH, rewrite_all. reflexivity.
  - intros r IH.
    rewrite rep_all_over_bg, rep_match by discriminate.
    rewrite IH, rewrite_bg. reflexivity.
  - intros c s E1 E2 IH.
    rewrite rep_nomatch by exact E1.
    rewrite rewrite_other by assumption.
    rewrite rep_nomatch; [now rewrite IH|].
    destruct (startsWith RESET_BG (c :: rep RESET_ALL (RESET_ALL ++ bg) 0 s))
      eqn:E; [|reflexivity].
    rewrite RESET_BG_eq in E, E2. rewrite startsWith_cons in E, E2.
    apply andb_true_iff in E. destruct E as [Ec E].
    rewrite Ec in E2. cbn [andb] in E2.
    rewrite RESET_ALL_eq in E.
    apply (rep_front [91; 48; 109]%N _ [91; 52; 57; 109]%N) in E.
    + congruence.
    + exact reset_bg_tail.
    + eexists. reflexivity.
Qed.

(** Text without [ESC] at the front of the rewritten line was at the
    front of the line. *)
Lemma rewrite_front bg w :
  (exists r, bg = ESC :: r) ->
  Forall (fun c => c <> ESC) w ->
  forall s, startsWith w (rewrite_from bg 0 s) = true -> startsWith w s = true.
Proof.
  intros (r & Hr) Hw. induction Hw as [|a w Ha Hw IH]; intros s H;
    [reflexivity|].
  destruct s as [|c s]; [simpl in H; discriminate|].
  destruct (startsWith RESET_ALL (c :: s)) eqn:E1.
  - apply startsWith_iff in E1. destruct E1 as (x & Ex).
    rewrite Ex, rewrite_all, RESET_ALL_eq in H. cbn [app] in H.
    rewrite startsWith_cons in H.
    destruct (N.eqb_spec a ESC); [contradiction|discriminate].
  - destruct (startsWith RESET_BG (c :: s)) eqn:E2.
    + apply startsWith_iff in E2. destruct E2 as (x & Ex).
      rewrite Ex, rewrite_bg, Hr in H. cbn [app] in H.
      rewrite startsWith_cons in H.
      destruct (N.eqb_spec a ESC); [contradiction|discriminate].
    + rewrite rewrite_other in H by assumption.
      rewrite startsWith_cons in *. apply andb_true_iff in H.
      destruct H as [H1 H2]. rewrite H1. cbn [andb]. now apply IH.
Qed.

Lemma every_suffix_nil (Q : str -> Prop) : Q [] -> every_suffix Q [].
Proof.
  intros H a b E. symmetry in E. apply app_eq_nil in E.
  destruct E as [_ ->]. exact H.
Qed.

Lemma every_suffix_cons (Q : str -> Prop) c s :
  Q (c :: s) -> every_suffix Q s -> every_suffix Q (c :: s).
Proof.
  intros H1 H2 a b E. destruct a as [|x a]; simpl in E.
  - now subst.
  - inversion E; subst. now apply (H2 a b).
Qed.

Lemma every_suffix_others (Q : str -> Prop) w s :
  (forall c x, c <> ESC -> Q (c :: x)) ->
  Forall (fun c => c <> ESC) w ->
  every_suffix Q s -> every_suffix Q (w ++ s).
Proof.
  intros HQ Hw Hs. induction Hw as [|c w Hc Hw IH]; [exact Hs|].
  apply every_suffix_cons; auto.
Qed.

Lemma every_suffix_led (Q : str -> Prop) w s :
  (forall c x, c <> ESC -> Q (c :: x)) ->
  Forall (fun c => c <> ESC) w ->
  Q (ESC :: w ++ s) ->
  every_suffix Q s -> every_suffix Q ((ESC :: w) ++ s).
Proof.
  intros HQ Hw H0 Hs. apply every_suffix_cons; [exact H0|].
  now apply every_suffix_others.
Qed.

Lemma reset_followed_other bg c x : c <> ESC -> reset_followed bg (c :: x).
Proof.
  intros Hc H. rewrite RESET_ALL_eq, startsWith_cons in H.
  destruct (N.eqb_spec ESC c); [congruence|discriminate].
Qed.

Lemma no_bg_reset_other c x : c <> ESC -> no_bg_reset (c :: x).
Proof.
  intros Hc. unfold no_bg_reset. rewrite RESET_BG_eq, startsWith_cons.
  destruct (N.eqb_spec ESC c); [congruence|reflexivity].
Qed.

(** In the rewritten line behind the background introducer, every full
    reset is followed by the introducer. *)
Lemma rewrite_reset_followed bg :
  sgr bg -> bg <> RESET_ALL ->
  forall s, every_suffix (reset_followed bg) (bg ++ rewrite_from bg 0 s).
Proof.
  intros Hs Hne.
  destruct (sgr_tail _ Hs) as (w & Hbg & Hw).
  assert (Hblock : forall x, every_suffix (reset_followed bg) x ->
            every_suffix (reset_followed bg) (bg ++ x)).
  { intros x Hx.
    replace (bg ++ x) with ((ESC :: w) ++ x) by now rewrite Hbg.
    apply every_suffix_led.
    - intros c y Hc. now apply reset_followed_other.
    - exact Hw.
    - intros H. exfalso. apply Hne.
      apply (sgr_starts_reset_all bg x Hs). rewrite Hbg. exact H.
    - exact Hx. }
  intros s. apply Hblock. revert s. apply rewrite_cases.
  - apply every_suffix_nil. intros H. discriminate.
  - intros r IH. rewrite rewrite_all, RESET_ALL_eq.
    apply every_suffix_led.
    + intros c y Hc. now apply reset_followed_other.
    + exact reset_all_tail.
    + intros _. apply startsWith_iff.
      exists (rewrite_from bg 0 r). reflexivity.
    + now apply Hblock.
  - intros r IH. rewrite rewrite_bg. now apply Hblock.
  - intros c s E1 E2 IH. rewrite rewrite_other by assumption.
    apply every_suffix_cons; [|exact IH].
    intros H. exfalso.
    rewrite RESET_ALL_eq, startsWith_cons in H, E1.
    apply andb_true_iff in H. destruct H as [Hc H].
    rewrite Hc in E1. cbn [andb] in E1.
    apply (rewrite_front bg) in H.
    + congruence.
    + eauto.
    + exact reset_all_tail.
Qed.

(** The rewritten line behind the background introducer holds no
    background reset. *)
Lemma rewrite_no_bg_reset bg :
  sgr bg -> bg <> RESET_BG ->
  forall s, every_suffix no_bg_reset (bg ++ rewrite_from bg 0 s).
Proof.
  intros Hs Hne.
  destruct (sgr_tail _ Hs) as (w & Hbg & Hw).
  assert (Hblock : forall x, every_suffix no_bg_reset x ->
            every_suffix no_bg_reset (bg ++ x)).
  { intros x Hx.
    replace (bg ++ x) with ((ESC :: w) ++ x) by now rewrite Hbg.
    apply every_suffix_led.
    - intros c y Hc. now apply no_bg_reset_other.
    - exact Hw.
    - unfold no_bg_reset.
      destruct (startsWith RESET_BG (ESC :: w ++ x)) eqn:E; [|reflexivity].
      exfalso. apply Hne.
      apply (sgr_starts_reset_bg bg x Hs). rewrite Hbg. exact E.
    - exact Hx. }
  intros s. apply Hblock. revert s. apply rewrite_cases.
  - apply every_suffix_nil. reflexivity.
  - intros r IH. rewrite rewrite_all, RESET_ALL_eq.
    apply every_suffix_led.
    + intros c y Hc. now apply no_bg_reset_other.
    + exact reset_all_tail.
    + reflexivity.
    + now apply Hblock.
  - intros r IH. rewrite rewrite_bg. now apply Hblock.
  - intros c s E1 E2 IH. rewrite rewrite_other by assumption.
    apply every_suffix_cons; [|exact IH].
    unfold no_bg_reset.
    destruct (startsWith RESET_BG (c :: rewrite_from bg 0 s)) eqn:H;
      [|reflexivity].
    exfalso.
    rewrite RESET_BG_eq, startsWith_cons in H, E2.
    apply andb_true_iff in H. destruct H as [Hc H].
    rewrite Hc in E2. cbn [andb] in E2.
    apply (rewrite_front bg) in H.
    + congruence.
    + eauto.
    + exact reset_bg_tail.
Qed.

Lemma startsWith_boundary p : forall x z,
  Forall (fun c => c <> ESC) p ->
  z = [] \/ (exists z', z = ESC :: z') ->
  startsWith p (x ++ z) = true -> startsWith p x = true.
Proof.
  intros x z Hp Hz. revert x.
  induction Hp as [|a p Ha Hp IH]; intros x H; [reflexivity|].
  destruct x as [|c x].
  - cbn [app] in H. destruct Hz as [->|(z' & ->)]; [discriminate|].
    rewrite startsWith_cons in H.
    destruct (N.eqb_spec a ESC); [contradiction|discriminate].
  - change ((c :: x) ++ z) with (c :: (x ++ z)) in H.
    rewrite startsWith_cons in *. apply andb_true_iff in H.
    destruct H as [H1 H2]. rewrite H1. cbn [andb]. now apply IH.
Qed.

Lemma startsWith_led_boundary ptl c x z :
  Forall (fun c => c <> ESC) ptl ->
  z = [] \/ (exists z', z = ESC :: z') ->
  startsWith (ESC :: ptl) (c :: x) = false ->
  startsWith (ESC :: ptl) (c :: x ++ z) = false.
Proof.
  intros Hp Hz H. rewrite startsWith_cons in *.
  destruct (N.eqb_spec ESC c); [|reflexivity]. cbn [andb] in *.
  destruct (startsWith ptl (x ++ z)) eqn:E; [|reflexivity].
  apply (startsWith_boundary ptl x z Hp Hz) in E. congruence.
Qed.

(** The rewriting distributes over a cut in front of an [ESC]. *)
Lemma rewrite_app bg z :
  z = [] \/ (exists z', z = ESC :: z') ->
  forall pre,
    rewrite_from bg 0 (pre ++ z) =
    rewrite_from bg 0 pre ++ rewrite_from bg 0 z.
Proof.
  intros Hz. apply rewrite_cases.
  - reflexivity.
  - intros r IH. rewrite <- app_assoc, !rewrite_all, IH.
    now rewrite <- !app_assoc.
  - intros r IH. rewrite <- app_assoc, !rewrite_bg, IH.
    now rewrite <- !app_assoc.
  - intros c s E1 E2 IH.
    change ((c :: s) ++ z) with (c :: (s ++ z)).
    rewrite !rewrite_other; auto.
    + now rewrite IH.
    + rewrite RESET_ALL_eq in *.
      now apply startsWith_led_boundary; [exact reset_all_tail| |].
    + rewrite RESET_BG_eq in *.
      now apply startsWith_led_boundary; [exact reset_bg_tail| |].
Qed.

Lemma applyCodeBg_sgr o bg s :
  bgAnsi o = Some bg -> sgr bg ->
  applyCodeBg o s = bg ++ rewrite_resets bg s.
Proof.
  intros Hbg Hs. unfold applyCodeBg, rewrite_resets. rewrite Hbg. cbv zeta.
  assert (Hd := sgr_no_dollar _ Hs).
  rewrite (replaceAll_plain RESET_ALL), (replaceAll_plain RESET_BG);
    try discriminate; auto.
  - now rewrite fusion.
  - apply Forall_app. split; [|exact Hd]. repeat constructor; discriminate.
Qed.

Lemma sgr_bg236 : sgr bg236.
Proof.
  exists (lit "48;5;236"). split; [reflexivity|]. repeat constructor.
Qed.

(** ** C2: background injection *)

(** The source documents [codeBlockBgAnsi] as the ANSI prefix for the
    code block background, without a reset.  It is the result of the
    theme lookup, which is outside the repository: a Select Graphic
    Rendition sequence ([ESC], [[], parameter bytes, [m]), here [sgr].

    C2.  When no background introducer is set, [applyCodeBg] returns the
    line unchanged.  When one is set, the result begins with it, it
    follows every full reset that occurs in the result, and every
    background reset of the line is rewritten to it: the result is the
    introducer followed by the line in which every full reset is kept and
    followed by the introducer and every background reset is replaced by
    the introducer. *)
Theorem applyCodeBg_spec (o : TuiPatchOptions) (s : str) :
  (bgAnsi o = None -> applyCodeBg o s = s) /\
  (forall bg, bgAnsi o = Some bg ->
     (exists r, applyCodeBg o s = bg ++ r) /\
     (sgr bg -> ~ occurs RESET_ALL bg ->
      applyCodeBg o s = bg ++ rewrite_resets bg s /\
      forall a b, applyCodeBg o s = a ++ RESET_ALL ++ b ->
        exists b', b = bg ++ b')).
Proof.
  split.
  - intros H. unfold applyCodeBg. now rewrite H.
  - intros bg Hbg. split.
    + unfold applyCodeBg. rewrite Hbg. eauto.
    + intros Hs Hno.
      assert (Hne : bg <> RESET_ALL).
      { intros ->. apply Hno. exists [], []. reflexivity. }
      split; [now apply applyCodeBg_sgr|].
      intros a b E.
      rewrite (applyCodeBg_sgr o bg s Hbg Hs) in E. unfold rewrite_resets in E.
      assert (H := rewrite_reset_followed bg Hs Hne s a _ E).
      unfold reset_followed in H. rewrite startsWith_app in H.
      specialize (H eq_refl). apply startsWith_iff in H.
      destruct H as (r & Hr). rewrite <- app_assoc in Hr.
      apply app_inv_head in Hr. eauto.
Qed.

Lemma occurs_occursb p s : occurs p s -> occursb p s = true.
Proof.
  intros (a & b & ->). induction a as [|x a IH].
  - simpl. assert (H := startsWith_app p b).
    destruct (p ++ b); simpl; [exact H|]. now rewrite H.
  - simpl. rewrite IH. apply orb_true_r.
Qed.

Lemma applyCodeBg_spec_witness :
  (bgAnsi defaults = None /\ applyCodeBg defaults (lit "x") = lit "x") /\
  (bgAnsi (options_bg bg236) = Some bg236 /\ sgr bg236 /\
   ~ occurs RESET_ALL bg236 /\
   applyCodeBg (options_bg bg236) (lit "a" ++ RESET_ALL ++ lit "b")
     = bg236 ++ rewrite_resets bg236 (lit "a" ++ RESET_ALL ++ lit "b") /\
   forall a b,
     applyCodeBg (options_bg bg236) (lit "a" ++ RESET_ALL ++ lit "b")
       = a ++ RESET_ALL ++ b ->
     exists b', b = bg236 ++ b').
Proof.
  split.
  - split; [reflexivity|].
    exact (proj1 (applyCodeBg_spec defaults (lit "x")) eq_refl).
  - assert (Hno : ~ occurs RESET_ALL bg236).
    { intros H. apply occurs_occursb in H. discriminate. }
    split; [reflexivity|]. split; [exact sgr_bg236|]. split; [exact Hno|].
    destruct (proj2 (applyCodeBg_spec (options_bg bg236)
                       (lit "a" ++ RESET_ALL ++ lit "b")) bg236 eq_refl)
      as (_ & H).
    exact (H sgr_bg236 Hno).
Defined.

(** Outside the documented form of the introducer the property of C2 is
    lost: were the introducer the full reset itself, the full reset at
    the front of the result would be followed by the line, not by the
    introducer. *)
Remark applyCodeBg_reset_as_introducer :
  bgAnsi (options_bg RESET_ALL) = Some RESET_ALL /\
  applyCodeBg (options_bg RESET_ALL) (lit "x") = [] ++ RESET_ALL ++ lit "x" /\
  ~ (exists b', lit "x" = RESET_ALL ++ b').
Proof.
  split; [reflexivity|]. split; [reflexivity|].
  intros (b' & H). discriminate.
Qed.

(** ** C10: no background reset survives *)

(** C10.  When the background introducer is set (a Select Graphic
    Rendition sequence, as above) and holds no background reset, the
    result of [applyCodeBg] holds no background reset; a background reset
    in the line is replaced by the introducer, not kept: the result for
    [pre ++ ESC[49m ++ post] is the result for [pre] followed by the
    result for [post]. *)
Theorem applyCodeBg_no_bg_reset (o : TuiPatchOptions) (bg s : str) :
  bgAnsi o = Some bg -> sgr bg -> ~ occurs RESET_BG bg ->
  ~ occurs RESET_BG (applyCodeBg o s) /\
  (forall pre post, s = pre ++ RESET_BG ++ post ->
     applyCodeBg o s = applyCodeBg o pre ++ applyCodeBg o post).
Proof.
  intros Hbg Hs Hno.
  assert (Hne : bg <> RESET_BG).
  { intros ->. apply Hno. exists [], []. reflexivity. }
  split.
  - intros (a & b & E).
    rewrite (applyCodeBg_sgr o bg s Hbg Hs) in E. unfold rewrite_resets in E.
    assert (H := rewrite_no_bg_reset bg Hs Hne s a _ E).
    unfold no_bg_reset in H. rewrite startsWith_app in H. discriminate.
  - intros pre post ->.
    rewrite !(applyCodeBg_sgr o bg _ Hbg Hs). unfold rewrite_resets.
    rewrite rewrite_app, rewrite_bg.
    + now rewrite <- !app_assoc.
    + right. rewrite RESET_BG_eq. eexists. reflexivity.
Qed.

Lemma applyCodeBg_no_bg_reset_witness :
  bgAnsi (options_bg bg236) = Some bg236 /\ sgr bg236 /\
  ~ occurs RESET_BG bg236 /\
  ~ occurs RESET_BG
      (applyCodeBg (options_bg bg236) (lit "a" ++ RESET_BG ++ lit "b")) /\
  applyCodeBg (options_bg bg236) (lit "a" ++ RESET_BG ++ lit "b")
    = applyCodeBg (options_bg bg236) (lit "a")
      ++ applyCodeBg (options_bg bg236) (lit "b").
Proof.
  assert (Hne : ~ occurs RESET_BG bg236).
  { intros H. apply occurs_occursb in H. discriminate. }
  split; [reflexivity|]. split; [exact sgr_bg236|]. split; [exact Hne|].
  destruct (applyCodeBg_no_bg_reset (options_bg bg236) bg236
              (lit "a" ++ RESET_BG ++ lit "b") eq_refl sgr_bg236 Hne)
    as (H1 & H2).
  split; [exact H1|exact (H2 _ _ eq_refl)].
Defined.

(** Outside the documented form of the introducer the property of C10
    is lost: the replacement can put a background reset together.  The
    text [m] holds no background reset, yet replacing the background
    reset of [ESC[49 ESC[49m] by it leaves [ESC[49m] in the result. *)
Remark applyCodeBg_unshaped_introducer :
  bgAnsi (options_bg (lit "m")) = Some (lit "m") /\
  ~ occurs RESET_BG (lit "m") /\
  occurs RESET_BG
    (applyCodeBg (options_bg (lit "m")) (ESC :: lit "[49" ++ RESET_BG)).
Proof.
  split; [reflexivity|]. split.
  - intros (a & b & E). apply (f_equal (@length N)) in E.
    rewrite !length_app in E. simpl in E. lia.
  - exists (lit "m"), []. reflexivity.
Qed.

(** ** Trimming *)

Lemma trimStart_nil_iff s : trimStart s = [] <-> all_ws s.
Proof.
  unfold all_ws. induction s as [|x s IH]; simpl.
  - split; auto.
  - destruct (is_ws x) eqn:E.
    + rewrite IH. split.
      * intros H. now constructor.
      * intros H. now inversion H.
    + split; [discriminate|].
      intros H. inversion H; subst. congruence.
Qed.

Lemma all_ws_rev s : all_ws (rev s) <-> all_ws s.
Proof.
  unfold all_ws. rewrite !Forall_forall. split; intros H x Hx; apply H.
  - now apply -> in_rev.
  - now apply in_rev.
Qed.

Lemma trim_nil_iff s : trim s = [] <-> all_ws s.
Proof.
  unfold trim, trimEnd. split.
  - intros H.
    assert (H1 : trimStart (rev (trimStart s)) = []).
    { apply (f_equal (@rev N)) in H. now rewrite rev_involutive in H. }
    apply trimStart_nil_iff in H1. apply (proj1 (all_ws_rev _)) in H1.
    assert (Hs := trimStart_head s).
    destruct (trimStart s) as [|c r] eqn:E.
    + now apply trimStart_nil_iff.
    + unfold all_ws in H1. apply Forall_inv in H1. simpl in Hs. congruence.
  - intros H. apply trimStart_nil_iff in H. now rewrite H.
Qed.

(** ** C3: the code-fence border wrapper *)

(** C3.  With the patch enabled and fence-hiding on, the wrapped
    [codeBlockBorder] maps a closing fence (three backticks followed by
    nothing but whitespace) to the background introducer if one is set
    and to the empty string otherwise; an opening fence (three backticks
    followed by a language) to the same when no label is requested, and
    otherwise to the background applied to the active indent followed by
    the original border styling of the language between angle quotes;
    and every line that does not start with three backticks to the
    background applied to the original border styling of the line.  With
    fence-hiding off (or the patch disabled) every line is mapped that
    last way. *)
Theorem codeBlockBorder_wrapper_spec (o : TuiPatchOptions)
    (originalBorder : str -> str) (themeIndent : option str) :
  (enabled o && hideCodeFences o = false ->
   forall t,
     codeBlockBorder_wrapper o originalBorder themeIndent t
       = applyCodeBg o (originalBorder t)) /\
  (enabled o && hideCodeFences o = true ->
   (forall t, startsWith bt3 t = false ->
      codeBlockBorder_wrapper o originalBorder themeIndent t
        = applyCodeBg o (originalBorder t)) /\
   (forall w, all_ws w ->
      codeBlockBorder_wrapper o originalBorder themeIndent (bt3 ++ w)
        = bgOrEmpty o) /\
   (forall w, ~ all_ws w -> showCodeFenceLanguageLabel o = false ->
      codeBlockBorder_wrapper o originalBorder themeIndent (bt3 ++ w)
        = bgOrEmpty o) /\
   (forall w, ~ all_ws w -> showCodeFenceLanguageLabel o = true ->
      codeBlockBorder_wrapper o originalBorder themeIndent (bt3 ++ w)
        = applyCodeBg o
            (activeIndent themeIndent
             ++ originalBorder ([LANGLE] ++ trim w ++ [RANGLE])))) /\
  (bgAnsi o = None -> bgOrEmpty o = []) /\
  (forall bg, bgAnsi o = Some bg -> bgOrEmpty o = bg).
Proof.
  split; [|split; [|split]].
  - intros H t. unfold codeBlockBorder_wrapper.
    destruct (enabled o), (hideCodeFences o); try discriminate; reflexivity.
  - intros H. apply andb_true_iff in H. destruct H as [He Hh].
    assert (Hfront : forall w t0, t0 = bt3 ++ w ->
              codeBlockBorder_wrapper o originalBorder themeIndent t0 =
              if negb (truthy (trim w)) then bgOrEmpty o
              else if negb (showCodeFenceLanguageLabel o) then bgOrEmpty o
              else applyCodeBg o
                     (activeIndent themeIndent
                      ++ originalBorder ([LANGLE] ++ trim w ++ [RANGLE]))).
    { intros w t0 ->. unfold codeBlockBorder_wrapper.
      rewrite He, Hh, startsWith_app. reflexivity. }
    split; [|split; [|split]].
    + intros t Ht. unfold codeBlockBorder_wrapper. now rewrite He, Hh, Ht.
    + intros w Hw. rewrite (Hfront w _ eq_refl).
      apply trim_nil_iff in Hw. now rewrite Hw.
    + intros w Hw Hl. rewrite (Hfront w _ eq_refl), Hl.
      destruct (trim w); reflexivity.
    + intros w Hw Hl. rewrite (Hfront w _ eq_refl), Hl.
      destruct (trim w) eqn:E; [|reflexivity].
      exfalso. apply Hw. now apply trim_nil_iff.
  - intros H. unfold bgOrEmpty. now rewrite H.
  - intros bg H. unfold bgOrEmpty. now rewrite H.
Qed.

Lemma codeBlockBorder_wrapper_spec_witness :
  codeBlockBorder_wrapper (options_bg bg236) (fun t => t) None (bt3 ++ lit "  ")
    = bg236 /\
  codeBlockBorder_wrapper (options_bg bg236) (fun t => t) None (bt3 ++ lit "ts")
    = bg236 /\
  codeBlockBorder_wrapper (with_label true defaults) (fun t => t) None
    (bt3 ++ lit "ts")
    = lit "  " ++ [LANGLE] ++ lit "ts" ++ [RANGLE] /\
  codeBlockBorder_wrapper (with_hideFences false defaults) (fun t => t) None
    (bt3 ++ lit "ts")
    = bt3 ++ lit "ts".
Proof.
  assert (Hws : all_ws (lit "  ")) by (repeat constructor).
  assert (Hts : ~ all_ws (lit "ts")).
  { intros H. inversion H as [|? ? Hc _]. discriminate. }
  destruct (codeBlockBorder_wrapper_spec (options_bg bg236) (fun t => t) None)
    as (_ & H1 & _ & Hbg).
  destruct (H1 eq_refl) as (_ & Hclose & Hopen & _).
  destruct (codeBlockBorder_wrapper_spec (with_label true defaults)
              (fun t => t) None) as (_ & H2 & _ & _).
  destruct (H2 eq_refl) as (_ & _ & _ & Hlabel).
  destruct (codeBlockBorder_wrapper_spec (with_hideFences false defaults)
              (fun t => t) None) as (H3 & _).
  split; [|split; [|split]].
  - rewrite (Hclose _ Hws). now apply Hbg.
  - rewrite (Hopen _ Hts eq_refl). now apply Hbg.
  - now rewrite (Hlabel _ Hts eq_refl).
  - now rewrite (H3 eq_refl).
Defined.

(** ** C4: heading rendering *)

Lemma repeat_two n : repeat_str (lit "  ") n = repeat_str (lit " ") (2 * n).
Proof.
  induction n as [|n IH]; [reflexivity|].
  replace (2 * S n) with (S (S (2 * n))) by lia.
  simpl. now rewrite IH.
Qed.

Lemma length_repeat_str s n : length (repeat_str s n) = n * length s.
Proof.
  induction n as [|n IH]; simpl; [reflexivity|].
  now rewrite length_app, IH.
Qed.

Lemma heading_indent_spaces d :
  (3 <= d)%Z -> heading_indent d = spaces (2 * (d - 3)).
Proof.
  intros Hd. unfold heading_indent, spaces.
  rewrite Z.max_r by lia. rewrite repeat_two. f_equal.
  rewrite Z2Nat.inj_mul by lia. reflexivity.
Qed.

Lemma heading_indent_length d :
  (3 <= d)%Z -> Z.of_nat (length (heading_indent d)) = (2 * (d - 3))%Z.
Proof.
  intros Hd. unfold heading_indent. rewrite length_repeat_str.
  rewrite Z.max_r by lia. simpl length. lia.
Qed.

Lemma hash_free_app a b : hash_free a -> hash_free b -> hash_free (a ++ b).
Proof.
  unfold hash_free. intros Ha Hb H. apply in_app_or in H. tauto.
Qed.

Lemma hash_free_repeat_space n : hash_free (repeat_str (lit "  ") n).
Proof.
  induction n as [|n IH]; simpl.
  - intros [].
  - unfold hash_free in *. simpl. intros [H|[H|H]]; try discriminate. auto.
Qed.

(** C4.  With the patch enabled and heading-stripping on, a heading
    token of depth [d] renders to one styled line, followed by one empty
    line exactly when the next token is not a [space] token.  The line is
    the heading text in bold and underline for depth 1, in bold for depth
    2, and in bold behind [2*(d-3)] spaces for depth 3 and more, an
    indent that grows with the depth; no hash sign is added: if the
    heading text has none and the theme functions add none, the line has
    none. *)
Theorem patched_renderToken_heading
    (renderInlineTokens : list Token -> str)
    (original_renderToken : Token -> Z -> option string -> list str)
    (o : TuiPatchOptions) (th : MarkdownTheme) (token : Token) (width : Z)
    (nextTokenType : option string) :
  enabled o = true -> stripHeadingPrefixes o = true ->
  tok_type token = "heading"%string ->
  let txt := renderInlineTokens (tokens_or_empty (tok_tokens token)) in
  let d := tok_depth token in
  let line := styledHeading th d txt in
  patched_renderToken renderInlineTokens original_renderToken o th token width
    nextTokenType
    = (if opt_string_eqb nextTokenType "space" then [line] else [line; []]) /\
  (d = 1%Z -> line = heading th (bold th (underline th txt))) /\
  (d = 2%Z -> line = heading th (bold th txt)) /\
  ((3 <= d)%Z -> line = heading th (bold th (spaces (2 * (d - 3)) ++ txt))) /\
  (forall d', (3 <= d)%Z -> (d < d')%Z ->
     length (heading_indent d) < length (heading_indent d')) /\
  (hash_free txt -> keeps_hash_free (heading th) ->
   keeps_hash_free (bold th) -> keeps_hash_free (underline th) ->
   hash_free line).
Proof.
  intros He Hs Ht txt d line. split; [|split; [|split; [|split; [|split]]]].
  - unfold patched_renderToken. rewrite He, Hs, Ht. simpl.
    destruct (opt_string_eqb nextTokenType "space"); reflexivity.
  - intros Hd. unfold line, styledHeading. now rewrite Hd.
  - intros Hd. unfold line, styledHeading. now rewrite Hd.
  - intros Hd. unfold line, styledHeading.
    destruct (Z.eqb_spec d 1); [lia|]. destruct (Z.eqb_spec d 2); [lia|].
    now rewrite heading_indent_spaces.
  - intros d' Hd Hlt.
    assert (H1 := heading_indent_length d Hd).
    assert (H2 := heading_indent_length d' ltac:(lia)). lia.
  - intros Hx Hh Hb Hu. unfold line, styledHeading.
    destruct (d =? 1)%Z; [auto|]. destruct (d =? 2)%Z; [auto|].
    apply Hh, Hb, hash_free_app; auto. apply hash_free_repeat_space.
Qed.

Lemma patched_renderToken_heading_witness :
  patched_renderToken (fun _ => lit "Deep") (fun _ _ _ => []) defaults
    plainTheme (Tok "heading" 4 None None) 80 (Some "paragraph"%string)
    = [lit "  Deep"; []] /\
  hash_free (styledHeading plainTheme 4 (lit "Deep")).
Proof.
  assert (Hf : hash_free (lit "Deep")).
  { unfold hash_free. simpl. intuition discriminate. }
  assert (Hk : keeps_hash_free (fun t : str => t)) by (intros x Hx; exact Hx).
  destruct (patched_renderToken_heading (fun _ => lit "Deep")
              (fun _ _ _ => []) defaults plainTheme (Tok "heading" 4 None None)
              80 (Some "paragraph"%string) eq_refl eq_refl eq_refl)
    as (H1 & _ & _ & _ & _ & H6).
  split; [exact H1|exact (H6 Hf Hk Hk Hk)].
Defined.

(** ** C5: list items *)

Section ListItem.

Variable renderInlineTokens : list Token -> str.
Variable renderList : Token -> Z -> list str.
Variable this_renderToken : Token -> Z -> option string -> list str.
Variable tokens : list Token.
Variable parentDepth blockWidth : Z.

Lemma listItem_push_app i tok lines :
  listItem_push renderInlineTokens renderList this_renderToken tokens
    parentDepth blockWidth i tok lines
  = lines ++
    listItem_push renderInlineTokens renderList this_renderToken tokens
      parentDepth blockWidth i tok [].
Proof.
  unfold listItem_push.
  repeat match goal with
  | |- context [if ?b then _ else _] => destruct b
  end; reflexivity.
Qed.

Lemma listItem_loop_concat : forall n i lines,
  i + n <= length tokens ->
  listItem_loop renderInlineTokens renderList this_renderToken tokens
    parentDepth blockWidth n i lines
  = lines ++
    concat (List.map
      (item_lines renderInlineTokens renderList this_renderToken tokens
         parentDepth blockWidth) (seq i n)).
Proof.
  induction n as [|n IH]; intros i lines Hlen; simpl.
  - now rewrite app_nil_r.
  - destruct (nth_error tokens i) as [tok|] eqn:E.
    + rewrite IH by lia. rewrite listItem_push_app.
      unfold item_lines at 2. rewrite E. now rewrite <- app_assoc.
    + apply nth_error_None in E. lia.
Qed.

End ListItem.

(** C5.  With the patch enabled, [renderListItem] renders nested block
    content at width [max(20, fullContentWidth - (2*parentDepth + 2))]
    and returns, for the child tokens in order, the lines of each: those
    of the list renderer at [parentDepth+1] for a [list] token; one line
    for a [text] token, its rendered inline children when it has some and
    its literal text otherwise; one line for a [paragraph] token, its
    rendered inline children; and for any other token those of the block
    renderer at that width, told the type of the following token. *)
Theorem patched_renderListItem_spec
    (renderInlineTokens : list Token -> str)
    (renderList : Token -> Z -> list str)
    (original_renderListItem : list Token -> Z -> list str)
    (this_renderToken : Token -> Z -> option string -> list str)
    (o : TuiPatchOptions) (cw : option Z) (tokens : list Token)
    (parentDepth : Z) :
  enabled o = true ->
  let fullWidth := match cw with Some w => w | None => 80%Z end in
  let bw := Z.max 20 (fullWidth - (2 * parentDepth + 2)) in
  let lines_at :=
    item_lines renderInlineTokens renderList this_renderToken tokens
      parentDepth bw in
  patched_renderListItem renderInlineTokens renderList original_renderListItem
    this_renderToken o cw tokens parentDepth
    = concat (List.map lines_at (seq 0 (length tokens))) /\
  forall i tok, nth_error tokens i = Some tok ->
    (tok_type tok = "list"%string ->
       lines_at i = renderList tok (parentDepth + 1)%Z) /\
    (tok_type tok = "text"%string ->
       lines_at i =
       [match tok_tokens tok with
        | Some (c :: cs) => renderInlineTokens (c :: cs)
        | _ => text_or_empty (tok_text tok)
        end]) /\
    (tok_type tok = "paragraph"%string ->
       lines_at i = [renderInlineTokens (tokens_or_empty (tok_tokens tok))]) /\
    (tok_type tok <> "list"%string -> tok_type tok <> "text"%string ->
     tok_type tok <> "paragraph"%string ->
       lines_at i =
       this_renderToken tok bw (option_map tok_type (nth_error tokens (S i)))).
Proof.
  intros He fullWidth bw lines_at. split.
  - unfold patched_renderListItem. rewrite He. simpl negb. cbv iota.
    fold fullWidth. unfold blockWidthOf. fold bw.
    rewrite listItem_loop_concat by lia. reflexivity.
  - intros i tok E. unfold lines_at, item_lines. rewrite E.
    unfold listItem_push.
    replace (i + 1) with (S i) by lia.
    split; [|split; [|split]].
    + intros H. now rewrite H.
    + intros H. now rewrite H.
    + intros H. now rewrite H.
    + intros H1 H2 H3.
      apply String.eqb_neq in H1, H2, H3. now rewrite H1, H2, H3.
Qed.

Lemma patched_renderListItem_spec_witness :
  patched_renderListItem (fun _ => lit "inline") (fun _ _ => [lit "nested"])
    (fun _ _ => []) (fun _ w _ => [lit "block"; spaces w])
    defaults (Some 30%Z)
    [Tok "text" 0 (Some (lit "plain")) None; Tok "list" 0 None None;
     Tok "table" 0 None None] 4
  = [lit "plain"; lit "nested"; lit "block"; spaces 20].
Proof.
  destruct (patched_renderListItem_spec (fun _ => lit "inline")
              (fun _ _ => [lit "nested"]) (fun _ _ => [])
              (fun _ w _ => [lit "block"; spaces w]) defaults (Some 30%Z)
              [Tok "text" 0 (Some (lit "plain")) None; Tok "list" 0 None None;
               Tok "table" 0 None None] 4 eq_refl) as (H & _).
  rewrite H. reflexivity.
Defined.

(** ** C6: print-mode post-processing *)

Lemma last_is_empty_iff lines :
  last_is_empty lines = true <-> exists l, lines = l ++ [[]].
Proof.
  unfold last_is_empty. split.
  - destruct (rev lines) as [|x r] eqn:E; [discriminate|].
    destruct x; [|discriminate]. intros _.
    exists (rev r). apply (f_equal (@rev str)) in E.
    rewrite rev_involutive in E. exact E.
  - intros (l & ->). rewrite rev_app_distr. reflexivity.
Qed.

Lemma last_is_empty_false lines :
  last_is_empty lines = false -> lines = [] \/ last lines [] <> [].
Proof.
  destruct (rev lines) as [|x r] eqn:E.
  - intros _. left. apply (f_equal (@rev str)) in E.
    now rewrite rev_involutive in E.
  - apply (f_equal (@rev str)) in E. rewrite rev_involutive in E. simpl in E.
    rewrite E. intros H. right. rewrite last_last. intros ->.
    assert (F : last_is_empty (rev r ++ [[]]) = true)
      by (apply last_is_empty_iff; eauto).
    exact (eq_true_false_abs _ F H).
Qed.

Lemma pop_blank_S n lines :
  pop_blank (S n) lines =
  if (0 <? length lines) && last_is_empty lines
  then pop_blank n (removelast lines) else lines.
Proof. reflexivity. Qed.

Lemma pop_blank_spec : forall n lines,
  length lines <= n ->
  (pop_blank n lines = [] \/ last (pop_blank n lines) [] <> []) /\
  exists k, pop_blank n lines = firstn k lines /\
            Forall (fun l => l = []) (skipn k lines).
Proof.
  induction n as [|n IH]; intros lines Hlen.
  - destruct lines; [|simpl in Hlen; lia]. simpl. split; [now left|].
    exists 0. split; auto.
  - rewrite pop_blank_S. destruct (last_is_empty lines) eqn:E1.
    + apply last_is_empty_iff in E1. destruct E1 as (l & ->).
      assert (E0 : (0 <? length (l ++ [[]])) = true).
      { apply Nat.ltb_lt. rewrite length_app. simpl. lia. }
      rewrite E0. cbn [andb]. rewrite removelast_last.
      rewrite length_app in Hlen. simpl in Hlen.
      assert (Hl : length l <= n) by lia.
      destruct (IH l Hl) as (H1 & k & H2 & H3).
      split; [exact H1|].
      exists (Nat.min k (length l)).
      rewrite firstn_app, skipn_app.
      replace (Nat.min k (length l) - length l) with 0 by lia.
      simpl. rewrite app_nil_r.
      destruct (Nat.le_ge_cases k (length l)).
      * rewrite Nat.min_l by lia. split; [exact H2|].
        apply Forall_app. split; [exact H3|repeat constructor].
      * rewrite Nat.min_r by lia. rewrite firstn_all, skipn_all.
        rewrite firstn_all2 in H2 by lia. split; [exact H2|].
        repeat constructor.
    + rewrite andb_false_r. split; [now apply last_is_empty_false|].
      exists (length lines). rewrite firstn_all, skipn_all. auto.
Qed.

Lemma Forall_take {A} (P : A -> Prop) k : forall l,
  Forall P l -> Forall P (firstn k l).
Proof.
  induction k as [|k IH]; intros l H; simpl; [constructor|].
  destruct H; constructor; auto.
Qed.

Lemma last_in {A} (d : A) : forall l x, In (last (x :: l) d) (x :: l).
Proof.
  induction l as [|y l IH]; intros x.
  - now left.
  - right. apply IH.
Qed.

Lemma trimStart_suffix s : exists p, s = p ++ trimStart s.
Proof.
  induction s as [|x s (p & IH)]; simpl.
  - exists []. reflexivity.
  - destruct (is_ws x).
    + exists (x :: p). simpl. now rewrite <- IH.
    + exists []. reflexivity.
Qed.

Lemma trimEnd_prefix s : exists q, s = trimEnd s ++ q.
Proof.
  unfold trimEnd. destruct (trimStart_suffix (rev s)) as (p & H).
  exists (rev p). apply (f_equal (@rev N)) in H.
  rewrite rev_involutive, rev_app_distr in H. exact H.
Qed.

Lemma trimEnd_single_line l : single_line l -> single_line (trimEnd l).
Proof.
  unfold single_line. intros H Hin. apply H.
  destruct (trimEnd_prefix l) as (q & E). rewrite E.
  apply in_or_app. now left.
Qed.

Lemma pieces_single l : single_line l -> pieces l = [l].
Proof.
  unfold single_line. induction l as [|c l IH]; intros H; simpl; auto.
  destruct (N.eqb_spec c LF) as [->|Hc].
  - exfalso. apply H. now left.
  - rewrite IH; auto. intros Hin. apply H. now right.
Qed.

Lemma pieces_cut l r :
  single_line l -> pieces (l ++ LF :: r) = l :: pieces r.
Proof.
  unfold single_line. induction l as [|c l IH]; intros H; simpl.
  - reflexivity.
  - destruct (N.eqb_spec c LF) as [->|Hc].
    + exfalso. apply H. now left.
    + rewrite IH; auto. intros Hin. apply H. now right.
Qed.

Lemma pieces_join ls :
  Forall single_line ls -> ls <> [] -> pieces (join nl ls) = ls.
Proof.
  induction 1 as [|l ls Hl Hls IH]; intros Hne; [contradiction|].
  destruct ls as [|l2 ls].
  - simpl. now apply pieces_single.
  - change (join nl (l :: l2 :: ls)) with (l ++ LF :: join nl (l2 :: ls)).
    rewrite pieces_cut by exact Hl. rewrite IH; [reflexivity|discriminate].
Qed.

Lemma join_nil ls : join nl ls = [] -> ls = [] \/ ls = [[]].
Proof.
  destruct ls as [|l [|l2 ls]]; simpl; auto.
  - intros ->. auto.
  - intros H. apply app_eq_nil in H. destruct H as [_ H]. discriminate.
Qed.

Lemma lines_of_join ls :
  Forall single_line ls -> ls = [] \/ last ls [] <> [] ->
  lines_of (join nl ls) = ls.
Proof.
  intros Hs [->|Hl]; [reflexivity|].
  assert (Hne : ls <> []) by (intros ->; now apply Hl).
  unfold lines_of. destruct (join nl ls) as [|c r] eqn:E.
  - apply join_nil in E. destruct E as [->| ->]; [contradiction|].
    exfalso. now apply Hl.
  - rewrite <- E. now apply pieces_join.
Qed.

(** C6.  The print-mode renderer trims every rendered line at its end,
    drops the empty lines at the end of the sequence and joins what is
    kept with line breaks: no kept line ends with whitespace, and the
    last kept line, if any line is kept, is not empty.  When the
    component renders each line without a line break inside, the lines
    of the returned text are exactly the kept lines. *)
Theorem renderMarkdownToTerminal_spec
    (md_render : str -> Z -> MarkdownTheme -> list str)
    (markdown : str) (width : Z) (th : MarkdownTheme) :
  let rendered := md_render markdown width th in
  exists kept k,
    renderMarkdownToTerminal md_render markdown width th = join nl kept /\
    kept = firstn k (List.map trimEnd rendered) /\
    Forall (fun l => l = []) (skipn k (List.map trimEnd rendered)) /\
    Forall ends_clean kept /\
    (kept = [] \/ ~ all_ws (last kept [])) /\
    (Forall single_line rendered ->
     lines_of (renderMarkdownToTerminal md_render markdown width th) = kept).
Proof.
  intros rendered. unfold renderMarkdownToTerminal. fold rendered.
  set (ls := List.map trimEnd rendered).
  destruct (pop_blank_spec (length ls) ls (le_n _)) as (Hlast & k & Hk & Hdrop).
  exists (pop_blank (length ls) ls), k.
  assert (Hclean : Forall ends_clean (pop_blank (length ls) ls)).
  { rewrite Hk. apply Forall_take. unfold ls. apply Forall_map.
    apply Forall_forall. intros l _. apply trimEnd_ends_clean. }
  split; [reflexivity|]. split; [exact Hk|]. split; [exact Hdrop|].
  split; [exact Hclean|]. split.
  { destruct Hlast as [Hl|Hl]; [now left|right].
    intros Hws. apply Hl. apply ends_clean_ws; [|exact Hws].
    destruct (pop_blank (length ls) ls) as [|x l] eqn:E; [reflexivity|].
    rewrite Forall_forall in Hclean. apply Hclean. apply last_in. }
  intros Hsingle. apply lines_of_join; auto.
  rewrite Hk. apply Forall_take. unfold ls. apply Forall_map.
  eapply Forall_impl; [|exact Hsingle]. intros l. apply trimEnd_single_line.
Qed.

Lemma renderMarkdownToTerminal_spec_witness :
  lines_of
    (renderMarkdownToTerminal
       (fun _ _ _ => [lit "Para    "; lit "    "; lit "  code  "; lit "    "; []])
       (lit "Para") 40 plainTheme)
  = [lit "Para"; []; lit "  code"].
Proof.
  destruct (renderMarkdownToTerminal_spec
              (fun _ _ _ => [lit "Para    "; lit "    "; lit "  code  ";
                             lit "    "; []])
              (lit "Para") 40 plainTheme) as (kept & k & H1 & H2 & H3 & H4 & H5 & H6).
  rewrite H6.
  - assert (E : join nl kept = join nl [lit "Para"; []; lit "  code"])
      by (rewrite <- H1; reflexivity).
    assert (H5' : kept = [] \/ last kept [] <> []).
    { destruct H5 as [H5|H5]; [now left|right].
      intros Hn. apply H5. rewrite Hn. constructor. }
    rewrite <- (lines_of_join kept), E; [reflexivity| |exact H5'].
    rewrite H2. apply Forall_take.
    repeat constructor; unfold single_line; simpl; intuition discriminate.
  - repeat constructor; unfold single_line; simpl; intuition discriminate.
Defined.

(** ** C8: the indent setting *)

Lemma str_eqb_eq a : forall b, str_eqb a b = true <-> a = b.
Proof.
  induction a as [|x a IH]; intros [|y b]; simpl; split; try discriminate; auto.
  - rewrite andb_true_iff, N.eqb_eq, IH. intros [-> ->]. reflexivity.
  - intros H. inversion H; subst. rewrite N.eqb_refl. simpl. now apply IH.
Qed.

Lemma clampIndent_range n :
  (0 <= clampIndent n <= 8)%Z /\
  ((0 <= n <= 8)%Z -> clampIndent n = n) /\
  ((n < 0)%Z -> clampIndent n = 0%Z) /\
  ((8 < n)%Z -> clampIndent n = 8%Z).
Proof. unfold clampIndent. lia. Qed.

Lemma handler_indent getBgAnsi st args v rest :
  words (trim args) = lit "indent" :: v :: rest ->
  renderMdCommandHandler getBgAnsi true args st =
  let r := {| out_state := applyTuiMarkdownPatchOnce st;
              out_commits := 0; out_notes := [] |} in
  match toInt (VString v) with
  | None => notify Warning r
  | Some n => commit (notify Info (update (with_indent (spaces (clampIndent n))) r))
  end.
Proof.
  intros H. unfold renderMdCommandHandler. rewrite H. reflexivity.
Qed.

(** C8 (as amended).  A numeric indent is clamped to the range 0 to 8:
    a value below 0 gives 0, a value above 8 gives 8, and the indent
    becomes that many spaces.  Input that is not numeric falls back: to
    the default given at start-up, and in the live-edit command to the
    previous value, which is left as it is, with a warning and without a
    commit; so does [indent abc]. *)
Theorem indent_config_spec (getBgAnsi : str -> option str) (st : PatchState) :
  (forall n,
     (0 <= clampIndent n <= 8)%Z /\
     ((0 <= n <= 8)%Z -> clampIndent n = n) /\
     ((n < 0)%Z -> clampIndent n = 0%Z) /\
     ((8 < n)%Z -> clampIndent n = 8%Z)) /\
  (forall v d,
     parseIndentSpaces v d =
     match toInt v with
     | Some n => spaces (clampIndent n)
     | None => spaces d
     end) /\
  (forall args v rest n,
     words (trim args) = lit "indent" :: v :: rest ->
     toInt (VString v) = Some n ->
     codeBlockIndent
       (options (out_state (renderMdCommandHandler getBgAnsi true args st)))
     = spaces (clampIndent n)) /\
  (forall args v rest,
     words (trim args) = lit "indent" :: v :: rest ->
     toInt (VString v) = None ->
     options (out_state (renderMdCommandHandler getBgAnsi true args st))
       = options st /\
     out_commits (renderMdCommandHandler getBgAnsi true args st) = 0 /\
     out_notes (renderMdCommandHandler getBgAnsi true args st) = [Warning]) /\
  options (out_state (renderMdCommandHandler getBgAnsi true (lit "indent abc") st))
    = options st.
Proof.
  assert (Hnone : forall args v rest,
     words (trim args) = lit "indent" :: v :: rest ->
     toInt (VString v) = None ->
     options (out_state (renderMdCommandHandler getBgAnsi true args st))
       = options st /\
     out_commits (renderMdCommandHandler getBgAnsi true args st) = 0 /\
     out_notes (renderMdCommandHandler getBgAnsi true args st) = [Warning]).
  { intros args v rest Hw Hv.
    rewrite (handler_indent getBgAnsi st args v rest Hw). cbv zeta.
    rewrite Hv. repeat split. }
  split; [exact clampIndent_range|]. split; [|split; [|split]].
  - intros v d. unfold parseIndentSpaces. destruct (toInt v); reflexivity.
  - intros args v rest n Hw Hv.
    rewrite (handler_indent getBgAnsi st args v rest Hw). cbv zeta.
    rewrite Hv. reflexivity.
  - exact Hnone.
  - exact (proj1 (Hnone (lit "indent abc") (lit "abc") [] eq_refl eq_refl)).
Qed.

Lemma indent_config_spec_witness :
  codeBlockIndent
    (options (out_state
       (renderMdCommandHandler (fun _ => None) true (lit "indent  12")
          initialPatchState)))
  = lit "        " /\
  options (out_state
    (renderMdCommandHandler (fun _ => None) true (lit "indent 3x.5 ")
       initialPatchState))
  = with_indent (lit "   ") defaults /\
  options (out_state
    (renderMdCommandHandler (fun _ => None) true (lit "indent x3")
       initialPatchState))
  = defaults.
Proof.
  destruct (indent_config_spec (fun _ => None) initialPatchState)
    as (_ & _ & Hnum & Hnan & _).
  split; [|split].
  - exact (Hnum (lit "indent  12") (lit "12") [] 12%Z eq_refl eq_refl).
  - assert (H := Hnum (lit "indent 3x.5 ") (lit "3x.5") [] 3%Z eq_refl eq_refl).
    reflexivity.
  - exact (proj1 (Hnan (lit "indent x3") (lit "x3") [] eq_refl eq_refl)).
Defined.

(** C8 as worded fails: an indent out of range does not fall back to the
    previous value, it is clamped.  With four spaces set, [indent 12]
    sets eight. *)
Lemma indent_out_of_range_counterexample :
  toInt (VString (lit "12")) = Some 12%Z /\
  ~ (0 <= 12 <= 8)%Z /\
  codeBlockIndent
    (options (out_state
       (renderMdCommandHandler (fun _ => None) true (lit "indent 12")
          initialPatchState)))
  = lit "        " /\
  codeBlockIndent
    (options (out_state
       (renderMdCommandHandler (fun _ => None) true (lit "indent 12")
          initialPatchState)))
  <> codeBlockIndent (options initialPatchState).
Proof.
  split; [reflexivity|]. split; [lia|]. split; [reflexivity|].
  vm_compute. discriminate.
Qed.

(* ================================================================== *)
(** ** What a command or a settings change does to the state *)
(* ================================================================== *)

Ltac pick_change :=
  first
    [ eexists (SetUnfence _); reflexivity
    | eexists (SetHideFences _); reflexivity
    | eexists (SetLabel _); reflexivity
    | eexists (SetHeadings _); reflexivity
    | eexists (SetIndent _); reflexivity
    | eexists (SetBg _); reflexivity ].

Ltac settle_outcome :=
  first
    [ left; repeat split; reflexivity
    | right; split; [reflexivity|]; split; [reflexivity|];
      split; [reflexivity|]; pick_change ].

Lemma handler_change getBgAnsi hasUI args st :
  let r := renderMdCommandHandler getBgAnsi hasUI args st in
  (out_commits r = 0 /\ options (out_state r) = options st /\
   revision (out_state r) = if hasUI then js_incr (revision st) else revision st)
  \/
  (hasUI = true /\ out_commits r = 1 /\
   revision (out_state r) = js_incr (js_incr (revision st)) /\
   exists c, options (out_state r) = applyChange getBgAnsi c (options st)).
Proof.
  unfold renderMdCommandHandler. destruct hasUI; simpl negb; cbv iota zeta.
  2:{ left. repeat split; reflexivity. }
  destruct (nth_error (words (trim args)) 0) as [cmd|]; [|settle_outcome].
  repeat match goal with
  | |- context [if ?b then _ else _] => destruct b
  | |- context [match ?x with Some _ => _ | None => _ end] => destruct x
  end; settle_outcome.
Qed.

Lemma settings_change getBgAnsi id v st :
  let r := settingsChange getBgAnsi id v st in
  (out_commits r = 0 /\ out_state r = st) \/
  (out_commits r = 1 /\
   revision (out_state r) = js_incr (revision st) /\
   exists c, options (out_state r) = applyChange getBgAnsi c (options st)).
Proof.
  unfold settingsChange. cbv zeta.
  repeat match goal with
  | |- context [if ?b then _ else _] => destruct b
  end;
  first
    [ left; split; reflexivity
    | right; split; [reflexivity|]; split; [reflexivity|]; pick_change ].
Qed.


(** ** C7: the revision counter and the per-instance flags *)

Lemma js_incr_ge r : (r <= js_incr r)%Z.
Proof. unfold js_incr. destruct (r <? 2 ^ 53)%Z; lia. Qed.

Lemma js_incr_lt r : (r < 2 ^ 53)%Z -> js_incr r = (r + 1)%Z.
Proof.
  intros H. unfold js_incr. apply Z.ltb_lt in H. now rewrite H.
Qed.

Lemma revision_commit r :
  revision (out_state (commit r)) = js_incr (revision (out_state r)).
Proof. reflexivity. Qed.

Lemma revision_notify l r :
  revision (out_state (notify l r)) = revision (out_state r).
Proof. reflexivity. Qed.

Lemma revision_update f r :
  revision (out_state (update f r)) = revision (out_state r).
Proof. reflexivity. Qed.

Lemma handler_revision getBgAnsi hasUI args st :
  (revision st <= revision (out_state
     (renderMdCommandHandler getBgAnsi hasUI args st)))%Z.
Proof.
  unfold renderMdCommandHandler. destruct hasUI; simpl negb; cbv iota zeta.
  2:{ rewrite revision_notify. simpl. lia. }
  assert (H0 := js_incr_ge (revision st)).
  destruct (nth_error (words (trim args)) 0) as [cmd|];
    [|simpl; exact H0].
  repeat match goal with
  | |- context [if ?b then _ else _] => destruct b
  | |- context [match ?x with Some _ => _ | None => _ end] => destruct x
  end;
  repeat first
    [ rewrite revision_commit
    | rewrite revision_notify
    | rewrite revision_update ];
  simpl revision;
  try exact H0;
  (eapply Z.le_trans; [exact H0|apply js_incr_ge]).
Qed.

Lemma settings_revision getBgAnsi id v st :
  (revision st <= revision (out_state (settingsChange getBgAnsi id v st)))%Z.
Proof.
  unfold settingsChange. cbv zeta.
  repeat match goal with
  | |- context [if ?b then _ else _] => destruct b
  end;
  repeat first
    [ rewrite revision_commit
    | rewrite revision_notify
    | rewrite revision_update ];
  simpl revision; try apply js_incr_ge; lia.
Qed.

Lemma step_revision getBgAnsi e st :
  (revision st <= revision (step getBgAnsi e st))%Z.
Proof.
  destruct e as [o|hasUI args|id v]; simpl.
  - unfold sessionStart. destruct (enabled o); simpl; [apply js_incr_ge|lia].
  - apply handler_revision.
  - apply settings_revision.
Qed.

Lemma run_revision getBgAnsi es : forall st,
  (revision st <= revision (run getBgAnsi es st))%Z.
Proof.
  unfold run. induction es as [|e es IH]; intros st; simpl; [lia|].
  eapply Z.le_trans; [apply step_revision|apply IH].
Qed.

Lemma opt_Z_eqb_refl r : opt_Z_eqb (Some r) r = true.
Proof. simpl. apply Z.eqb_refl. Qed.

Lemma syncRevision_same st i :
  revisionApplied i = Some (revision st) -> syncRevision st i = i.
Proof.
  intros H. unfold syncRevision. rewrite H, opt_Z_eqb_refl. reflexivity.
Qed.

Lemma syncRevision_applied st i :
  revisionApplied (syncRevision st i) = Some (revision st).
Proof.
  unfold syncRevision.
  destruct (revisionApplied i) as [r|] eqn:E; simpl; [|reflexivity].
  destruct (Z.eqb_spec r (revision st)); simpl; congruence.
Qed.

Lemma unwrapOnce_fields st i :
  revisionApplied (unwrapOnce st i) = revisionApplied i /\
  theme (unwrapOnce st i) = theme i /\
  themePatched (unwrapOnce st i) = themePatched i /\
  themeWraps (unwrapOnce st i) = themeWraps i /\
  (unwrapOuterMarkdownFence (options st) = true ->
   unwrapped (unwrapOnce st i) = true).
Proof.
  unfold unwrapOnce.
  destruct (unwrapOuterMarkdownFence (options st)); simpl.
  - destruct (unwrapped i) eqn:E; simpl; [now rewrite E|].
    destruct (str_eqb _ _); simpl; auto.
  - repeat split. discriminate.
Qed.

Lemma patchTheme_fields st i :
  revisionApplied (patchTheme st i) = revisionApplied i /\
  unwrapped (patchTheme st i) = unwrapped i /\
  text (patchTheme st i) = text i /\
  unwrapRuns (patchTheme st i) = unwrapRuns i /\
  (theme (patchTheme st i) <> None -> themePatched (patchTheme st i) = true).
Proof.
  unfold patchTheme. destruct (theme i) as [th|] eqn:E.
  - simpl. destruct (themePatched i) eqn:Ep; simpl; auto.
  - rewrite E. repeat split. intros H. contradiction.
Qed.

Lemma patch_settles st i :
  enabled (options st) = true -> settled st (patchMarkdownInstance i st).
Proof.
  intros He. unfold patchMarkdownInstance, settled. rewrite He. simpl negb.
  cbv iota.
  destruct (patchTheme_fields st (unwrapOnce st (syncRevision st i)))
    as (H1 & H2 & _ & _ & H5).
  destruct (unwrapOnce_fields st (syncRevision st i)) as (G1 & _ & _ & _ & G5).
  split; [|split].
  - now rewrite H1, G1, syncRevision_applied.
  - intros Hu. rewrite H2. now apply G5.
  - exact H5.
Qed.

Lemma settled_stable st i :
  settled st i ->
  unwrapRuns (patchMarkdownInstance i st) = unwrapRuns i /\
  themeWraps (patchMarkdownInstance i st) = themeWraps i /\
  text (patchMarkdownInstance i st) = text i /\
  unwrapped (patchMarkdownInstance i st) = unwrapped i /\
  themePatched (patchMarkdownInstance i st) = themePatched i.
Proof.
  intros (Hr & Hu & Ht). unfold patchMarkdownInstance.
  destruct (enabled (options st)); simpl negb; cbv iota; [|auto].
  rewrite (syncRevision_same st i Hr).
  assert (Eu : unwrapOnce st i = i).
  { unfold unwrapOnce.
    destruct (unwrapOuterMarkdownFence (options st)); [|reflexivity].
    now rewrite (Hu eq_refl). }
  rewrite Eu. unfold patchTheme.
  destruct (theme i) as [th|] eqn:E; [|auto].
  assert (Hp : themePatched i = true) by (apply Ht; discriminate).
  simpl. rewrite Hp. simpl. auto.
Qed.

Lemma prepare_settles st i w :
  enabled (options st) = true -> settled st (patched_render_prepare st i w).
Proof. intros He. unfold patched_render_prepare. now apply patch_settles. Qed.

Lemma prepare_stable st i w :
  settled st i ->
  unwrapRuns (patched_render_prepare st i w) = unwrapRuns i /\
  themeWraps (patched_render_prepare st i w) = themeWraps i /\
  text (patched_render_prepare st i w) = text i.
Proof.
  intros Hs. unfold patched_render_prepare. cbv zeta.
  set (i0 := set_contentWidth _ i).
  assert (Hs0 : settled st i0) by exact Hs.
  destruct (settled_stable st i0 Hs0) as (H1 & H2 & H3 & _).
  rewrite H1, H2, H3. auto.
Qed.

(** A command that changes a setting bumps the revision twice: once
    when the handler applies the patch again on entry, once in its
    commit. *)
Lemma handler_label_revision getBgAnsi st args v rest :
  words (trim args) = lit "label" :: v :: rest ->
  revision (out_state (renderMdCommandHandler getBgAnsi true args st))
  = js_incr (js_incr (revision st)).
Proof.
  intros H. unfold renderMdCommandHandler. rewrite H. reflexivity.
Qed.

(** What the first render installs on a fresh instance with a theme. *)
Lemma patchTheme_installs st i th :
  theme i = Some th -> themePatched i = false -> themeOriginals i = None ->
  exists th',
    theme (patchTheme st i) = Some th' /\
    themeCodeBlockIndent th' = Some (patchedIndent (options st)) /\
    codeBlock th' = codeBlock_wrapper (options st) (codeBlock th) /\
    codeBlockBorder th' =
      codeBlockBorder_wrapper (options st) (codeBlockBorder th)
        (Some (patchedIndent (options st))) /\
    themeWraps (patchTheme st i) = S (themeWraps i).
Proof.
  intros Ht Hp Ho. unfold patchTheme. rewrite Ht, Ho. simpl. rewrite Hp.
  simpl. eexists. repeat split.
Qed.

Lemma js_incr_twice r :
  (r < 2 ^ 53 - 1)%Z -> js_incr (js_incr r) = (r + 2)%Z.
Proof.
  intros H. rewrite (js_incr_lt r) by lia. rewrite js_incr_lt by lia. lia.
Qed.

Lemma handler_bumps getBgAnsi hasUI args st :
  let r := renderMdCommandHandler getBgAnsi hasUI args st in
  out_commits r <= 1 /\
  (hasUI = false -> out_commits r = 0) /\
  revision (out_state r)
    = Nat.iter (out_commits r + (if hasUI then 1 else 0)) js_incr (revision st) /\
  (out_commits r = 1 -> (revision st < 2 ^ 53 - 1)%Z ->
   revision (out_state r) = (revision st + 2)%Z).
Proof.
  intros r.
  destruct (handler_change getBgAnsi hasUI args st)
    as [(Hc & _ & Hr)|(Hu & Hc & Hr & _)]; fold r in Hc, Hr.
  - rewrite Hc, Hr. split; [lia|]. split; [reflexivity|]. split.
    + now destruct hasUI.
    + discriminate.
  - rewrite Hc, Hr, Hu. split; [lia|]. split; [discriminate|].
    split; [reflexivity|]. intros _ H. now apply js_incr_twice.
Qed.

Lemma settings_bumps getBgAnsi id v st :
  let r := settingsChange getBgAnsi id v st in
  out_commits r <= 1 /\
  revision (out_state r) = Nat.iter (out_commits r) js_incr (revision st) /\
  (out_commits r = 1 -> (revision st < 2 ^ 53)%Z ->
   revision (out_state r) = (revision st + 1)%Z).
Proof.
  intros r.
  destruct (settings_change getBgAnsi id v st)
    as [(Hc & Hs)|(Hc & Hr & _)]; fold r in Hc |- *.
  - fold r in Hs. rewrite Hc, Hs. split; [lia|]. split; [reflexivity|].
    discriminate.
  - fold r in Hr. rewrite Hc, Hr. split; [lia|]. split; [reflexivity|].
    intros _ H. now apply js_incr_lt.
Qed.

(** C7 (as amended).  The revision starts at 0 and no event lowers it.
    A commit by itself raises it by exactly one (as long as the counter
    is below 2^53, from where a JavaScript number no longer counts by
    ones), and so does a change made on the settings screen.  A change
    made with the command raises it by two: the handler applies the
    patch again on entry, which is one increment, and then commits,
    which is another.  The handler commits at most once; with a UI it
    raises the revision by one even when it commits nothing, and
    without a UI it leaves it as it is.  A session start raises it by
    one when it enables the patch.  An instance whose applied revision
    is the current one keeps its two flags, and a render of an instance
    already rendered at the current revision runs neither the fence
    unwrap nor the theme wrapping again and leaves the text as it is (so
    does a render of any instance on which the revision is applied and
    both flags are set); the flags are reset when the revisions
    differ. *)
Theorem revision_spec (getBgAnsi : str -> option str) :
  revision initialPatchState = 0%Z /\
  (forall es st, (revision st <= revision (run getBgAnsi es st))%Z) /\
  (forall r, (revision (out_state r) < 2 ^ 53)%Z ->
     revision (out_state (commit r)) = (revision (out_state r) + 1)%Z) /\
  (forall hasUI args st,
     let r := renderMdCommandHandler getBgAnsi hasUI args st in
     out_commits r <= 1 /\
     (hasUI = false -> out_commits r = 0) /\
     revision (out_state r)
       = Nat.iter (out_commits r + (if hasUI then 1 else 0)) js_incr
           (revision st) /\
     (out_commits r = 1 -> (revision st < 2 ^ 53 - 1)%Z ->
      revision (out_state r) = (revision st + 2)%Z)) /\
  (forall id v st,
     let r := settingsChange getBgAnsi id v st in
     out_commits r <= 1 /\
     revision (out_state r) = Nat.iter (out_commits r) js_incr (revision st) /\
     (out_commits r = 1 -> (revision st < 2 ^ 53)%Z ->
      revision (out_state r) = (revision st + 1)%Z)) /\
  (forall o st,
     revision (sessionStart o st)
       = if enabled o then js_incr (revision st) else revision st) /\
  (forall st i, revisionApplied i = Some (revision st) ->
     syncRevision st i = i) /\
  (forall st i, revisionApplied i <> Some (revision st) ->
     unwrapped (syncRevision st i) = false /\
     themePatched (syncRevision st i) = false) /\
  (forall st i, settled st i ->
     unwrapRuns (patchMarkdownInstance i st) = unwrapRuns i /\
     themeWraps (patchMarkdownInstance i st) = themeWraps i) /\
  (forall st i w1 w2,
     let i1 := patched_render_prepare st i w1 in
     let i2 := patched_render_prepare st i1 w2 in
     unwrapRuns i2 = unwrapRuns i1 /\ themeWraps i2 = themeWraps i1 /\
     text i2 = text i1).
Proof.
  split; [reflexivity|].
  split; [|split; [|split; [|split; [|split; [|split; [|split; [|split]]]]]]].
  - intros es st. apply run_revision.
  - intros r H. rewrite revision_commit. now apply js_incr_lt.
  - intros hasUI args st. apply handler_bumps.
  - intros id v st. apply settings_bumps.
  - intros o st. unfold sessionStart. now destruct (enabled o).
  - exact syncRevision_same.
  - intros st i H. unfold syncRevision.
    destruct (revisionApplied i) as [r|] eqn:E; simpl; [|auto].
    destruct (Z.eqb_spec r (revision st)); simpl; [congruence|auto].
  - intros st i Hs. destruct (settled_stable st i Hs) as (H1 & H2 & _). auto.
  - intros st i w1 w2 i1 i2. unfold i2.
    destruct (enabled (options st)) eqn:He.
    + apply prepare_stable. unfold i1. now apply prepare_settles.
    + unfold patched_render_prepare, patchMarkdownInstance.
      rewrite He. simpl. auto.
Qed.

Lemma revision_spec_witness :
  revision (out_state (commit {| out_state := initialPatchState;
                                out_commits := 0; out_notes := [] |})) = 1%Z /\
  revision (out_state
    (renderMdCommandHandler (fun _ => None) true (lit "label on")
       initialPatchState)) = 2%Z /\
  revision (out_state
    (settingsChange (fun _ => None) (lit "code-label") (lit "on")
       initialPatchState)) = 1%Z /\
  syncRevision initialPatchState
    (patched_render_prepare initialPatchState
       (freshInstance (lit "x") (Some plainTheme)) 80)
  = patched_render_prepare initialPatchState
      (freshInstance (lit "x") (Some plainTheme)) 80 /\
  unwrapped (syncRevision initialPatchState
               (freshInstance (lit "x") (Some plainTheme))) = false /\
  unwrapRuns
    (patchMarkdownInstance
       (patched_render_prepare initialPatchState
          (freshInstance (lit "x") (Some plainTheme)) 80)
       initialPatchState) = 1.
Proof.
  destruct (revision_spec (fun _ => None))
    as (_ & _ & H3 & Hc & Hs & _ & H4 & H5 & H6 & _).
  split; [|split; [|split; [|split; [|split]]]].
  - apply H3. simpl. lia.
  - apply (proj2 (proj2 (proj2
      (Hc true (lit "label on") initialPatchState)))).
    + reflexivity.
    + simpl. lia.
  - apply (proj2 (proj2
      (Hs (lit "code-label") (lit "on") initialPatchState))).
    + reflexivity.
    + simpl. lia.
  - apply H4. reflexivity.
  - apply H5. discriminate.
  - assert (Hs' : settled initialPatchState
                    (patched_render_prepare initialPatchState
                       (freshInstance (lit "x") (Some plainTheme)) 80)).
    { split; [reflexivity|]. split; intros _; reflexivity. }
    rewrite (proj1 (H6 _ _ Hs')). reflexivity.
Defined.

(** C7 as worded fails: a committed change does not always raise the
    revision by exactly one.  [label on], given as a command, changes
    one setting and commits once, and takes the revision from 0 to 2. *)
Lemma revision_command_counterexample :
  out_commits
    (renderMdCommandHandler (fun _ => None) true (lit "label on")
       initialPatchState) = 1 /\
  showCodeFenceLanguageLabel (options initialPatchState) = false /\
  showCodeFenceLanguageLabel
    (options (out_state
       (renderMdCommandHandler (fun _ => None) true (lit "label on")
          initialPatchState))) = true /\
  revision initialPatchState = 0%Z /\
  revision (out_state
    (renderMdCommandHandler (fun _ => None) true (lit "label on")
       initialPatchState)) = 2%Z /\
  revision (out_state
    (renderMdCommandHandler (fun _ => None) true (lit "label on")
       initialPatchState))
  <> (revision initialPatchState + 1)%Z.
Proof.
  split; [reflexivity|]. split; [reflexivity|]. split; [reflexivity|].
  split; [reflexivity|]. split; [reflexivity|].
  vm_compute. discriminate.
Qed.

(** ** Fenced text *)

Lemma trimStart_id x s : is_ws x = false -> trimStart (x :: s) = x :: s.
Proof. intros H. simpl. now rewrite H. Qed.

Lemma trimEnd_id x s : is_ws x = false -> trimEnd (s ++ [x]) = s ++ [x].
Proof.
  intros H. unfold trimEnd. rewrite rev_app_distr. simpl. rewrite H.
  simpl. now rewrite rev_involutive.
Qed.

Lemma fenced_snoc lang body :
  fenced lang body = (bt3 ++ lang ++ LF :: body ++ [LF; BT; BT]) ++ [BT].
Proof.
  unfold fenced, bt3.
  repeat (rewrite <- app_assoc; cbn [app]). reflexivity.
Qed.

Lemma trim_fenced lang body : trim (fenced lang body) = fenced lang body.
Proof.
  unfold trim.
  assert (H : trimStart (fenced lang body) = fenced lang body) by reflexivity.
  rewrite H, fenced_snoc. apply trimEnd_id. reflexivity.
Qed.

Lemma fenced_head_clean lang body : head_clean (fenced lang body).
Proof. reflexivity. Qed.

Lemma fenced_no_final_cr lang body : no_final_cr (fenced lang body).
Proof.
  unfold no_final_cr. rewrite fenced_snoc, rev_app_distr. simpl. discriminate.
Qed.

Lemma fenced_shape lang body :
  is_lang lang -> fence_shape (fenced lang body) body.
Proof.
  intros Hl. exists [], lang, [], [LF], [LF], [].
  split; [unfold fenced; cbn [app]; rewrite app_nil_r; reflexivity|].
  split; [constructor|]. split; [exact Hl|]. split; [constructor|].
  split; [left; reflexivity|]. split; [left; reflexivity|constructor].
Qed.

Lemma head_clean_ws x r : head_clean (x :: r) -> is_ws x = true -> False.
Proof. simpl. congruence. Qed.

(** A fenced text whose body neither begins with whitespace nor ends
    with a carriage return can be read as a fence in one way only. *)
Lemma fenced_unique lang body inner :
  is_lang lang -> head_clean body -> no_final_cr body ->
  fence_shape (fenced lang body) inner -> inner = body.
Proof.
  intros Hl Hh Hc H. apply header_iff in H.
  destruct H as (t1 & n & t2 & E1 & E2 & Ht).
  apply strip_ci_bt3 in E1. unfold fenced in E1. apply app_inv_head in E1.
  subst t1.
  destruct (is_lang_head _ Hl) as (x & w' & Ex & Hx).
  assert (Hspan : span is_ws (lang ++ LF :: body ++ LF :: bt3) = 0).
  { rewrite Ex. simpl. now rewrite Hx. }
  rewrite Hspan in E2. simpl skipn in E2.
  assert (E3 : strip_lang (lang ++ LF :: body ++ LF :: bt3)
               = Some (length lang, LF :: body ++ LF :: bt3)).
  { apply strip_lang_iff. exists lang. auto. }
  rewrite E3 in E2. inversion E2; subst n t2. clear E2 E3 Hspan.
  destruct Ht as (ws2 & lb1 & lb2 & ws3 & E & H2 & Hb1 & Hb2 & H3).
  assert (Hw3 : ws3 = []).
  { apply ends_clean_ws; auto.
    apply (ends_clean_suffix (ws2 ++ lb1 ++ inner ++ lb2 ++ bt3)).
    rewrite <- !app_assoc, <- E.
    unfold ends_clean.
    replace (LF :: body ++ LF :: bt3) with ((LF :: body ++ [LF; BT; BT]) ++ [BT]).
    - rewrite rev_app_distr. reflexivity.
    - cbn [app]. rewrite <- app_assoc. reflexivity. }
  subst ws3. rewrite app_nil_r in E.
  assert (E' : (LF :: body ++ [LF]) ++ bt3 = (ws2 ++ lb1 ++ inner ++ lb2) ++ bt3).
  { rewrite <- !app_assoc. simpl. rewrite <- app_assoc. exact E. }
  apply app_inv_tail in E'. clear E.
  assert (E : LF :: body = ws2 ++ lb1 ++ inner /\ lb2 = [LF]).
  { destruct Hb2 as [->| ->].
    - split; [|reflexivity].
      assert (F : (LF :: body) ++ [LF] = (ws2 ++ lb1 ++ inner) ++ [LF])
        by (rewrite <- !app_assoc; exact E').
      now apply app_inv_tail in F.
    - exfalso.
      assert (F : (LF :: body) ++ [LF] = (ws2 ++ lb1 ++ inner ++ [CR]) ++ [LF])
        by (rewrite <- !app_assoc; exact E').
      apply app_inv_tail in F.
      apply (f_equal (@rev N)) in F.
      rewrite !app_assoc, rev_app_distr in F. simpl in F.
      unfold no_final_cr in Hc.
      destruct (rev body) as [|y r]; simpl in F; inversion F; subst;
        try discriminate; now apply Hc. }
  destruct E as (E & _). clear E'.
  destruct ws2 as [|a ws2].
  - destruct Hb1 as [->| ->]; simpl in E; inversion E; subst; auto.
  - exfalso. simpl in E. inversion E; subst.
    inversion H2 as [|? ? Ha H2']; subst.
    destruct ws2 as [|b ws2].
    + destruct Hb1 as [->| ->]; simpl in Hh; discriminate.
    + inversion H2' as [|? ? Hb _]; subst. simpl in Hh. congruence.
Qed.

Lemma strip_fenced lang body :
  is_lang lang -> head_clean body -> no_final_cr body ->
  stripOuterMarkdownFence (fenced lang body) = body.
Proof.
  intros Hl Hh Hc.
  destruct (strip_analysis (fenced lang body))
    as [(t1 & n & t2 & j & m & c & j3 & E1 & E2 & _ & Hj & Elb & H3 &
         Hcl & _ & _ & ->)|(Hno & _)].
  - rewrite trim_fenced in E1.
    apply (fenced_unique lang body); auto.
    exact (matched_shape _ _ _ _ _ _ _ _ E1 E2 Hj Elb H3 Hcl).
  - exfalso. rewrite trim_fenced in Hno.
    exact (Hno body (fenced_shape lang body Hl)).
Qed.

(** ** C9: [setText] followed by a render *)

Lemma unwrapOnce_text st i :
  unwrapOuterMarkdownFence (options st) = true -> unwrapped i = false ->
  text (unwrapOnce st i) = stripOuterMarkdownFence (text i).
Proof.
  intros Hu Hf. unfold unwrapOnce. rewrite Hu, Hf. simpl.
  destruct (str_eqb _ _) eqn:E; simpl; [|reflexivity].
  apply str_eqb_eq in E. now rewrite E.
Qed.

Lemma syncRevision_text st i :
  text (syncRevision st i) = text i /\
  (unwrapped i = false -> unwrapped (syncRevision st i) = false).
Proof.
  unfold syncRevision. destruct (negb _); simpl; auto.
Qed.

(** C9.  With the patch and unwrapping enabled, the patched [setText]
    stores the unwrapped text and clears the [unwrapped] flag, and the
    next render unwraps the stored text once more: the instance then
    holds [stripOuterMarkdownFence] applied twice to the text given.  For
    a text wrapped in two outer fences, around a body that neither begins
    with whitespace nor ends with a carriage return, that is the body:
    both fences are removed. *)
Theorem setText_then_render (st : PatchState) (i : Instance) (input : str)
    (width : Z) :
  enabled (options st) = true ->
  unwrapOuterMarkdownFence (options st) = true ->
  let i1 := patched_setText st i input in
  let i2 := patched_render_prepare st i1 width in
  text i1 = stripOuterMarkdownFence input /\
  unwrapped i1 = false /\
  text i2 = stripOuterMarkdownFence (stripOuterMarkdownFence input) /\
  (forall lang1 lang2 body,
     is_lang lang1 -> is_lang lang2 ->
     head_clean body -> no_final_cr body ->
     input = fenced lang1 (fenced lang2 body) ->
     text i2 = body).
Proof.
  intros He Hu i1 i2.
  assert (H1 : text i1 = stripOuterMarkdownFence input).
  { unfold i1, patched_setText. now rewrite He, Hu. }
  assert (H2 : unwrapped i1 = false) by reflexivity.
  assert (H3 : text i2
               = stripOuterMarkdownFence (stripOuterMarkdownFence input)).
  { unfold i2, patched_render_prepare, patchMarkdownInstance. cbv zeta.
    rewrite He. simpl negb. cbv iota.
    set (i0 := set_contentWidth _ i1).
    destruct (patchTheme_fields st (unwrapOnce st (syncRevision st i0)))
      as (_ & _ & Ht & _).
    destruct (syncRevision_text st i0) as (Hs1 & Hs2).
    assert (Hw : text i0 = text i1) by reflexivity.
    rewrite Ht, unwrapOnce_text; auto.
    now rewrite Hs1, Hw, H1. }
  repeat split; auto.
  intros lang1 lang2 body Hl1 Hl2 Hh Hc ->.
  rewrite H3.
  rewrite (strip_fenced lang1 (fenced lang2 body) Hl1
             (fenced_head_clean _ _) (fenced_no_final_cr _ _)).
  exact (strip_fenced lang2 body Hl2 Hh Hc).
Qed.

Lemma setText_then_render_witness :
  text (patched_render_prepare initialPatchState
          (patched_setText initialPatchState
             (freshInstance [] (Some plainTheme))
             (fenced (lit "markdown") (fenced (lit "md") (lit "# Title"))))
          80)
  = lit "# Title".
Proof.
  destruct (setText_then_render initialPatchState
              (freshInstance [] (Some plainTheme))
              (fenced (lit "markdown") (fenced (lit "md") (lit "# Title")))
              80 eq_refl eq_refl) as (_ & _ & _ & H).
  apply (H (lit "markdown") (lit "md") (lit "# Title")).
  - left. reflexivity.
  - right. reflexivity.
  - reflexivity.
  - simpl. discriminate.
  - reflexivity.
Defined.

(* ================================================================== *)
(** ** Command-line mode *)
(* ================================================================== *)

Lemma cli_cons a rest :
  getCliModeFromArgv (a :: rest) =
  match rest with
  | v :: _ =>
      if str_eqb a (lit "--mode") then
        match mode_of v with
        | Some m => Some m
        | None => getCliModeFromArgv rest
        end
      else getCliModeFromArgv rest
  | [] => None
  end.
Proof.
  destruct rest as [|v r]; cbn [getCliModeFromArgv]; [|reflexivity].
  now destruct (str_eqb a (lit "--mode")).
Qed.

Lemma str_eqb_refl a : str_eqb a a = true.
Proof. now apply str_eqb_eq. Qed.

Lemma str_eqb_neq a b : str_eqb a b = false <-> a <> b.
Proof.
  split.
  - intros H E. apply str_eqb_eq in E. congruence.
  - intros H. destruct (str_eqb a b) eqn:E; [|reflexivity].
    apply str_eqb_eq in E. contradiction.
Qed.

(** X1.  [getCliModeFromArgv] returns the value of the first [--mode]
    argument whose next argument is one of [text], [json] and [rpc]: a
    [--mode] followed by anything else is passed over and the scan goes
    on.  It returns nothing exactly when no [--mode] is followed by one
    of the three words. *)
Theorem getCliModeFromArgv_first (argv : list str) :
  match getCliModeFromArgv argv with
  | Some m =>
      exists pre v post,
        argv = pre ++ lit "--mode" :: v :: post /\ mode_of v = Some m /\
        forall pre' v' post',
          argv = pre' ++ lit "--mode" :: v' :: post' ->
          length pre' < length pre -> mode_of v' = None
  | None =>
      forall pre v post,
        argv = pre ++ lit "--mode" :: v :: post -> mode_of v = None
  end.
Proof.
  induction argv as [|a rest IH].
  - simpl. intros [|x pre] v post H; discriminate.
  - rewrite cli_cons. destruct rest as [|v0 r].
    { intros pre v post H. apply (f_equal (@length _)) in H.
      rewrite length_app in H. simpl in H. lia. }
    assert (Hskip :
      (str_eqb a (lit "--mode") = true -> mode_of v0 = None) ->
      match getCliModeFromArgv (v0 :: r) with
      | Some m =>
          exists pre v post,
            a :: v0 :: r = pre ++ lit "--mode" :: v :: post /\
            mode_of v = Some m /\
            forall pre' v' post',
              a :: v0 :: r = pre' ++ lit "--mode" :: v' :: post' ->
              length pre' < length pre -> mode_of v' = None
      | None =>
          forall pre v post,
            a :: v0 :: r = pre ++ lit "--mode" :: v :: post -> mode_of v = None
      end).
    { intros Hhead. destruct (getCliModeFromArgv (v0 :: r)) as [m|].
      - destruct IH as (pre & v & post & E & M & Hmin).
        exists (a :: pre), v, post. split; [simpl; now rewrite E|].
        split; [exact M|]. intros [|x pre'] v' post' E' Hlen.
        + simpl in E'. inversion E'; subst. apply Hhead. apply str_eqb_refl.
        + simpl in E'. inversion E' as [[Ea Er]].
          apply (Hmin pre' v' post'); [now rewrite <- Er|simpl in Hlen; lia].
      - intros [|x pre] v post E.
        + simpl in E. inversion E; subst. apply Hhead. apply str_eqb_refl.
        + simpl in E. inversion E as [[Ea Er]]. now apply (IH pre v post). }
    destruct (str_eqb a (lit "--mode")) eqn:Ea.
    + destruct (mode_of v0) as [m|] eqn:M.
      * apply str_eqb_eq in Ea. subst a.
        exists [], v0, r. split; [reflexivity|]. split; [exact M|].
        intros pre' v' post' _ Hlen. simpl in Hlen. lia.
      * apply Hskip. auto.
    + apply Hskip. discriminate.
Qed.

(* ================================================================== *)
(** ** Messages *)
(* ================================================================== *)

Lemma findLast_from_spec messages : forall n,
  match findLast_from messages n with
  | Some i =>
      i < n /\
      (exists m, nth_error messages i = Some m /\ is_assistant m = true) /\
      forall j m', i < j -> j < n -> nth_error messages j = Some m' ->
        is_assistant m' = false
  | None =>
      forall j m', j < n -> nth_error messages j = Some m' ->
        is_assistant m' = false
  end.
Proof.
  induction n as [|n IH]; simpl.
  - intros j m' H. lia.
  - assert (Hskip :
      (forall m', nth_error messages n = Some m' -> is_assistant m' = false) ->
      match findLast_from messages n with
      | Some i =>
          i < S n /\
          (exists m, nth_error messages i = Some m /\ is_assistant m = true) /\
          forall j m', i < j -> j < S n -> nth_error messages j = Some m' ->
            is_assistant m' = false
      | None =>
          forall j m', j < S n -> nth_error messages j = Some m' ->
            is_assistant m' = false
      end).
    { intros Hn. destruct (findLast_from messages n) as [i|].
      - destruct IH as (Hi & Hm & Hafter). split; [lia|]. split; [exact Hm|].
        intros j m' H1 H2 E. destruct (Nat.eq_dec j n) as [->|Hne].
        + now apply Hn.
        + apply (Hafter j m'); auto. lia.
      - intros j m' H1 E. destruct (Nat.eq_dec j n) as [->|Hne].
        + now apply Hn.
        + apply (IH j m'); auto. lia. }
    destruct (nth_error messages n) as [msg|] eqn:E.
    + destruct (is_assistant msg) eqn:A.
      * split; [lia|]. split; [eauto|]. intros j m' H1 H2. lia.
      * apply Hskip. intros m' Em. now inversion Em; subst.
    + apply Hskip. discriminate.
Qed.

Lemma findLast_index messages i m :
  last_assistant_at messages i m -> findLastAssistantIndex messages = Some i.
Proof.
  intros (E & A & Hafter). unfold findLastAssistantIndex.
  assert (Hi : i < length messages).
  { apply nth_error_Some. rewrite E. discriminate. }
  assert (H := findLast_from_spec messages (length messages)).
  destruct (findLast_from messages (length messages)) as [k|].
  - destruct H as (Hk & (mk & Ek & Ak) & Hk2).
    destruct (Nat.lt_trichotomy k i) as [Hlt|[->|Hgt]]; [| reflexivity |].
    + rewrite (Hk2 i m Hlt Hi E) in A. discriminate.
    + rewrite (Hafter k mk Hgt Ek) in Ak. discriminate.
  - rewrite (H i m Hi E) in A. discriminate.
Qed.

(** X2.  [findLastAssistantMessage] returns the assistant message with
    the highest index: no message after it has the role [assistant].
    It returns nothing exactly when no message has that role. *)
Theorem findLastAssistantMessage_spec (messages : list Message) :
  match findLastAssistantMessage messages with
  | Some m =>
      exists pre post,
        messages = pre ++ m :: post /\ is_assistant m = true /\
        Forall (fun x => is_assistant x = false) post
  | None => Forall (fun x => is_assistant x = false) messages
  end.
Proof.
  unfold findLastAssistantMessage, findLastAssistantIndex.
  assert (H := findLast_from_spec messages (length messages)).
  destruct (findLast_from messages (length messages)) as [i|].
  - destruct H as (Hi & (m & E & A) & Hafter). rewrite E.
    destruct (nth_error_split messages i E) as (pre & post & Em & Hl).
    exists pre, post. split; [exact Em|]. split; [exact A|].
    apply Forall_forall. intros x Hx.
    destruct (In_nth_error post x Hx) as (k & Ek).
    assert (Ex : nth_error messages (S (i + k)) = Some x).
    { rewrite Em. rewrite nth_error_app2 by lia.
      replace (S (i + k) - length pre) with (S k) by lia. exact Ek. }
    apply (Hafter (S (i + k)) x); [lia| |exact Ex].
    apply nth_error_Some. rewrite Ex. discriminate.
  - apply Forall_forall. intros x Hx.
    destruct (In_nth_error messages x Hx) as (k & Ek).
    apply (H k x); [|exact Ek]. apply nth_error_Some. rewrite Ek. discriminate.
Qed.

(* ================================================================== *)
(** ** The [agent_end] and [context] handlers *)
(* ================================================================== *)

Lemma set_nth_split {A} (x : A) : forall l i y,
  nth_error l i = Some y -> set_nth i x l = firstn i l ++ x :: skipn (S i) l.
Proof.
  induction l as [|z l IH]; intros [|i] y E; simpl in *; try discriminate.
  - reflexivity.
  - now rewrite (IH i y E).
Qed.

Lemma set_nth_same {A} : forall (l : list A) i y,
  nth_error l i = Some y -> set_nth i y l = l.
Proof.
  induction l as [|z l IH]; intros [|i] y E; simpl in *; try discriminate.
  - now inversion E.
  - now rewrite (IH i y E).
Qed.

Lemma replaceFirstText_split t cpre b cpost :
  Forall (fun c => is_text c = false) cpre -> is_text b = true ->
  replaceFirstText t (cpre ++ b :: cpost) =
  (cpre ++ {| btype := btype b; btext := t |} :: cpost, true).
Proof.
  intros Hpre Hb. induction Hpre as [|c cpre Hc Hpre IH]; simpl.
  - now rewrite Hb.
  - now rewrite Hc, IH.
Qed.

Lemma first_text_split blocks :
  List.filter is_text blocks <> [] ->
  exists cpre b cpost,
    blocks = cpre ++ b :: cpost /\
    Forall (fun c => is_text c = false) cpre /\ is_text b = true.
Proof.
  induction blocks as [|c blocks IH]; simpl; [congruence|].
  destruct (is_text c) eqn:E.
  - intros _. exists [], c, blocks. auto.
  - intros H. destruct (IH H) as (cpre & b & cpost & -> & Hpre & Hb).
    exists (c :: cpre), b, cpost. auto.
Qed.

Lemma filter_nontext cpre :
  Forall (fun c => is_text c = false) cpre -> List.filter is_text cpre = [].
Proof.
  induction 1 as [|c cpre Hc _ IH]; simpl; [reflexivity|]. now rewrite Hc.
Qed.

Lemma blank_iff s : truthy (trim s) = false <-> all_ws s.
Proof.
  rewrite <- trim_nil_iff. destruct (trim s); simpl; split; congruence.
Qed.

Lemma text_present m :
  ~ all_ws (extractAssistantText m) -> List.filter is_text (content m) <> [].
Proof.
  intros H E. apply H. unfold extractAssistantText. rewrite E. constructor.
Qed.

Lemma print_active_true env :
  print_active env = true ->
  env_hasUI env = false /\
  getCliModeFromArgv (env_argv env) <> Some ModeJson /\
  getCliModeFromArgv (env_argv env) <> Some ModeRpc /\
  is_true (flag_commonmark env) = true /\
  is_true (flag_no_commonmark env) = false.
Proof.
  unfold print_active. rewrite !andb_true_iff, !negb_true_iff.
  intros (((H1 & H2) & H3) & H4).
  repeat split; auto; intros E; rewrite E in H2; discriminate.
Qed.

(** X3.  The [agent_end] handler leaves the messages and the stored
    originals exactly as they are when a UI is attached, when the
    command line selects the [json] or [rpc] mode, when the
    [commonmark] flag is not [true] or [no-commonmark] is, when there
    is no assistant message, and when the last assistant message holds
    a tool call or no text other than whitespace. *)
Theorem agentEnd_untouched (md_render : str -> Z -> MarkdownTheme -> list str)
    (base : MarkdownTheme) (env : PrintEnv) (messages : list Message)
    (originals : TextMap) :
  print_active env = false \/
  findLastAssistantMessage messages = None \/
  (exists m, findLastAssistantMessage messages = Some m /\
     (hasToolCalls m = true \/ all_ws (extractAssistantText m))) ->
  agentEnd md_render base env messages originals = (messages, originals).
Proof.
  unfold agentEnd, print_active, findLastAssistantMessage.
  destruct (env_hasUI env); [reflexivity|]. simpl negb. cbv zeta.
  destruct (getCliModeFromArgv (env_argv env)) as [[| |]|];
    try reflexivity;
    (destruct (is_true (flag_commonmark env)); simpl; [|reflexivity]);
    (destruct (is_true (flag_no_commonmark env)); simpl; [reflexivity|]);
    (destruct (findLastAssistantIndex messages) as [i|]; [|reflexivity]);
    (destruct (nth_error messages i) as [m|]; [|reflexivity]);
    (intros [H|[H|(m' & H & Hm)]]; try discriminate);
    (inversion H; subst m');
    (destruct Hm as [Ht|Hw];
     [ now rewrite Ht
     | destruct (hasToolCalls m); [reflexivity|];
       apply blank_iff in Hw; now rewrite Hw ]).
Qed.

Lemma agentEnd_untouched_witness :
  agentEnd (fun s _ _ => [s]) plainTheme
    {| env_hasUI := false;
       env_argv := [lit "pi"; lit "--mode"; lit "json"];
       flag_commonmark := VBoolean true; flag_no_commonmark := VBoolean false;
       flag_commonmark_width := VString (lit "auto");
       flag_commonmark_style := VString (lit "auto");
       stdout_columns := None; stdout_isTTY := None |}
    [{| role := "assistant"; timestamp := 1;
        content := [{| btype := "text"; btext := lit "# Hi" |}] |}] []
  = ([{| role := "assistant"; timestamp := 1;
         content := [{| btype := "text"; btext := lit "# Hi" |}] |}], []).
Proof.
  apply agentEnd_untouched. left. reflexivity.
Defined.

Lemma agentEnd_acts md_render base env messages originals i m :
  print_active env = true -> last_assistant_at messages i m ->
  hasToolCalls m = false -> ~ all_ws (extractAssistantText m) ->
  exists cpre b cpost,
    content m = cpre ++ b :: cpost /\
    Forall (fun c => is_text c = false) cpre /\ is_text b = true /\
    agentEnd md_render base env messages originals =
      (firstn i messages ++
       with_content
         (cpre ++
          {| btype := btype b;
             btext := renderMarkdownToTerminal md_render
                        (extractAssistantText m) (resolveWidth env)
                        (printTheme base env) |} :: cpost) m
       :: skipn (S i) messages,
       map_set (timestamp m) (extractAssistantText m) originals).
Proof.
  intros Ha Hl Ht Hw.
  destruct (first_text_split (content m) (text_present m Hw))
    as (cpre & b & cpost & Ec & Hpre & Hb).
  exists cpre, b, cpost. split; [exact Ec|]. split; [exact Hpre|].
  split; [exact Hb|].
  destruct (print_active_true env Ha) as (H1 & H2 & H3 & H4 & H5).
  unfold agentEnd. rewrite H1, H4, H5. simpl negb. cbv zeta.
  rewrite (findLast_index messages i m Hl).
  destruct Hl as (En & _ & _). rewrite En, Ht.
  assert (Hb2 : truthy (trim (extractAssistantText m)) = true).
  { destruct (truthy (trim (extractAssistantText m))) eqn:E; [reflexivity|].
    apply blank_iff in E. contradiction. }
  rewrite Hb2. simpl negb.
  rewrite Ec. rewrite (replaceFirstText_split _ cpre b cpost Hpre Hb).
  rewrite (set_nth_split _ messages i m En).
  destruct (getCliModeFromArgv (env_argv env)) as [[| |]|];
    try reflexivity; congruence.
Qed.

(** X4.  When the [agent_end] handler acts, it changes one thing in the
    messages: the text of the first text block of the last assistant
    message becomes the rendering of the message's text.  No block is
    added or removed, every other message is as before, and the text
    rendered is stored under the message's timestamp.  The width passed
    to the renderer is never below 20. *)
Theorem agentEnd_effect (md_render : str -> Z -> MarkdownTheme -> list str)
    (base : MarkdownTheme) (env : PrintEnv) (messages : list Message)
    (originals : TextMap) (i : nat) (m : Message) :
  print_active env = true -> last_assistant_at messages i m ->
  hasToolCalls m = false -> ~ all_ws (extractAssistantText m) ->
  let original := extractAssistantText m in
  let rendered :=
    renderMarkdownToTerminal md_render original (resolveWidth env)
      (printTheme base env) in
  (20 <= resolveWidth env)%Z /\
  exists cpre b cpost,
    content m = cpre ++ b :: cpost /\
    Forall (fun c => is_text c = false) cpre /\ is_text b = true /\
    agentEnd md_render base env messages originals =
      (firstn i messages ++
       with_content (cpre ++ {| btype := btype b; btext := rendered |} :: cpost) m
       :: skipn (S i) messages,
       map_set (timestamp m) original originals).
Proof.
  intros Ha Hl Ht Hw original rendered. split.
  - unfold resolveWidth. lia.
  - exact (agentEnd_acts md_render base env messages originals i m Ha Hl Ht Hw).
Qed.

Lemma example_reply_last : last_assistant_at example_messages 2 example_reply.
Proof.
  split; [reflexivity|]. split; [reflexivity|].
  intros [|[|[|[|j]]]] m' Hj E; simpl in E; try discriminate; lia.
Qed.

Lemma example_reply_text : ~ all_ws (extractAssistantText example_reply).
Proof. intros H. inversion H as [|x l Hx _]. discriminate. Qed.

Lemma agentEnd_effect_witness :
  let original := extractAssistantText example_reply in
  let rendered :=
    renderMarkdownToTerminal example_render original (resolveWidth example_env)
      (printTheme plainTheme example_env) in
  (20 <= resolveWidth example_env)%Z /\
  exists cpre b cpost,
    content example_reply = cpre ++ b :: cpost /\
    Forall (fun c => is_text c = false) cpre /\ is_text b = true /\
    agentEnd example_render plainTheme example_env example_messages [] =
      (firstn 2 example_messages ++
       with_content (cpre ++ {| btype := btype b; btext := rendered |} :: cpost)
         example_reply
       :: skipn 3 example_messages,
       map_set (timestamp example_reply) original []).
Proof.
  apply (agentEnd_effect example_render plainTheme example_env
           example_messages [] 2 example_reply).
  - reflexivity.
  - exact example_reply_last.
  - reflexivity.
  - exact example_reply_text.
Defined.

Lemma restore_other ts original x :
  (is_assistant x = true -> timestamp x <> ts) ->
  restoreMessage [(ts, original)] x = x.
Proof.
  intros H. unfold restoreMessage. destruct (is_assistant x); [|reflexivity].
  simpl. destruct (Z.eqb_spec ts (timestamp x)) as [E|E]; [|reflexivity].
  exfalso. apply (H eq_refl). now symmetry.
Qed.

Lemma restore_others ts original l :
  Forall (fun x => is_assistant x = true -> timestamp x <> ts) l ->
  List.map (restoreMessage [(ts, original)]) l = l.
Proof.
  induction 1 as [|x l Hx _ IH]; simpl; [reflexivity|].
  now rewrite (restore_other ts original x Hx), IH.
Qed.

Lemma unique_before messages i m :
  timestamp_unique messages i m ->
  Forall (fun x => is_assistant x = true -> timestamp x <> timestamp m)
    (firstn i messages).
Proof.
  intros Hu. apply Forall_forall. intros x Hx.
  destruct (In_nth_error _ x Hx) as (k & Ek).
  assert (Hk : k < i).
  { assert (H : k < length (firstn i messages)).
    { apply nth_error_Some. rewrite Ek. discriminate. }
    rewrite length_firstn in H. lia. }
  rewrite nth_error_firstn in Ek.
  destruct (Nat.ltb_spec k i) as [_|Hge]; [|lia].
  apply (Hu k x); [lia|exact Ek].
Qed.

Lemma unique_after messages i m :
  timestamp_unique messages i m ->
  Forall (fun x => is_assistant x = true -> timestamp x <> timestamp m)
    (skipn (S i) messages).
Proof.
  intros Hu. apply Forall_forall. intros x Hx.
  destruct (In_nth_error _ x Hx) as (k & Ek).
  rewrite nth_error_skipn in Ek.
  apply (Hu (S i + k) x); [lia|exact Ek].
Qed.

(** X5.  After the [agent_end] handler has acted on a message, the
    [context] handler (starting from an empty store, and with no other
    assistant message carrying the same timestamp) puts the joined text
    of all text blocks of the message back into its first text block
    and changes nothing else.  For a message with exactly one text block
    that restores the messages as they were before [agent_end]. *)
Theorem context_restores (md_render : str -> Z -> MarkdownTheme -> list str)
    (base : MarkdownTheme) (env : PrintEnv) (messages : list Message)
    (i : nat) (m : Message) :
  print_active env = true -> last_assistant_at messages i m ->
  hasToolCalls m = false -> ~ all_ws (extractAssistantText m) ->
  timestamp_unique messages i m ->
  let after := agentEnd md_render base env messages [] in
  contextHandler (snd after) (fst after) =
    Some (set_nth i
            (with_content
               (fst (replaceFirstText (extractAssistantText m) (content m))) m)
            messages) /\
  (length (textBlocks m) = 1 ->
   contextHandler (snd after) (fst after) = Some messages).
Proof.
  intros Ha Hl Ht Hw Hu after.
  destruct (agentEnd_acts md_render base env messages [] i m Ha Hl Ht Hw)
    as (cpre & b & cpost & Ec & Hpre & Hb & E).
  assert (En : nth_error messages i = Some m) by apply Hl.
  assert (Hm : is_assistant m = true) by apply Hl.
  assert (Hne : truthy (extractAssistantText m) = true).
  { destruct (extractAssistantText m) eqn:Ex; [|reflexivity].
    exfalso. apply Hw. constructor. }
  assert (Hmain : contextHandler (snd after) (fst after) =
    Some (set_nth i
            (with_content
               (fst (replaceFirstText (extractAssistantText m) (content m))) m)
            messages)).
  { unfold after. rewrite E. cbn [fst snd map_set]. unfold contextHandler.
    cbn [length Nat.eqb]. f_equal.
    rewrite map_app. cbn [List.map].
    rewrite (restore_others _ _ _ (unique_before messages i m Hu)).
    rewrite (restore_others _ _ _ (unique_after messages i m Hu)).
    rewrite (set_nth_split _ messages i m En). f_equal. f_equal.
    set (c1 := cpre ++ _ :: cpost).
    unfold restoreMessage.
    change (is_assistant (with_content c1 m)) with (is_assistant m).
    change (timestamp (with_content c1 m)) with (timestamp m).
    change (content (with_content c1 m)) with c1.
    rewrite Hm. simpl negb. cbv iota. cbn [map_get]. rewrite Z.eqb_refl.
    rewrite Hne. simpl negb. cbv iota. unfold c1.
    rewrite (replaceFirstText_split _ cpre
               {| btype := btype b;
                  btext := renderMarkdownToTerminal md_render
                             (extractAssistantText m) (resolveWidth env)
                             (printTheme base env) |} cpost Hpre Hb).
    rewrite Ec. rewrite (replaceFirstText_split _ cpre b cpost Hpre Hb).
    reflexivity. }
  split; [exact Hmain|].
  intros H1. rewrite Hmain. f_equal.
  assert (Hx : extractAssistantText m = btext b).
  { unfold textBlocks in H1. unfold extractAssistantText.
    rewrite Ec in *. rewrite filter_app in *. cbn [List.filter] in *.
    rewrite Hb in *. rewrite (filter_nontext cpre Hpre) in *.
    cbn [app length] in H1.
    destruct (List.filter is_text cpost); [reflexivity|discriminate]. }
  rewrite Hx, Ec, (replaceFirstText_split _ cpre b cpost Hpre Hb).
  cbn [fst]. replace {| btype := btype b; btext := btext b |} with b
    by now destruct b.
  rewrite <- Ec. replace (with_content (content m) m) with m by now destruct m.
  exact (set_nth_same messages i m En).
Qed.

Lemma example_reply_unique : timestamp_unique example_messages 2 example_reply.
Proof.
  intros [|[|[|[|j]]]] m' Hj E A; simpl in E; try discriminate.
  - inversion E; subst. discriminate.
  - inversion E; subst. simpl. discriminate.
  - now contradiction Hj.
Qed.

Lemma context_restores_witness :
  contextHandler
    (snd (agentEnd example_render plainTheme example_env example_messages []))
    (fst (agentEnd example_render plainTheme example_env example_messages []))
  = Some example_messages.
Proof.
  refine (proj2 (context_restores example_render plainTheme example_env
                   example_messages 2 example_reply _ _ _ _ _) _).
  - reflexivity.
  - exact example_reply_last.
  - reflexivity.
  - exact example_reply_text.
  - exact example_reply_unique.
  - reflexivity.
Defined.

(* ================================================================== *)
(** ** Words and keys of the configuration *)
(* ================================================================== *)

Lemma trimStart_fix s : head_clean s -> trimStart s = s.
Proof. destruct s as [|x s]; simpl; [reflexivity|]. now intros ->. Qed.

Lemma trimStart_idem s : trimStart (trimStart s) = trimStart s.
Proof. apply trimStart_fix. exact (trimStart_head s). Qed.

Lemma trimEnd_idem s : trimEnd (trimEnd s) = trimEnd s.
Proof. unfold trimEnd. now rewrite rev_involutive, trimStart_idem. Qed.

Lemma trimEnd_head s : head_clean s -> head_clean (trimEnd s).
Proof.
  intros H. destruct (trimEnd_prefix s) as (q & E).
  destruct (trimEnd s) as [|x t]; simpl; [exact I|].
  rewrite E in H. exact H.
Qed.

Lemma trim_idem s : trim (trim s) = trim s.
Proof.
  unfold trim at 1.
  rewrite (trimStart_fix (trim s)).
  - unfold trim. apply trimEnd_idem.
  - unfold trim. apply trimEnd_head. exact (trimStart_head s).
Qed.

Lemma is_ws_lower c : is_ws (lower c) = is_ws c.
Proof.
  unfold lower. destruct ((65 <=? c) && (c <=? 90))%N eqn:E; [|reflexivity].
  apply andb_true_iff in E. destruct E as [E1 E2].
  apply N.leb_le in E1. apply N.leb_le in E2.
  destruct (is_ws c) eqn:W1; [apply ws_range in W1; lia|].
  destruct (is_ws (c + 32)) eqn:W2; [apply ws_range in W2; lia|reflexivity].
Qed.

Lemma lower_idem c : lower (lower c) = lower c.
Proof.
  unfold lower. destruct ((65 <=? c) && (c <=? 90))%N eqn:E; [|now rewrite E].
  apply andb_true_iff in E. destruct E as [E1 E2].
  apply N.leb_le in E1. apply N.leb_le in E2.
  destruct ((65 <=? c + 32) && (c + 32 <=? 90))%N eqn:E'; [|reflexivity].
  apply andb_true_iff in E'. destruct E' as [_ E4]. apply N.leb_le in E4. lia.
Qed.

Lemma toLowerCase_idem s : toLowerCase (toLowerCase s) = toLowerCase s.
Proof.
  unfold toLowerCase. rewrite map_map. apply map_ext. exact lower_idem.
Qed.

Lemma trimStart_lower s : trimStart (toLowerCase s) = toLowerCase (trimStart s).
Proof.
  unfold toLowerCase. induction s as [|x s IH]; simpl; [reflexivity|].
  rewrite is_ws_lower. now destruct (is_ws x).
Qed.

Lemma trim_lower s : trim (toLowerCase s) = toLowerCase (trim s).
Proof.
  unfold trim, trimEnd. rewrite trimStart_lower. unfold toLowerCase.
  rewrite <- map_rev. fold (toLowerCase (rev (trimStart s))).
  rewrite trimStart_lower. unfold toLowerCase. now rewrite map_rev.
Qed.

(** X6.  [parseOnOff] on a string looks at the trimmed, lower-cased
    text only: trimming the string or lowering its ASCII letters
    beforehand changes nothing.  Its answer is either the default, or a
    value that does not depend on the default. *)
Theorem parseOnOff_words (s : str) (d : bool) :
  parseOnOff (VString (trim s)) d = parseOnOff (VString s) d /\
  parseOnOff (VString (toLowerCase s)) d = parseOnOff (VString s) d /\
  (parseOnOff (VString s) d = d \/
   forall d', parseOnOff (VString s) d' = parseOnOff (VString s) d).
Proof.
  split; [|split].
  - unfold parseOnOff. now rewrite trim_idem.
  - unfold parseOnOff. now rewrite trim_lower, toLowerCase_idem.
  - unfold parseOnOff.
    destruct (one_of _ ["1"; "true"; "on"; "yes"; "y"]%string); [now right|].
    destruct (one_of _ ["0"; "false"; "off"; "no"; "n"]%string); [now right|].
    now left.
Qed.

Lemma normalizeBgKey_some v k :
  normalizeBgKey v = Some k ->
  exists s, v = VString s /\ k = trim s /\ k <> [] /\
    one_of (toLowerCase k) ["off"; "none"; "0"; "false"]%string = false.
Proof.
  unfold normalizeBgKey. destruct v as [| | |s|]; try discriminate.
  cbv zeta. destruct (trim s) as [|c t] eqn:E; cbn [truthy negb];
    [discriminate|].
  destruct (one_of (toLowerCase (c :: t)) ["off"; "none"; "0"; "false"]%string)
    eqn:O; [discriminate|].
  intros H. inversion H; subst k. exists s. rewrite E. repeat split; auto.
  discriminate.
Qed.

Lemma normalizeBgKey_idem v k :
  normalizeBgKey v = Some k -> normalizeBgKey (VString k) = Some k.
Proof.
  intros H. destruct (normalizeBgKey_some v k H) as (s & -> & Ek & Hne & Ho).
  unfold normalizeBgKey. rewrite Ek, trim_idem, <- Ek.
  destruct k as [|c t]; [contradiction|]. simpl truthy. simpl negb. cbv iota.
  now rewrite Ho.
Qed.

(** X7.  A key that [normalizeBgKey] returns is the trimmed input: it is
    not empty, has no whitespace at either end, is none of the words
    [off], [none], [0] and [false] in any letter case, and is returned
    unchanged when normalized again. *)
Theorem normalizeBgKey_key (v : JsValue) (k : str) :
  normalizeBgKey v = Some k ->
  (exists s, v = VString s /\ k = trim s) /\
  k <> [] /\ trim k = k /\
  one_of (toLowerCase k) ["off"; "none"; "0"; "false"]%string = false /\
  normalizeBgKey (VString k) = Some k.
Proof.
  intros H. destruct (normalizeBgKey_some v k H) as (s & Ev & Ek & Hne & Ho).
  split; [eauto|]. split; [exact Hne|]. split.
  - rewrite Ek. apply trim_idem.
  - split; [exact Ho|]. exact (normalizeBgKey_idem v k H).
Qed.

Lemma normalizeBgKey_key_witness :
  normalizeBgKey (VString (lit "selectedBg")) = Some (lit "selectedBg").
Proof.
  apply (normalizeBgKey_key (VString (lit "  selectedBg ")) (lit "selectedBg")).
  reflexivity.
Defined.

(* ================================================================== *)
(** ** Persisted settings *)
(* ================================================================== *)

Lemma readEntry_skip latest x :
  settings_entry x = false -> readEntry latest x = latest.
Proof.
  destruct x as [e|]; simpl; [|reflexivity]. unfold readEntry.
  destruct (String.eqb (entry_type e) "custom"); simpl; [|reflexivity].
  destruct (String.eqb (customType e) SETTINGS_ENTRY_TYPE); simpl;
    [discriminate|].
  destruct (String.eqb (customType e) LEGACY_SETTINGS_ENTRY_TYPE); simpl;
    [discriminate|reflexivity].
Qed.

Lemma readEntry_take latest e :
  settings_entry (Some e) = true -> readEntry latest (Some e) = data e.
Proof.
  simpl. unfold readEntry.
  destruct (String.eqb (entry_type e) "custom"); simpl; [|discriminate].
  destruct (String.eqb (customType e) SETTINGS_ENTRY_TYPE); simpl;
    [reflexivity|].
  destruct (String.eqb (customType e) LEGACY_SETTINGS_ENTRY_TYPE); simpl;
    [reflexivity|discriminate].
Qed.

Lemma read_skip later : forall latest,
  Forall (fun x => settings_entry x = false) later ->
  fold_left readEntry later latest = latest.
Proof.
  induction later as [|x later IH]; intros latest H; cbn [fold_left];
    [reflexivity|].
  inversion H as [|y l Hx Hl]; subst.
  rewrite (readEntry_skip latest x Hx). now apply IH.
Qed.

Lemma read_latest branch e later :
  settings_entry (Some e) = true ->
  Forall (fun x => settings_entry x = false) later ->
  fold_left readEntry (branch ++ Some e :: later) DFalsy = data e.
Proof.
  intros He Hl. rewrite fold_left_app. cbn [fold_left].
  rewrite (readEntry_take _ e He). now apply read_skip.
Qed.

(** X8.  [readPersistedSettings] answers from the last settings entry
    of the branch alone, whether of the current or of the former entry
    type: it gives the [tui] object of that entry when the entry holds
    an object, and nothing otherwise, whatever older entries hold.
    Without any settings entry it gives nothing. *)
Theorem readPersistedSettings_latest (branch later : list (option Entry))
    (e : Entry) :
  (Forall (fun x => settings_entry x = false) branch ->
   readPersistedSettings branch = None) /\
  (settings_entry (Some e) = true ->
   Forall (fun x => settings_entry x = false) later ->
   readPersistedSettings (branch ++ Some e :: later) =
   match data e with
   | DRecord t => Some t
   | _ => None
   end).
Proof.
  split.
  - intros H. unfold readPersistedSettings. now rewrite read_skip.
  - intros He Hl. unfold readPersistedSettings.
    rewrite (read_latest branch e later He Hl). now destruct (data e).
Qed.

Lemma readPersistedSettings_latest_witness :
  readPersistedSettings
    ([Some {| entry_type := "custom";
              customType := LEGACY_SETTINGS_ENTRY_TYPE;
              data := DRecord (Some (persistedTui defaults)) |}] ++
     Some {| entry_type := "custom"; customType := SETTINGS_ENTRY_TYPE;
             data := DFalsy |}
     :: [None; Some {| entry_type := "message"; customType := "";
                       data := DPrimitive |}])
  = None.
Proof.
  refine (proj2 (readPersistedSettings_latest _ _
            {| entry_type := "custom"; customType := SETTINGS_ENTRY_TYPE;
               data := DFalsy |}) _ _).
  - reflexivity.
  - repeat constructor.
Defined.

Lemma read_persisted o branch :
  readPersistedSettings (persistTuiSettings o branch)
  = Some (Some (persistedTui o)).
Proof.
  unfold readPersistedSettings, persistTuiSettings.
  rewrite (read_latest branch
             {| entry_type := "custom"; customType := SETTINGS_ENTRY_TYPE;
                data := DRecord (Some (persistedTui o)) |} []
             eq_refl (Forall_nil _)).
  reflexivity.
Qed.

Lemma trunc_inject z : trunc (inject_Z z) = z.
Proof. unfold trunc, inject_Z. simpl. apply Z.quot_1_r. Qed.

Lemma length_spaces n : (0 <= n)%Z -> Z.of_nat (length (spaces n)) = n.
Proof.
  intros H. unfold spaces. rewrite length_repeat_str. simpl. lia.
Qed.

Lemma normalize_off : normalizeBgKey (VString (lit "off")) = None.
Proof. reflexivity. Qed.

(** X9.  A settings snapshot written by [persistTuiSettings] and read
    back at the next session start restores the four switches, the
    indent and the background key with which it was written, whatever
    the flags say.  The one exception is a key for which the theme
    lookup fails in an enabled session: that key is cleared. *)
Theorem persist_restore (getBgAnsi : str -> option str) (flags : TuiFlags)
    (hasUI : bool) (branch : list (option Entry)) (o cur : TuiPatchOptions) :
  indent_ok o -> key_ok o ->
  let r := resolveOptions getBgAnsi flags hasUI (persistTuiSettings o branch)
             cur in
  unwrapOuterMarkdownFence r = unwrapOuterMarkdownFence o /\
  hideCodeFences r = hideCodeFences o /\
  showCodeFenceLanguageLabel r = showCodeFenceLanguageLabel o /\
  stripHeadingPrefixes r = stripHeadingPrefixes o /\
  codeBlockIndent r = codeBlockIndent o /\
  (codeBlockBgKey r = codeBlockBgKey o \/
   codeBlockBgKey r = None /\ enabled r = true /\
   exists k, codeBlockBgKey o = Some k /\ getBgAnsi k = None).
Proof.
  intros (n & Hn & Hi) Hk r. unfold r, resolveOptions. cbv zeta.
  rewrite read_persisted.
  set (o1 := flagOptions flags hasUI cur).
  assert (Hp : applyPersisted (persistedTui o) o1 =
    {| enabled := enabled o1;
       unwrapOuterMarkdownFence := unwrapOuterMarkdownFence o;
       hideCodeFences := hideCodeFences o;
       showCodeFenceLanguageLabel := showCodeFenceLanguageLabel o;
       stripHeadingPrefixes := stripHeadingPrefixes o;
       codeBlockBgKey := codeBlockBgKey o;
       codeBlockBgAnsi := codeBlockBgAnsi o1;
       codeBlockIndent := codeBlockIndent o |}).
  { unfold applyPersisted, persistedTui, js_number. cbv zeta. cbn beta iota.
    cbn [pt_unwrapOuterMarkdownFence pt_hideCodeFences
         pt_showCodeFenceLanguageLabel pt_stripHeadingPrefixes
         pt_codeBlockBgKey pt_codeIndentSpaces].
    rewrite trunc_inject, Hi, (length_spaces n) by lia.
    replace (clampIndent n) with n by (unfold clampIndent; lia).
    assert (Hkey : normalizeBgKey
              (VString match codeBlockBgKey o with
                       | Some k => k
                       | None => lit "off"
                       end) = codeBlockBgKey o).
    { destruct (codeBlockBgKey o) as [k|] eqn:Ek; [now apply Hk|].
      exact normalize_off. }
    rewrite Hkey. reflexivity. }
  rewrite Hp. unfold deriveBgAnsi. cbv zeta. cbn [with_bg codeBlockBgKey enabled].
  destruct (codeBlockBgKey o) as [k|] eqn:Ek.
  - destruct (enabled o1 && truthy k) eqn:Een.
    + destruct (getBgAnsi k) as [a|] eqn:Ea; cbn.
      * repeat split; auto.
      * repeat split; auto. right. split; [reflexivity|].
        apply andb_true_iff in Een. destruct Een as [Een _].
        split; [exact Een|]. exists k. auto.
    + cbn. repeat split; auto.
  - cbn. repeat split; auto.
Qed.

Lemma persist_restore_witness :
  codeBlockIndent
    (resolveOptions (fun _ => None)
       {| flag_tui := VBoolean true; flag_no_tui := VBoolean false;
          flag_unfence := VString (lit "on");
          flag_hide_fences := VString (lit "on");
          flag_code_label := VString (lit "off");
          flag_strip_heading_prefix := VString (lit "on");
          flag_code_indent := VString (lit "4");
          flag_code_bg := VString (lit "toolPendingBg") |}
       true (persistTuiSettings (with_indent (spaces 2) defaults) []) defaults)
  = spaces 2.
Proof.
  refine (proj1 (proj2 (proj2 (proj2 (proj2
    (persist_restore (fun _ => None) _ true []
       (with_indent (spaces 2) defaults) defaults _ _)))))).
  - exists 2%Z. split; [lia|reflexivity].
  - intros k H. inversion H; subst. reflexivity.
Defined.

(* ================================================================== *)
(** ** Commands, settings and session start *)
(* ================================================================== *)

(** X10.  A run of the command handler makes at most one change to the
    options, and a change is always committed: either nothing is
    committed and the options are as before, or exactly one commit
    happens and the options are the old ones with one setting applied.
    Without a UI the state is left as it is.  With a UI the revision
    advances even when nothing changes (a status query, an unknown or
    incomplete command), and advances twice with a change.  A change
    from the settings screen is one setting applied and one commit; an
    unknown item changes nothing. *)
Theorem changes_are_committed (getBgAnsi : str -> option str)
    (st : PatchState) (hasUI : bool) (args id v : str) :
  let r := renderMdCommandHandler getBgAnsi hasUI args st in
  let r' := settingsChange getBgAnsi id v st in
  ((out_commits r = 0 /\ options (out_state r) = options st /\
    revision (out_state r)
      = if hasUI then js_incr (revision st) else revision st)
   \/
   (hasUI = true /\ out_commits r = 1 /\
    revision (out_state r) = js_incr (js_incr (revision st)) /\
    exists c, options (out_state r) = applyChange getBgAnsi c (options st)))
  /\
  ((out_commits r' = 0 /\ out_state r' = st) \/
   (out_commits r' = 1 /\
    revision (out_state r') = js_incr (revision st) /\
    exists c, options (out_state r') = applyChange getBgAnsi c (options st))).
Proof.
  intros r r'. split.
  - exact (handler_change getBgAnsi hasUI args st).
  - exact (settings_change getBgAnsi id v st).
Qed.

Lemma ok_defaults P : options_ok P defaults.
Proof.
  split; [|split].
  - exists 4%Z. split; [lia|reflexivity].
  - intros k H. inversion H; subst. reflexivity.
  - intros a H. discriminate.
Qed.

Lemma truthy_key v k : normalizeBgKey v = Some k -> truthy k = true.
Proof.
  intros H. destruct (normalizeBgKey_some v k H) as (_ & _ & _ & Hne & _).
  destruct k; [contradiction|reflexivity].
Qed.

Lemma ok_recompute (P : (str -> option str) -> Prop) getBgAnsi key a o :
  P getBgAnsi -> indent_ok o ->
  (forall k, key = Some k -> normalizeBgKey (VString k) = Some k) ->
  options_ok P (recomputeBgAnsi getBgAnsi (with_bg key a o)).
Proof.
  intros Hg Hi Hk. unfold recomputeBgAnsi. cbn [with_bg codeBlockBgKey].
  destruct key as [k|].
  - rewrite (truthy_key _ k (Hk k eq_refl)). simpl negb. cbv iota.
    destruct (getBgAnsi k) as [a'|] eqn:Ea.
    + split; [exact Hi|]. split.
      * intros k' H. cbn [codeBlockBgKey codeBlockBgAnsi with_bg] in H.
        inversion H; subst. now apply Hk.
      * intros a'' H. cbn [codeBlockBgKey codeBlockBgAnsi with_bg] in H.
        inversion H; subst. exists k, getBgAnsi. auto.
    + split; [exact Hi|]. split; intros x H; discriminate.
  - split; [exact Hi|]. split; intros x H; discriminate.
Qed.

Lemma ok_change (P : (str -> option str) -> Prop) getBgAnsi c o :
  P getBgAnsi -> options_ok P o -> options_ok P (applyChange getBgAnsi c o).
Proof.
  intros Hg Ho. destruct c as [b|b|b|b|n|v]; cbn [applyChange];
    try exact Ho.
  - destruct Ho as (_ & Hk & Ha). split; [|split; [exact Hk|exact Ha]].
    exists (clampIndent n). split; [unfold clampIndent; lia|reflexivity].
  - apply ok_recompute; [exact Hg|exact (proj1 Ho)|].
    intros k H. exact (normalizeBgKey_idem _ k H).
Qed.

Lemma ok_handler (P : (str -> option str) -> Prop) getBgAnsi hasUI args st :
  P getBgAnsi -> options_ok P (options st) ->
  options_ok P
    (options (out_state (renderMdCommandHandler getBgAnsi hasUI args st))).
Proof.
  intros Hg Ho.
  destruct (handler_change getBgAnsi hasUI args st)
    as [(_ & E & _)|(_ & _ & _ & c & E)]; rewrite E; [exact Ho|].
  now apply ok_change.
Qed.

Lemma ok_settings (P : (str -> option str) -> Prop) getBgAnsi id v st :
  P getBgAnsi -> options_ok P (options st) ->
  options_ok P (options (out_state (settingsChange getBgAnsi id v st))).
Proof.
  intros Hg Ho.
  destruct (settings_change getBgAnsi id v st)
    as [(_ & E)|(_ & _ & c & E)]; rewrite E; [exact Ho|].
  now apply ok_change.
Qed.

Lemma ok2_flags flags hasUI o :
  indent_ok (flagOptions flags hasUI o) /\ key_ok (flagOptions flags hasUI o).
Proof.
  split.
  - unfold indent_ok, flagOptions, parseIndentSpaces. cbn [codeBlockIndent].
    destruct (toInt (flag_code_indent flags)) as [n|].
    + exists (clampIndent n). split; [unfold clampIndent; lia|reflexivity].
    + exists 4%Z. split; [lia|reflexivity].
  - intros k H. cbn [codeBlockBgKey codeBlockBgAnsi with_bg flagOptions] in H. exact (normalizeBgKey_idem _ k H).
Qed.

Lemma applyPersisted_stages (P : TuiPatchOptions -> Prop) p o :
  (forall b o', P o' -> P (with_unfence b o')) ->
  (forall b o', P o' -> P (with_hideFences b o')) ->
  (forall b o', P o' -> P (with_label b o')) ->
  (forall b o', P o' -> P (with_headings b o')) ->
  (forall s o', P o' ->
     P (with_bg (normalizeBgKey (VString s)) (codeBlockBgAnsi o') o')) ->
  (forall q o', P o' -> P (with_indent (spaces (clampIndent (trunc q))) o')) ->
  P o -> P (applyPersisted p o).
Proof.
  intros F1 F2 F3 F4 F5 F6 Ho. unfold applyPersisted. cbv zeta.
  set (o1 := match pt_unwrapOuterMarkdownFence p with
             | VBoolean b => with_unfence b o | _ => o end).
  assert (H1 : P o1)
    by (unfold o1; destruct (pt_unwrapOuterMarkdownFence p); auto).
  clearbody o1. clear Ho.
  set (o2 := match pt_hideCodeFences p with
             | VBoolean b => with_hideFences b o1 | _ => o1 end).
  assert (H2 : P o2) by (unfold o2; destruct (pt_hideCodeFences p); auto).
  clearbody o2. clear H1.
  set (o3 := match pt_showCodeFenceLanguageLabel p with
             | VBoolean b => with_label b o2 | _ => o2 end).
  assert (H3 : P o3)
    by (unfold o3; destruct (pt_showCodeFenceLanguageLabel p); auto).
  clearbody o3. clear H2.
  set (o4 := match pt_stripHeadingPrefixes p with
             | VBoolean b => with_headings b o3 | _ => o3 end).
  assert (H4 : P o4)
    by (unfold o4; destruct (pt_stripHeadingPrefixes p); auto).
  clearbody o4. clear H3.
  set (o5 := match pt_codeBlockBgKey p with
             | VString s =>
                 with_bg (normalizeBgKey (VString s)) (codeBlockBgAnsi o4) o4
             | _ => o4 end).
  assert (H5 : P o5) by (unfold o5; destruct (pt_codeBlockBgKey p); auto).
  clearbody o5. clear H4.
  destruct (pt_codeIndentSpaces p) as [| |[q|]| |]; auto.
Qed.

Lemma ok2_persisted p o :
  indent_ok o /\ key_ok o ->
  indent_ok (applyPersisted p o) /\ key_ok (applyPersisted p o).
Proof.
  apply (applyPersisted_stages (fun o' => indent_ok o' /\ key_ok o'));
    try (intros b o' H; exact H).
  - intros s o' H. split; [exact (proj1 H)|].
    intros k Hk. cbn [codeBlockBgKey with_bg] in Hk.
    exact (normalizeBgKey_idem _ k Hk).
  - intros q o' H. split; [|exact (proj2 H)].
    exists (clampIndent (trunc q)).
    split; [unfold clampIndent; lia|reflexivity].
Qed.

Lemma ok_derive (P : (str -> option str) -> Prop) getBgAnsi o :
  P getBgAnsi -> indent_ok o /\ key_ok o ->
  options_ok P (deriveBgAnsi getBgAnsi o).
Proof.
  intros Hg (Hi & Hk). unfold deriveBgAnsi. cbv zeta.
  cbn [with_bg codeBlockBgKey enabled].
  destruct (codeBlockBgKey o) as [k|] eqn:Ek.
  - destruct (enabled o && truthy k).
    + destruct (getBgAnsi k) as [a|] eqn:Ea.
      * split; [exact Hi|]. split.
        -- intros k' H. cbn [codeBlockBgKey codeBlockBgAnsi with_bg] in H.
           inversion H; subst. now apply Hk.
        -- intros a' H. cbn [codeBlockBgKey codeBlockBgAnsi with_bg] in H.
           inversion H; subst. exists k, getBgAnsi. auto.
      * split; [exact Hi|]. split; intros x H; discriminate.
    + split; [exact Hi|]. split.
      * intros k' H. cbn [codeBlockBgKey codeBlockBgAnsi with_bg] in H.
        inversion H; subst. now apply Hk.
      * intros a' H. discriminate.
  - split; [exact Hi|]. split; intros x H; discriminate.
Qed.

Lemma options_sessionStart o st : options (sessionStart o st) = o.
Proof. unfold sessionStart. now destruct (enabled o). Qed.

Lemma ok_sessionStart (P : (str -> option str) -> Prop) getBgAnsi flags hasUI
    branch st :
  P getBgAnsi ->
  options_ok P (options (sessionStartHandler getBgAnsi flags hasUI branch st)).
Proof.
  intros Hg. unfold sessionStartHandler. rewrite options_sessionStart.
  unfold resolveOptions. cbv zeta. apply ok_derive; [exact Hg|].
  destruct (readPersistedSettings branch) as [[p|]|];
    try apply ok2_flags.
  apply ok2_persisted. apply ok2_flags.
Qed.

Lemma ok_perform (P : (str -> option str) -> Prop) a st :
  P (lookup_of a) -> options_ok P (options st) ->
  options_ok P (options (perform a st)).
Proof.
  intros Hg Ho.
  destruct a as [g flags hasUI branch|g hasUI args|g id v];
    cbn [perform lookup_of] in *.
  - now apply ok_sessionStart.
  - now apply ok_handler.
  - now apply ok_settings.
Qed.

Lemma ok_performAll (P : (str -> option str) -> Prop) acts : forall st,
  (forall a, In a acts -> P (lookup_of a)) ->
  options_ok P (options st) ->
  options_ok P (options (performAll acts st)).
Proof.
  unfold performAll. induction acts as [|a acts IH]; intros st Hp Ho;
    cbn [fold_left]; [exact Ho|].
  apply IH.
  - intros x Hx. apply Hp. now right.
  - apply ok_perform; [apply Hp; now left|exact Ho].
Qed.

Lemma handler_keeps_ansi getBgAnsi hasUI args st :
  let r := renderMdCommandHandler getBgAnsi hasUI args st in
  codeBlockBgAnsi (options (out_state r)) = codeBlockBgAnsi (options st) \/
  exists v, options (out_state r)
            = applyChange getBgAnsi (SetBg v) (options st).
Proof.
  intros r.
  destruct (handler_change getBgAnsi hasUI args st)
    as [(_ & E & _)|(_ & _ & _ & c & E)]; fold r in E; rewrite E.
  - now left.
  - destruct c as [b|b|b|b|n|v]; try (left; reflexivity). right. eauto.
Qed.

Lemma settings_keeps_ansi getBgAnsi id v st :
  let r := settingsChange getBgAnsi id v st in
  codeBlockBgAnsi (options (out_state r)) = codeBlockBgAnsi (options st) \/
  exists v', options (out_state r)
             = applyChange getBgAnsi (SetBg v') (options st).
Proof.
  intros r.
  destruct (settings_change getBgAnsi id v st)
    as [(_ & E)|(_ & _ & c & E)]; fold r in E; rewrite E.
  - now left.
  - destruct c as [b|b|b|b|n|v']; try (left; reflexivity). right. eauto.
Qed.

(** X11.  Whatever session starts, commands and settings changes
    happen, in any order, with any flags, persisted entries and
    arguments, and with any theme at each call, the options of the
    patch state stay well formed: the code indent is between zero and
    eight spaces, the background key is unset or a key that
    [normalizeBgKey] keeps, and the background introducer is unset or
    what the theme of one of the calls gave for the current key.  It
    need not be what the theme of the last call gives: a command or a
    settings change that is not a background change leaves the
    introducer as it was, whatever the theme is by then.  Only when
    every call saw the same theme is the introducer what that theme
    gives for the key. *)
Theorem options_invariant (acts : list Action) :
  let o := options (performAll acts initialPatchState) in
  (indent_ok o /\ key_ok o /\
   forall a, codeBlockBgAnsi o = Some a ->
     exists k g, codeBlockBgKey o = Some k /\
       In g (List.map lookup_of acts) /\ g k = Some a) /\
  (forall g, Forall (fun x => lookup_of x = g) acts -> ansi_ok g o) /\
  (forall g hasUI args st,
     let r := renderMdCommandHandler g hasUI args st in
     codeBlockBgAnsi (options (out_state r)) = codeBlockBgAnsi (options st) \/
     exists v, options (out_state r) = applyChange g (SetBg v) (options st)) /\
  (forall g id v st,
     let r := settingsChange g id v st in
     codeBlockBgAnsi (options (out_state r)) = codeBlockBgAnsi (options st) \/
     exists v', options (out_state r) = applyChange g (SetBg v') (options st)).
Proof.
  intros o.
  assert (H : options_ok (fun g => In g (List.map lookup_of acts)) o).
  { apply ok_performAll; [|apply ok_defaults].
    intros a Ha. now apply in_map. }
  split; [exact H|]. split; [|split].
  - intros g Hf a Ha. destruct H as (_ & _ & H).
    destruct (H a Ha) as (k & g' & Ek & Hin & Eg).
    exists k. split; [exact Ek|].
    apply in_map_iff in Hin. destruct Hin as (x & Ex & Hx).
    rewrite Forall_forall in Hf. rewrite <- (Hf x Hx), Ex. exact Eg.
  - exact handler_keeps_ansi.
  - exact settings_keeps_ansi.
Qed.

Lemma options_invariant_witness :
  ansi_ok (fun _ => Some bg236)
    (options (performAll
       [ActSessionStart (fun _ => Some bg236) default_flags true [];
        ActCommand (fun _ => Some bg236) true (lit "bg selectedBg");
        ActSettingsChange (fun _ => Some bg236) (lit "code-indent") (lit "2")]
       initialPatchState)).
Proof.
  apply (proj1 (proj2 (options_invariant
    [ActSessionStart (fun _ => Some bg236) default_flags true [];
     ActCommand (fun _ => Some bg236) true (lit "bg selectedBg");
     ActSettingsChange (fun _ => Some bg236) (lit "code-indent") (lit "2")]))).
  repeat constructor.
Defined.

(** A theme change is not followed: the introducer derived under one
    theme stays when a later command runs under another theme, for
    which the key has another introducer. *)
Remark stale_introducer :
  let o := options (performAll
       [ActCommand (fun _ => Some bg236) true (lit "bg selectedBg");
        ActCommand (fun _ => Some (ESC :: lit "[48;5;240m")) true
          (lit "label on")]
       initialPatchState) in
  codeBlockBgKey o = Some (lit "selectedBg") /\
  codeBlockBgAnsi o = Some bg236 /\
  ~ ansi_ok (fun _ => Some (ESC :: lit "[48;5;240m")) o.
Proof.
  split; [reflexivity|]. split; [reflexivity|].
  intros H. destruct (H bg236 eq_refl) as (k & _ & E). discriminate.
Qed.

(* ================================================================== *)
(** ** Renders over changing revisions *)
(* ================================================================== *)

















Lemma render_text st i :
  text (patchMarkdownInstance i st) =
  if enabled (options st) && unwrapOuterMarkdownFence (options st) &&
     (negb (opt_Z_eqb (revisionApplied i) (revision st)) || negb (unwrapped i))
  then stripOuterMarkdownFence (text i)
  else text i.
Proof.
  unfold patchMarkdownInstance. destruct (enabled (options st)); [|reflexivity].
  simpl negb. cbv iota. simpl andb.
  destruct (patchTheme_fields st (unwrapOnce st (syncRevision st i)))
    as (_ & _ & Ht & _). rewrite Ht.
  destruct (unwrapOuterMarkdownFence (options st)) eqn:Hu.
  - simpl andb. unfold syncRevision.
    destruct (negb (opt_Z_eqb (revisionApplied i) (revision st))) eqn:Er.
    + simpl orb. now rewrite unwrapOnce_text.
    + simpl orb. destruct (unwrapped i) eqn:Ew; simpl negb.
      * unfold unwrapOnce. now rewrite Hu, Ew.
      * now rewrite unwrapOnce_text.
  - simpl andb. unfold unwrapOnce. rewrite Hu. simpl andb. cbv iota.
    unfold syncRevision. now destruct (negb _).
Qed.

Lemma render_runs st i :
  unwrapRuns (patchMarkdownInstance i st) =
  if enabled (options st) && unwrapOuterMarkdownFence (options st) &&
     (negb (opt_Z_eqb (revisionApplied i) (revision st)) || negb (unwrapped i))
  then S (unwrapRuns i)
  else unwrapRuns i.
Proof.
  unfold patchMarkdownInstance. destruct (enabled (options st)); [|reflexivity].
  simpl negb. cbv iota. simpl andb.
  destruct (patchTheme_fields st (unwrapOnce st (syncRevision st i)))
    as (_ & _ & _ & Hr & _). rewrite Hr.
  unfold unwrapOnce, syncRevision.
  destruct (unwrapOuterMarkdownFence (options st)),
    (negb (opt_Z_eqb (revisionApplied i) (revision st))), (unwrapped i);
    simpl; try reflexivity;
    destruct (negb (str_eqb _ _)); reflexivity.
Qed.

(** X13.  Every change of revision unwraps once more.  With the patch
    and the unwrapping on, a render under the state with which the text
    was set applies the unwrapper a second time, and a later render
    under a state with another revision applies it a third time: the
    text is then the input unwrapped three times, so that a message
    fenced three times over loses all three fences. *)
Theorem rerender_unwraps_again (st1 st2 : PatchState) (i : Instance)
    (input : str) (w1 w2 : Z) :
  enabled (options st1) = true ->
  unwrapOuterMarkdownFence (options st1) = true ->
  enabled (options st2) = true ->
  unwrapOuterMarkdownFence (options st2) = true ->
  revision st2 <> revision st1 ->
  let i1 := patched_render_prepare st1 (patched_setText st1 i input) w1 in
  let i2 := patched_render_prepare st2 i1 w2 in
  text i1 = stripOuterMarkdownFence (stripOuterMarkdownFence input) /\
  text i2 =
    stripOuterMarkdownFence
      (stripOuterMarkdownFence (stripOuterMarkdownFence input)) /\
  unwrapRuns i2 = S (unwrapRuns i1) /\
  (forall l1 l2 l3 body,
     is_lang l1 -> is_lang l2 -> is_lang l3 ->
     head_clean body -> no_final_cr body ->
     input = fenced l1 (fenced l2 (fenced l3 body)) -> text i2 = body).
Proof.
  intros He1 Hu1 He2 Hu2 Hr i1 i2.
  assert (H1 : text i1
               = stripOuterMarkdownFence (stripOuterMarkdownFence input)).
  { unfold i1, patched_render_prepare. cbv zeta. rewrite render_text.
    rewrite He1, Hu1. simpl andb.
    change (unwrapped (set_contentWidth _ (patched_setText st1 i input)))
      with false.
    rewrite orb_true_r.
    change (text (set_contentWidth _ (patched_setText st1 i input)))
      with (text (patched_setText st1 i input)).
    unfold patched_setText. cbv zeta. rewrite He1, Hu1. reflexivity. }
  assert (Ha : revisionApplied i1 = Some (revision st1)).
  { unfold i1, patched_render_prepare. cbv zeta.
    exact (proj1 (patch_settles st1 _ He1)). }
  assert (Hs : opt_Z_eqb (revisionApplied (set_contentWidth
                 (Some (Z.max 1
                    (w2 - match paddingX i1 with Some p => p | None => 0%Z end
                          * 2))) i1))
                 (revision st2) = false).
  { change (revisionApplied (set_contentWidth _ i1)) with (revisionApplied i1).
    rewrite Ha. simpl. apply Z.eqb_neq. congruence. }
  assert (H2 : text i2 = stripOuterMarkdownFence (text i1)).
  { unfold i2, patched_render_prepare. cbv zeta. rewrite render_text.
    rewrite He2, Hu2, Hs. reflexivity. }
  assert (H3 : unwrapRuns i2 = S (unwrapRuns i1)).
  { unfold i2, patched_render_prepare. cbv zeta. rewrite render_runs.
    rewrite He2, Hu2, Hs. reflexivity. }
  split; [exact H1|]. split; [now rewrite H2, H1|]. split; [exact H3|].
  intros l1 l2 l3 body Hl1 Hl2 Hl3 Hh Hc ->.
  rewrite H2, H1.
  rewrite (strip_fenced l1 _ Hl1 (fenced_head_clean _ _)
             (fenced_no_final_cr _ _)).
  rewrite (strip_fenced l2 _ Hl2 (fenced_head_clean _ _)
             (fenced_no_final_cr _ _)).
  exact (strip_fenced l3 body Hl3 Hh Hc).
Qed.

Lemma rerender_unwraps_again_witness :
  text (patched_render_prepare example_state2
          (patched_render_prepare example_state1
             (patched_setText example_state1
                (freshInstance [] (Some plainTheme))
                (fenced (lit "md")
                   (fenced (lit "markdown") (fenced (lit "MD") (lit "# T")))))
             80) 100)
  = lit "# T".
Proof.
  destruct (rerender_unwraps_again example_state1 example_state2
              (freshInstance [] (Some plainTheme))
              (fenced (lit "md")
                 (fenced (lit "markdown") (fenced (lit "MD") (lit "# T"))))
              80 100 eq_refl eq_refl eq_refl eq_refl) as (_ & _ & _ & H).
  - vm_compute. discriminate.
  - apply (H (lit "md") (lit "markdown") (lit "MD") (lit "# T")).
    + right. reflexivity.
    + left. reflexivity.
    + right. reflexivity.
    + reflexivity.
    + simpl. discriminate.
    + reflexivity.
Defined.

(* ================================================================== *)
(** ** Lines without reset sequences *)
(* ================================================================== *)

Lemma replaceAll_from_absent pat repl : pat <> [] -> forall s before,
  occursb pat s = false -> replaceAll_from pat repl before 0 s = s.
Proof.
  intros Hne. induction s as [|c s IH]; intros before H.
  - destruct pat; [contradiction|reflexivity].
  - cbn [occursb] in H. apply orb_false_iff in H. destruct H as [H1 H2].
    cbn [replaceAll_from]. rewrite H1. now rewrite IH.
Qed.

Lemma replaceAll_absent pat repl s :
  pat <> [] -> occursb pat s = false -> replaceAll pat repl s = s.
Proof. intros. unfold replaceAll. now apply replaceAll_from_absent. Qed.

Lemma applyCodeBg_absent o bg s :
  bgAnsi o = Some bg ->
  occursb RESET_ALL s = false -> occursb RESET_BG s = false ->
  applyCodeBg o s = bg ++ s.
Proof.
  intros Hb H1 H2. unfold applyCodeBg. rewrite Hb. cbv zeta.
  rewrite (replaceAll_absent RESET_ALL _ s) by (auto; discriminate).
  rewrite (replaceAll_absent RESET_BG _ s) by (auto; discriminate).
  reflexivity.
Qed.

(** X14.  On text that contains neither a full reset nor a background
    reset the background step does no more than put the introducer in
    front, for every introducer, also one with dollar signs in it (the
    replacement patterns are only read where a reset is found).  So the
    wrapped highlighter, on lines without resets, returns each line with
    the introducer in front, and the wrapped code-line function the
    styled line with the introducer in front. *)
Theorem applyCodeBg_no_resets (o : TuiPatchOptions) (bg : str) :
  bgAnsi o = Some bg ->
  (forall s, occursb RESET_ALL s = false -> occursb RESET_BG s = false ->
     applyCodeBg o s = bg ++ s) /\
  (forall f t,
     occursb RESET_ALL (f t) = false -> occursb RESET_BG (f t) = false ->
     codeBlock_wrapper o f t = bg ++ f t) /\
  (forall h code lang,
     Forall (fun l => occursb RESET_ALL l = false /\ occursb RESET_BG l = false)
       (h code lang) ->
     highlightCode_wrapper o h code lang = List.map (app bg) (h code lang)).
Proof.
  intros Hb. split; [|split].
  - intros s. now apply applyCodeBg_absent.
  - intros f t. unfold codeBlock_wrapper. now apply applyCodeBg_absent.
  - intros h code lang H. unfold highlightCode_wrapper.
    induction H as [|l ls (H1 & H2) _ IH]; simpl; [reflexivity|].
    now rewrite IH, (applyCodeBg_absent o bg l Hb H1 H2).
Qed.

Lemma applyCodeBg_no_resets_witness :
  highlightCode_wrapper (options_bg (lit "$&$'"))
    (fun code _ => pieces code) (lit "let x") None
  = [lit "$&$'let x"].
Proof.
  apply (proj2 (proj2 (applyCodeBg_no_resets (options_bg (lit "$&$'"))
                         (lit "$&$'") eq_refl))
           (fun code _ => pieces code) (lit "let x") None).
  repeat constructor.
Defined.

(* ================================================================== *)
(** ** Print-mode themes *)
(* ================================================================== *)

Lemma pieces_nonempty s : pieces s <> [].
Proof.
  destruct s as [|c s]; simpl; [discriminate|].
  destruct (c =? LF)%N; [discriminate|]. destruct (pieces s); discriminate.
Qed.

Lemma join_cons_nonempty x l :
  l <> [] -> join nl (x :: l) = x ++ nl ++ join nl l.
Proof. destruct l; [contradiction|reflexivity]. Qed.

Lemma join_pieces s : join nl (pieces s) = s.
Proof.
  induction s as [|c s IH]; [reflexivity|]. cbn [pieces].
  destruct (N.eqb_spec c LF) as [->|Hc].
  - rewrite join_cons_nonempty by apply pieces_nonempty. now rewrite IH.
  - assert (Hn := pieces_nonempty s).
    destruct (pieces s) as [|l ls]; [contradiction|].
    destruct ls as [|l2 ls].
    + simpl in *. now rewrite IH.
    + change (join nl ((c :: l) :: l2 :: ls))
        with (c :: (l ++ nl ++ join nl (l2 :: ls))).
      change (join nl (l :: l2 :: ls)) with (l ++ nl ++ join nl (l2 :: ls)) in IH.
      now rewrite IH.
Qed.

Lemma pieces_single_line s : Forall single_line (pieces s).
Proof.
  induction s as [|c s IH]; cbn [pieces].
  - constructor; [|constructor]. intros H. destruct H.
  - destruct (N.eqb_spec c LF) as [->|Hc].
    + constructor; [|exact IH]. intros H. destruct H.
    + assert (Hn := pieces_nonempty s).
      destruct (pieces s) as [|l ls]; [contradiction|].
      inversion IH as [|x y Hl Hls]; subst.
      constructor; [|exact Hls].
      intros [H|H]; [now apply Hc|now apply Hl].
Qed.

(** X15.  The print-mode themes.  The highlighter of the plain theme
    loses nothing: it cuts the code into lines without a line break
    inside, and joining them with line breaks gives the code back.  And
    whatever style the [agent_end] handler resolves, plain or ANSI, the
    border function of its theme turns every line that begins with
    three backticks into the empty line. *)
Theorem print_themes (hide : option bool) (base : MarkdownTheme)
    (env : PrintEnv) :
  (exists h,
     highlightCode (createPlainMarkdownTheme hide) = Some h /\
     forall code lang,
       join nl (h code lang) = code /\ Forall single_line (h code lang)) /\
  (forall t, startsWith bt3 t = true ->
     codeBlockBorder (printTheme base env) t = []) /\
  (forall t, startsWith bt3 t = false ->
     codeBlockBorder (printTheme base env) t =
     if wantsAnsi env then codeBlockBorder base t else t).
Proof.
  split; [|split].
  - eexists. split; [reflexivity|]. intros code lang. split.
    + apply join_pieces.
    + apply pieces_single_line.
  - intros t H. unfold printTheme.
    destruct (wantsAnsi env);
      unfold createAnsiMarkdownTheme, createPlainMarkdownTheme;
      cbn [codeBlockBorder or_default]; rewrite H; reflexivity.
  - intros t H. unfold printTheme.
    destruct (wantsAnsi env);
      unfold createAnsiMarkdownTheme, createPlainMarkdownTheme;
      cbn [codeBlockBorder or_default]; rewrite H; reflexivity.
Qed.

Lemma print_themes_witness :
  codeBlockBorder (printTheme plainTheme example_env) (lit "```ts") = [].
Proof.
  apply (proj1 (proj2 (print_themes None plainTheme example_env))).
  reflexivity.
Defined.

(* ================================================================== *)
(** ** The shared patch state across reloads *)
(* ================================================================== *)

Lemma backfill_allFields o : backfillOptions (Some (allFields o)) = o.
Proof. now destruct o. Qed.

Lemma getPatchState_again {Method : Type} (g : Global Method)
    (p : Methods Method) :
  getPatchState (set_proto p (snd (getPatchState g)))
  = (fst (getPatchState g), set_proto p (snd (getPatchState g))).
Proof.
  unfold getPatchState at 1. cbv zeta.
  set (sh := fst (getPatchState g)).
  change (slot (set_proto p (snd (getPatchState g)))) with (Some (stored sh)).
  cbv iota.
  assert (E : {| sh_state :=
                   {| revision := or_default (s_revision (stored sh)) 0%Z;
                      options := backfillOptions (s_options (stored sh)) |};
                 sh_originals :=
                   backfillOriginals (proto (set_proto p (snd (getPatchState g))))
                     (s_originals (stored sh)) |} = sh).
  { cbn [stored s_revision s_options s_originals or_default].
    rewrite backfill_allFields. unfold backfillOriginals.
    cbn [so_render so_setText so_renderToken so_renderListItem or_default].
    destruct sh as [[r o] [m1 m2 m3 m4]]. reflexivity. }
  rewrite E. reflexivity.
Qed.

(** X16.  [getPatchState] creates the state once and reuses it after.
    Without a stored state it returns revision 0, the default options
    and the methods of the prototype.  A stored state is found under
    the current key first and under the former key otherwise; its
    revision, the options it has and the original methods it has are
    kept, and only what is missing is filled in, from the defaults and
    from the prototype.  After a call both keys hold the returned
    state, and a further call returns that same state, also when the
    prototype has been patched in between. *)
Theorem getPatchState_reuses {Method : Type} (g : Global Method)
    (p : Methods Method) :
  let sh := fst (getPatchState g) in
  let g' := snd (getPatchState g) in
  slot g' = Some (stored sh) /\ old_slot g' = Some (stored sh) /\
  getPatchState (set_proto p g') = (sh, set_proto p g') /\
  (slot g = None -> old_slot g = None ->
   sh = {| sh_state := initialPatchState; sh_originals := proto g |}) /\
  (forall s,
     slot g = Some s \/ (slot g = None /\ old_slot g = Some s) ->
     revision (sh_state sh) = or_default (s_revision s) 0%Z /\
     options (sh_state sh) = backfillOptions (s_options s) /\
     sh_originals sh = backfillOriginals (proto g) (s_originals s) /\
     (forall o, s_options s = Some (allFields o) -> options (sh_state sh) = o) /\
     (forall m, s_originals s = Some
        {| so_render := Some (m_render m); so_setText := Some (m_setText m);
           so_renderToken := Some (m_renderToken m);
           so_renderListItem := Some (m_renderListItem m) |} ->
        sh_originals sh = m)).
Proof.
  intros sh g'. split; [reflexivity|]. split; [reflexivity|].
  split; [exact (getPatchState_again g p)|]. split.
  - intros H1 H2. unfold sh, getPatchState. now rewrite H1, H2.
  - intros s Hs.
    assert (E : sh = {| sh_state :=
                          {| revision := or_default (s_revision s) 0%Z;
                             options := backfillOptions (s_options s) |};
                        sh_originals :=
                          backfillOriginals (proto g) (s_originals s) |}).
    { unfold sh, getPatchState.
      destruct Hs as [H|(H1 & H2)]; [now rewrite H|now rewrite H1, H2]. }
    rewrite E. cbn [sh_state sh_originals revision options].
    split; [reflexivity|]. split; [reflexivity|]. split; [reflexivity|]. split.
    + intros o Ho. rewrite Ho. apply backfill_allFields.
    + intros m Hm. rewrite Hm. now destruct m.
Qed.

Lemma getPatchState_reuses_witness :
  revision (sh_state (fst (getPatchState example_global))) = 7%Z /\
  unwrapOuterMarkdownFence
    (options (sh_state (fst (getPatchState example_global)))) = false /\
  codeBlockBgKey
    (options (sh_state (fst (getPatchState example_global)))) = None /\
  codeBlockIndent
    (options (sh_state (fst (getPatchState example_global)))) = lit "    ".
Proof.
  destruct (getPatchState_reuses example_global example_proto)
    as (_ & _ & _ & _ & H).
  destruct (H _ (or_intror (conj eq_refl eq_refl))) as (H1 & H2 & _).
  rewrite H1, H2. repeat split; reflexivity.
Defined.

(* ================================================================== *)
(** ** The size of an unwrapped text *)
(* ================================================================== *)

Lemma is_lb_length l : is_lb l -> 1 <= length l.
Proof. intros [->| ->]; simpl; lia. Qed.

Lemma trim_inside s : exists p q, s = p ++ trim s ++ q.
Proof.
  destruct (trimStart_suffix s) as (p & Hp).
  destruct (trimEnd_prefix (trimStart s)) as (q & Hq).
  exists p, q. unfold trim. now rewrite <- Hq.
Qed.

Lemma strip_inside text :
  stripOuterMarkdownFence text = text \/
  exists a b,
    text = a ++ stripOuterMarkdownFence text ++ b /\
    6 <= length a /\ 4 <= length b.
Proof.
  destruct (strip_analysis text)
    as [(t1 & n & t2 & j & m & c & j3 & E1 & E2 & _ & Hj & Elb & H3 &
         Hc & _ & _ & E)|(_ & E)]; [right|now left].
  destruct (matched_shape _ _ _ _ _ _ _ _ E1 E2 Hj Elb H3 Hc)
    as (ws1 & lang & ws2 & lb1 & lb2 & ws3 & Et & _ & Hl & _ & Hb1 & Hb2 & _).
  destruct (trim_inside text) as (p & q & Ep).
  rewrite E.
  exists (p ++ bt3 ++ ws1 ++ lang ++ ws2 ++ lb1), (lb2 ++ bt3 ++ ws3 ++ q).
  split.
  - rewrite Ep at 1. rewrite Et. now rewrite <- !app_assoc.
  - apply is_lang_length in Hl. apply is_lb_length in Hb1.
    assert (Hl2 : 2 <= length lang) by lia.
    apply is_lb_length in Hb2. rewrite !length_app. simpl length. lia.
Qed.

Lemma iter_fixed {A} (f : A -> A) x n : f x = x -> Nat.iter n f x = x.
Proof. intros H. induction n as [|n IH]; simpl; [reflexivity|]. now rewrite IH. Qed.

Lemma strip_iter_fixed n : forall text,
  length text < 10 * n ->
  stripOuterMarkdownFence (Nat.iter n stripOuterMarkdownFence text)
  = Nat.iter n stripOuterMarkdownFence text.
Proof.
  induction n as [|n IH]; intros text H; [simpl in H; lia|].
  rewrite Nat.iter_succ_r.
  destruct (strip_inside text) as [E|(a & b & E & Ha & Hb)].
  - rewrite E. rewrite (iter_fixed _ text n E). exact E.
  - apply IH. apply (f_equal (@length _)) in E.
    rewrite !length_app in E. lia.
Qed.

(** X17.  The unwrapper never invents text and never grows it: its
    result is the input itself, or a contiguous part of the input that
    leaves out at least six code units before it and four after it.
    Unwrapping again and again therefore comes to rest: after more than
    a tenth of the input's length in rounds, one more round changes
    nothing. *)
Theorem strip_contiguous (text : str) :
  (stripOuterMarkdownFence text = text \/
   exists a b,
     text = a ++ stripOuterMarkdownFence text ++ b /\
     6 <= length a /\ 4 <= length b) /\
  length (stripOuterMarkdownFence text) <= length text /\
  let n := S (length text / 10) in
  stripOuterMarkdownFence (Nat.iter n stripOuterMarkdownFence text)
  = Nat.iter n stripOuterMarkdownFence text.
Proof.
  split; [exact (strip_inside text)|]. split.
  - destruct (strip_inside text) as [E|(a & b & E & _)].
    + rewrite E. lia.
    + apply (f_equal (@length _)) in E. rewrite !length_app in E. lia.
  - apply strip_iter_fixed.
    assert (H := Nat.div_mod_eq (length text) 10).
    assert (H2 := Nat.mod_upper_bound (length text) 10). lia.
Qed.

(* ================================================================== *)
(** ** What the [context] handler leaves alone *)
(* ================================================================== *)

Lemma replaceFirstText_types t blocks :
  List.map btype (fst (replaceFirstText t blocks)) = List.map btype blocks.
Proof.
  induction blocks as [|b bs IH]; simpl; [reflexivity|].
  destruct (is_text b); simpl; [reflexivity|].
  destruct (replaceFirstText t bs) as [bs' r]. simpl in *. now rewrite IH.
Qed.

Lemma replaceFirstText_others t blocks :
  List.filter (fun c => negb (is_text c)) (fst (replaceFirstText t blocks))
  = List.filter (fun c => negb (is_text c)) blocks.
Proof.
  induction blocks as [|b bs IH]; simpl; [reflexivity|].
  destruct (is_text b) eqn:E; simpl.
  - change (is_text {| btype := btype b; btext := t |}) with (is_text b).
    now rewrite E.
  - destruct (replaceFirstText t bs) as [bs' r]. simpl in *.
    now rewrite E, IH.
Qed.

Lemma restoreMessage_keeps originals m :
  role (restoreMessage originals m) = role m /\
  timestamp (restoreMessage originals m) = timestamp m /\
  List.map btype (content (restoreMessage originals m))
    = List.map btype (content m) /\
  List.filter (fun c => negb (is_text c)) (content (restoreMessage originals m))
    = List.filter (fun c => negb (is_text c)) (content m) /\
  (is_assistant m = false \/ map_get (timestamp m) originals = None ->
   restoreMessage originals m = m).
Proof.
  unfold restoreMessage. destruct (is_assistant m); simpl negb; cbv iota.
  2:{ repeat split; auto. }
  destruct (map_get (timestamp m) originals) as [original|].
  2:{ repeat split; auto. }
  destruct (negb (truthy original)).
  { repeat split; auto. }
  cbn [with_content role timestamp content].
  split; [reflexivity|]. split; [reflexivity|].
  split; [apply replaceFirstText_types|].
  split; [apply replaceFirstText_others|].
  intros [H|H]; discriminate.
Qed.

(** X18.  The [context] handler never adds, removes or reorders
    messages or blocks, and never changes a role, a timestamp, a block
    type or a block that is not a text block.  A message that is not
    from the assistant, or whose timestamp has no stored original, is
    returned exactly as it was.  With an empty store the handler
    returns nothing at all. *)
Theorem context_preserves (originals : TextMap) (messages : list Message) :
  (originals = [] -> contextHandler originals messages = None) /\
  (forall restored, contextHandler originals messages = Some restored ->
     length restored = length messages /\
     forall j m m',
       nth_error messages j = Some m -> nth_error restored j = Some m' ->
       role m' = role m /\ timestamp m' = timestamp m /\
       List.map btype (content m') = List.map btype (content m) /\
       List.filter (fun c => negb (is_text c)) (content m')
         = List.filter (fun c => negb (is_text c)) (content m) /\
       (is_assistant m = false \/ map_get (timestamp m) originals = None ->
        m' = m)).
Proof.
  split.
  - intros ->. reflexivity.
  - intros restored H. unfold contextHandler in H.
    destruct (length originals =? 0); [discriminate|].
    inversion H; subst restored. split; [apply length_map|].
    intros j m m' E E'. rewrite nth_error_map, E in E'. simpl in E'.
    inversion E'; subst m'. apply restoreMessage_keeps.
Qed.

Lemma context_preserves_witness :
  length example_messages = length example_rendered /\
  forall j m m',
    nth_error example_rendered j = Some m ->
    nth_error example_messages j = Some m' ->
    role m' = role m /\ timestamp m' = timestamp m /\
    List.map btype (content m') = List.map btype (content m) /\
    List.filter (fun c => negb (is_text c)) (content m')
      = List.filter (fun c => negb (is_text c)) (content m) /\
    (is_assistant m = false \/ map_get (timestamp m) example_store = None ->
     m' = m).
Proof.
  apply (proj2 (context_preserves example_store example_rendered)
           example_messages).
  reflexivity.
Defined.

(* ================================================================== *)
(** ** Session start as a reset *)
(* ================================================================== *)

Lemma derive_forget getBgAnsi a o :
  deriveBgAnsi getBgAnsi (with_bg (codeBlockBgKey o) a o)
  = deriveBgAnsi getBgAnsi o.
Proof. reflexivity. Qed.

Lemma persisted_forget p a o :
  applyPersisted p (with_bg (codeBlockBgKey o) a o) =
  with_bg (codeBlockBgKey (applyPersisted p o)) a (applyPersisted p o).
Proof.
  unfold applyPersisted. cbv zeta.
  set (o1 := match pt_unwrapOuterMarkdownFence p with
             | VBoolean b => with_unfence b o | _ => o end).
  set (o1' := match pt_unwrapOuterMarkdownFence p with
              | VBoolean b => with_unfence b (with_bg (codeBlockBgKey o) a o)
              | _ => with_bg (codeBlockBgKey o) a o end).
  assert (H1 : o1' = with_bg (codeBlockBgKey o1) a o1)
    by (unfold o1, o1'; destruct (pt_unwrapOuterMarkdownFence p); reflexivity).
  clearbody o1 o1'. subst o1'.
  set (o2 := match pt_hideCodeFences p with
             | VBoolean b => with_hideFences b o1 | _ => o1 end).
  set (o2' := match pt_hideCodeFences p with
              | VBoolean b => with_hideFences b (with_bg (codeBlockBgKey o1) a o1)
              | _ => with_bg (codeBlockBgKey o1) a o1 end).
  assert (H2 : o2' = with_bg (codeBlockBgKey o2) a o2)
    by (unfold o2, o2'; destruct (pt_hideCodeFences p); reflexivity).
  clearbody o2 o2'. subst o2'.
  set (o3 := match pt_showCodeFenceLanguageLabel p with
             | VBoolean b => with_label b o2 | _ => o2 end).
  set (o3' := match pt_showCodeFenceLanguageLabel p with
              | VBoolean b => with_label b (with_bg (codeBlockBgKey o2) a o2)
              | _ => with_bg (codeBlockBgKey o2) a o2 end).
  assert (H3 : o3' = with_bg (codeBlockBgKey o3) a o3)
    by (unfold o3, o3'; destruct (pt_showCodeFenceLanguageLabel p);
        reflexivity).
  clearbody o3 o3'. subst o3'.
  set (o4 := match pt_stripHeadingPrefixes p with
             | VBoolean b => with_headings b o3 | _ => o3 end).
  set (o4' := match pt_stripHeadingPrefixes p with
              | VBoolean b => with_headings b (with_bg (codeBlockBgKey o3) a o3)
              | _ => with_bg (codeBlockBgKey o3) a o3 end).
  assert (H4 : o4' = with_bg (codeBlockBgKey o4) a o4)
    by (unfold o4, o4'; destruct (pt_stripHeadingPrefixes p); reflexivity).
  clearbody o4 o4'. subst o4'.
  set (o5 := match pt_codeBlockBgKey p with
             | VString s =>
                 with_bg (normalizeBgKey (VString s)) (codeBlockBgAnsi o4) o4
             | _ => o4 end).
  set (o5' := match pt_codeBlockBgKey p with
              | VString s =>
                  with_bg (normalizeBgKey (VString s))
                    (codeBlockBgAnsi (with_bg (codeBlockBgKey o4) a o4))
                    (with_bg (codeBlockBgKey o4) a o4)
              | _ => with_bg (codeBlockBgKey o4) a o4 end).
  assert (H5 : o5' = with_bg (codeBlockBgKey o5) a o5)
    by (unfold o5, o5'; destruct (pt_codeBlockBgKey p); reflexivity).
  clearbody o5 o5'. subst o5'.
  destruct (pt_codeIndentSpaces p) as [| |[q|]| |]; reflexivity.
Qed.

Lemma resolve_forget getBgAnsi flags hasUI branch cur cur' :
  resolveOptions getBgAnsi flags hasUI branch cur
  = resolveOptions getBgAnsi flags hasUI branch cur'.
Proof.
  unfold resolveOptions. cbv zeta.
  assert (H : forall c,
    flagOptions flags hasUI c =
    with_bg (codeBlockBgKey (flagOptions flags hasUI cur)) (codeBlockBgAnsi c)
      (flagOptions flags hasUI cur)) by reflexivity.
  rewrite (H cur').
  destruct (readPersistedSettings branch) as [[p|]|];
    rewrite ?persisted_forget, ?derive_forget; reflexivity.
Qed.

(** X19.  A session start resets the options: what it resolves does not
    depend on the options held before, only on the flags, on whether a
    UI is attached, on the session branch and on the theme lookup.  The
    patch is enabled exactly when [commonmark-tui] is [true],
    [no-commonmark-tui] is not, and a UI is attached; no persisted entry
    changes that.  A background introducer is only ever set in an
    enabled session. *)
Theorem sessionStart_resets (getBgAnsi : str -> option str) (flags : TuiFlags)
    (hasUI : bool) (branch : list (option Entry)) (cur cur' : TuiPatchOptions) :
  resolveOptions getBgAnsi flags hasUI branch cur
    = resolveOptions getBgAnsi flags hasUI branch cur' /\
  enabled (resolveOptions getBgAnsi flags hasUI branch cur)
    = is_true (flag_tui flags) && negb (is_true (flag_no_tui flags)) && hasUI /\
  (enabled (resolveOptions getBgAnsi flags hasUI branch cur) = false ->
   codeBlockBgAnsi (resolveOptions getBgAnsi flags hasUI branch cur) = None).
Proof.
  split; [apply resolve_forget|].
  assert (He : forall p o, enabled (applyPersisted p o) = enabled o).
  { intros p o.
    apply (applyPersisted_stages (fun o' => enabled o' = enabled o));
      auto. }
  assert (Hd : forall o,
    enabled (deriveBgAnsi getBgAnsi o) = enabled o /\
    (enabled o = false -> codeBlockBgAnsi (deriveBgAnsi getBgAnsi o) = None)).
  { intros o. unfold deriveBgAnsi. cbv zeta.
    cbn [with_bg codeBlockBgKey enabled].
    destruct (codeBlockBgKey o) as [k|]; [|split; reflexivity].
    destruct (enabled o) eqn:Een; simpl andb.
    - destruct (truthy k); [destruct (getBgAnsi k)|];
        cbn [with_bg enabled codeBlockBgAnsi]; rewrite ?Een;
        (split; [reflexivity|discriminate]).
    - cbn [with_bg enabled codeBlockBgAnsi]. rewrite ?Een.
      split; reflexivity. }
  unfold resolveOptions. cbv zeta.
  set (o2 := match readPersistedSettings branch with
             | Some (Some p) => applyPersisted p (flagOptions flags hasUI cur)
             | _ => flagOptions flags hasUI cur
             end).
  assert (H2 : enabled o2
    = is_true (flag_tui flags) && negb (is_true (flag_no_tui flags)) && hasUI).
  { unfold o2. destruct (readPersistedSettings branch) as [[p|]|];
      rewrite ?He; reflexivity. }
  destruct (Hd o2) as (Hd1 & Hd2). split.
  - now rewrite Hd1.
  - rewrite Hd1. exact Hd2.
Qed.

Lemma sessionStart_resets_witness :
  codeBlockBgAnsi
    (resolveOptions (fun _ => Some bg236)
       {| flag_tui := VBoolean true; flag_no_tui := VBoolean true;
          flag_unfence := VString (lit "on");
          flag_hide_fences := VString (lit "on");
          flag_code_label := VString (lit "off");
          flag_strip_heading_prefix := VString (lit "on");
          flag_code_indent := VString (lit "4");
          flag_code_bg := VString (lit "toolPendingBg") |}
       true [] (options_bg bg236))
  = None.
Proof.
  apply (proj2 (proj2 (sessionStart_resets (fun _ => Some bg236) _ true []
                         (options_bg bg236) defaults))).
  reflexivity.
Defined.

(* ================================================================== *)
(** ** A disabled patch *)
(* ================================================================== *)

(** X20.  A disabled patch is transparent.  When the options say that
    the patch is not enabled, preparing an instance changes nothing on
    it, a render leaves its text, theme, flags and cache alone (it only
    notes the content width), [setText] stores the text as given, also
    when it is fenced, and the patched [renderToken] and
    [renderListItem] answer as the original methods do. *)
Theorem disabled_is_transparent (st : PatchState)
    (renderInlineTokens : list Token -> str)
    (renderList : Token -> Z -> list str)
    (original_renderToken this_renderToken :
       Token -> Z -> option string -> list str)
    (original_renderListItem : list Token -> Z -> list str) :
  enabled (options st) = false ->
  (forall i, patchMarkdownInstance i st = i) /\
  (forall i w,
     let i' := patched_render_prepare st i w in
     text i' = text i /\ theme i' = theme i /\
     unwrapped i' = unwrapped i /\ themePatched i' = themePatched i /\
     revisionApplied i' = revisionApplied i /\
     invalidations i' = invalidations i) /\
  (forall i t, text (patched_setText st i t) = t) /\
  (forall th token width next,
     patched_renderToken renderInlineTokens original_renderToken (options st)
       th token width next
     = original_renderToken token width next) /\
  (forall cw tokens parentDepth,
     patched_renderListItem renderInlineTokens renderList
       original_renderListItem this_renderToken (options st) cw tokens
       parentDepth
     = original_renderListItem tokens parentDepth).
Proof.
  intros He.
  assert (H1 : forall i, patchMarkdownInstance i st = i).
  { intros i. unfold patchMarkdownInstance. now rewrite He. }
  split; [exact H1|]. split; [|split; [|split]].
  - intros i w i'. unfold i', patched_render_prepare. cbv zeta.
    rewrite H1. repeat split; reflexivity.
  - intros i t. unfold patched_setText. cbv zeta. now rewrite He.
  - intros th token width next. unfold patched_renderToken. now rewrite He.
  - intros cw tokens parentDepth. unfold patched_renderListItem.
    now rewrite He.
Qed.

Lemma disabled_is_transparent_witness :
  text (patched_setText headless_state (freshInstance [] None)
          (fenced (lit "md") (lit "x")))
  = fenced (lit "md") (lit "x").
Proof.
  apply (proj1 (proj2 (proj2
    (disabled_is_transparent headless_state
       (fun _ => []) (fun _ _ => []) (fun _ _ _ => []) (fun _ _ _ => [])
       (fun _ _ => []) eq_refl)))).
Defined.
